(** * VideoGadjo: filename heuristics, processing pipeline, marks, ordering

    A shallow embedding of the parts of [server.js] and [public/js/app.js]
    that the specification talks about, together with the properties that
    were settled on them.

    Conventions of the embedding:
    - a JavaScript string that the code looks into (a file name, an
      extension, an invite code) is the list of its UTF-16 code units, a
      [list N]; a string that is only stored, compared, joined or split at
      line feeds (an id, a path, a message, the diagnostic text of a child
      process) is a [string];
    - a JavaScript number holding a time or a duration in seconds is a
      binary64 [float] (the kernel's primitive floats, the arithmetic of
      the engine); a number holding a whole quantity (an order index, a
      time value in milliseconds, an exit code) is a [Z];
    - [null] and [undefined] are [None];
    - an insertion-ordered [Map] is an association list;
    - a rejected promise or a thrown exception is an explicit value;
    - the clock, the uuid generator, the time zone of the host and the
      behaviour of the child processes are arguments of the functions that
      use them. *)

From Stdlib Require Import List String Ascii ZArith NArith Bool Lia Floats.
From Stdlib Require Import DecimalString OrderedTypeEx.
From Stdlib Require Import Sorted Permutation.
Import ListNotations.

Local Open Scope string_scope.
Local Open Scope list_scope.

(* ================================================================== *)
(** * Strings *)
(* ================================================================== *)

Module JsString.
Local Open Scope N_scope.

(** ** Texts given by their code units *)

(** The code unit of a character below 128, and the text made of such
    characters. *)
Definition chr (c : ascii) : N := N_of_ascii c.

Definition str (s : string) : list N := map chr (list_ascii_of_string s).

(** [a === b] on two texts. *)
Fixpoint eqb (a b : list N) : bool :=
  match a, b with
  | [], [] => true
  | x :: a', y :: b' => (x =? y) && eqb a' b'
  | _, _ => false
  end.

Definition isDigit (c : N) : bool := (48 <=? c) && (c <=? 57).

(** ** Upper case *)

(** The simple upper-case mappings of UnicodeData.txt (Unicode 14 and
    15), as runs [(first, last, step, image of first)]: every [step]-th
    code point from [first] to [last] has an upper-case form, at the same
    distance from [image of first]. *)
Definition simpleUppercase : list (N * N * N * N) :=
  [
    (0x61, 0x7A, 1, 0x41); (0xB5, 0xB5, 1, 0x39C); (0xE0, 0xF6, 1, 0xC0);
    (0xF8, 0xFE, 1, 0xD8); (0xFF, 0xFF, 1, 0x178); (0x101, 0x12F, 2, 0x100);
    (0x131, 0x131, 1, 0x49); (0x133, 0x137, 2, 0x132); (0x13A, 0x148, 2, 0x139);
    (0x14B, 0x177, 2, 0x14A); (0x17A, 0x17E, 2, 0x179); (0x17F, 0x17F, 1, 0x53);
    (0x180, 0x180, 1, 0x243); (0x183, 0x185, 2, 0x182); (0x188, 0x188, 1, 0x187);
    (0x18C, 0x18C, 1, 0x18B); (0x192, 0x192, 1, 0x191); (0x195, 0x195, 1, 0x1F6);
    (0x199, 0x199, 1, 0x198); (0x19A, 0x19A, 1, 0x23D); (0x19E, 0x19E, 1, 0x220);
    (0x1A1, 0x1A5, 2, 0x1A0); (0x1A8, 0x1A8, 1, 0x1A7); (0x1AD, 0x1AD, 1, 0x1AC);
    (0x1B0, 0x1B0, 1, 0x1AF); (0x1B4, 0x1B6, 2, 0x1B3); (0x1B9, 0x1B9, 1, 0x1B8);
    (0x1BD, 0x1BD, 1, 0x1BC); (0x1BF, 0x1BF, 1, 0x1F7); (0x1C5, 0x1C5, 1, 0x1C4);
    (0x1C6, 0x1C6, 1, 0x1C4); (0x1C8, 0x1C8, 1, 0x1C7); (0x1C9, 0x1C9, 1, 0x1C7);
    (0x1CB, 0x1CB, 1, 0x1CA); (0x1CC, 0x1CC, 1, 0x1CA); (0x1CE, 0x1DC, 2, 0x1CD);
    (0x1DD, 0x1DD, 1, 0x18E); (0x1DF, 0x1EF, 2, 0x1DE); (0x1F2, 0x1F2, 1, 0x1F1);
    (0x1F3, 0x1F3, 1, 0x1F1); (0x1F5, 0x1F5, 1, 0x1F4); (0x1F9, 0x21F, 2, 0x1F8);
    (0x223, 0x233, 2, 0x222); (0x23C, 0x23C, 1, 0x23B); (0x23F, 0x240, 1, 0x2C7E);
    (0x242, 0x242, 1, 0x241); (0x247, 0x24F, 2, 0x246); (0x250, 0x250, 1, 0x2C6F);
    (0x251, 0x251, 1, 0x2C6D); (0x252, 0x252, 1, 0x2C70); (0x253, 0x253, 1, 0x181);
    (0x254, 0x254, 1, 0x186); (0x256, 0x257, 1, 0x189); (0x259, 0x259, 1, 0x18F);
    (0x25B, 0x25B, 1, 0x190); (0x25C, 0x25C, 1, 0xA7AB); (0x260, 0x260, 1, 0x193);
    (0x261, 0x261, 1, 0xA7AC); (0x263, 0x263, 1, 0x194); (0x265, 0x265, 1, 0xA78D);
    (0x266, 0x266, 1, 0xA7AA); (0x268, 0x268, 1, 0x197); (0x269, 0x269, 1, 0x196);
    (0x26A, 0x26A, 1, 0xA7AE); (0x26B, 0x26B, 1, 0x2C62); (0x26C, 0x26C, 1, 0xA7AD);
    (0x26F, 0x26F, 1, 0x19C); (0x271, 0x271, 1, 0x2C6E); (0x272, 0x272, 1, 0x19D);
    (0x275, 0x275, 1, 0x19F); (0x27D, 0x27D, 1, 0x2C64); (0x280, 0x280, 1, 0x1A6);
    (0x282, 0x282, 1, 0xA7C5); (0x283, 0x283, 1, 0x1A9); (0x287, 0x287, 1, 0xA7B1);
    (0x288, 0x288, 1, 0x1AE); (0x289, 0x289, 1, 0x244); (0x28A, 0x28B, 1, 0x1B1);
    (0x28C, 0x28C, 1, 0x245); (0x292, 0x292, 1, 0x1B7); (0x29D, 0x29D, 1, 0xA7B2);
    (0x29E, 0x29E, 1, 0xA7B0); (0x345, 0x345, 1, 0x399); (0x371, 0x373, 2, 0x370);
    (0x377, 0x377, 1, 0x376); (0x37B, 0x37D, 1, 0x3FD); (0x3AC, 0x3AC, 1, 0x386);
    (0x3AD, 0x3AF, 1, 0x388); (0x3B1, 0x3C1, 1, 0x391); (0x3C2, 0x3C2, 1, 0x3A3);
    (0x3C3, 0x3CB, 1, 0x3A3); (0x3CC, 0x3CC, 1, 0x38C); (0x3CD, 0x3CE, 1, 0x38E);
    (0x3D0, 0x3D0, 1, 0x392); (0x3D1, 0x3D1, 1, 0x398); (0x3D5, 0x3D5, 1, 0x3A6);
    (0x3D6, 0x3D6, 1, 0x3A0); (0x3D7, 0x3D7, 1, 0x3CF); (0x3D9, 0x3EF, 2, 0x3D8);
    (0x3F0, 0x3F0, 1, 0x39A); (0x3F1, 0x3F1, 1, 0x3A1); (0x3F2, 0x3F2, 1, 0x3F9);
    (0x3F3, 0x3F3, 1, 0x37F); (0x3F5, 0x3F5, 1, 0x395); (0x3F8, 0x3F8, 1, 0x3F7);
    (0x3FB, 0x3FB, 1, 0x3FA); (0x430, 0x44F, 1, 0x410); (0x450, 0x45F, 1, 0x400);
    (0x461, 0x481, 2, 0x460); (0x48B, 0x4BF, 2, 0x48A); (0x4C2, 0x4CE, 2, 0x4C1);
    (0x4CF, 0x4CF, 1, 0x4C0); (0x4D1, 0x52F, 2, 0x4D0); (0x561, 0x586, 1, 0x531);
    (0x10D0, 0x10FA, 1, 0x1C90); (0x10FD, 0x10FF, 1, 0x1CBD); (0x13F8, 0x13FD, 1, 0x13F0);
    (0x1C80, 0x1C80, 1, 0x412); (0x1C81, 0x1C81, 1, 0x414); (0x1C82, 0x1C82, 1, 0x41E);
    (0x1C83, 0x1C84, 1, 0x421); (0x1C85, 0x1C85, 1, 0x422); (0x1C86, 0x1C86, 1, 0x42A);
    (0x1C87, 0x1C87, 1, 0x462); (0x1C88, 0x1C88, 1, 0xA64A); (0x1D79, 0x1D79, 1, 0xA77D);
    (0x1D7D, 0x1D7D, 1, 0x2C63); (0x1D8E, 0x1D8E, 1, 0xA7C6); (0x1E01, 0x1E95, 2, 0x1E00);
    (0x1E9B, 0x1E9B, 1, 0x1E60); (0x1EA1, 0x1EFF, 2, 0x1EA0); (0x1F00, 0x1F07, 1, 0x1F08);
    (0x1F10, 0x1F15, 1, 0x1F18); (0x1F20, 0x1F27, 1, 0x1F28); (0x1F30, 0x1F37, 1, 0x1F38);
    (0x1F40, 0x1F45, 1, 0x1F48); (0x1F51, 0x1F57, 2, 0x1F59); (0x1F60, 0x1F67, 1, 0x1F68);
    (0x1F70, 0x1F71, 1, 0x1FBA); (0x1F72, 0x1F75, 1, 0x1FC8); (0x1F76, 0x1F77, 1, 0x1FDA);
    (0x1F78, 0x1F79, 1, 0x1FF8); (0x1F7A, 0x1F7B, 1, 0x1FEA); (0x1F7C, 0x1F7D, 1, 0x1FFA);
    (0x1FB0, 0x1FB1, 1, 0x1FB8); (0x1FBE, 0x1FBE, 1, 0x399); (0x1FD0, 0x1FD1, 1, 0x1FD8);
    (0x1FE0, 0x1FE1, 1, 0x1FE8); (0x1FE5, 0x1FE5, 1, 0x1FEC); (0x214E, 0x214E, 1, 0x2132);
    (0x2170, 0x217F, 1, 0x2160); (0x2184, 0x2184, 1, 0x2183); (0x24D0, 0x24E9, 1, 0x24B6);
    (0x2C30, 0x2C5F, 1, 0x2C00); (0x2C61, 0x2C61, 1, 0x2C60); (0x2C65, 0x2C65, 1, 0x23A);
    (0x2C66, 0x2C66, 1, 0x23E); (0x2C68, 0x2C6C, 2, 0x2C67); (0x2C73, 0x2C73, 1, 0x2C72);
    (0x2C76, 0x2C76, 1, 0x2C75); (0x2C81, 0x2CE3, 2, 0x2C80); (0x2CEC, 0x2CEE, 2, 0x2CEB);
    (0x2CF3, 0x2CF3, 1, 0x2CF2); (0x2D00, 0x2D25, 1, 0x10A0); (0x2D27, 0x2D27, 1, 0x10C7);
    (0x2D2D, 0x2D2D, 1, 0x10CD); (0xA641, 0xA66D, 2, 0xA640); (0xA681, 0xA69B, 2, 0xA680);
    (0xA723, 0xA72F, 2, 0xA722); (0xA733, 0xA76F, 2, 0xA732); (0xA77A, 0xA77C, 2, 0xA779);
    (0xA77F, 0xA787, 2, 0xA77E); (0xA78C, 0xA78C, 1, 0xA78B); (0xA791, 0xA793, 2, 0xA790);
    (0xA794, 0xA794, 1, 0xA7C4); (0xA797, 0xA7A9, 2, 0xA796); (0xA7B5, 0xA7C3, 2, 0xA7B4);
    (0xA7C8, 0xA7CA, 2, 0xA7C7); (0xA7D1, 0xA7D1, 1, 0xA7D0); (0xA7D7, 0xA7D9, 2, 0xA7D6);
    (0xA7F6, 0xA7F6, 1, 0xA7F5); (0xAB53, 0xAB53, 1, 0xA7B3); (0xAB70, 0xABBF, 1, 0x13A0);
    (0xFF41, 0xFF5A, 1, 0xFF21); (0x10428, 0x1044F, 1, 0x10400); (0x104D8, 0x104FB, 1, 0x104B0);
    (0x10597, 0x105BB, 2, 0x10570); (0x10598, 0x105A0, 2, 0x10571); (0x105A4, 0x105B0, 2, 0x1057D);
    (0x105B4, 0x105B8, 2, 0x1058D); (0x105BC, 0x105BC, 1, 0x10595); (0x10CC0, 0x10CF2, 1, 0x10C80);
    (0x118C0, 0x118DF, 1, 0x118A0); (0x16E60, 0x16E7F, 1, 0x16E40); (0x1E922, 0x1E943, 1, 0x1E900) ].

(** The unconditional mappings of SpecialCasing.txt whose upper-case form
    is more than one code point. *)
Definition specialUppercase : list (N * list N) :=
  [
    (0xDF, [0x53; 0x53]); (0x149, [0x2BC; 0x4E]); (0x1F0, [0x4A; 0x30C]);
    (0x390, [0x399; 0x308; 0x301]); (0x3B0, [0x3A5; 0x308; 0x301]); (0x587, [0x535; 0x552]);
    (0x1E96, [0x48; 0x331]); (0x1E97, [0x54; 0x308]); (0x1E98, [0x57; 0x30A]);
    (0x1E99, [0x59; 0x30A]); (0x1E9A, [0x41; 0x2BE]); (0x1F50, [0x3A5; 0x313]);
    (0x1F52, [0x3A5; 0x313; 0x300]); (0x1F54, [0x3A5; 0x313; 0x301]); (0x1F56, [0x3A5; 0x313; 0x342]);
    (0x1F80, [0x1F08; 0x399]); (0x1F81, [0x1F09; 0x399]); (0x1F82, [0x1F0A; 0x399]);
    (0x1F83, [0x1F0B; 0x399]); (0x1F84, [0x1F0C; 0x399]); (0x1F85, [0x1F0D; 0x399]);
    (0x1F86, [0x1F0E; 0x399]); (0x1F87, [0x1F0F; 0x399]); (0x1F88, [0x1F08; 0x399]);
    (0x1F89, [0x1F09; 0x399]); (0x1F8A, [0x1F0A; 0x399]); (0x1F8B, [0x1F0B; 0x399]);
    (0x1F8C, [0x1F0C; 0x399]); (0x1F8D, [0x1F0D; 0x399]); (0x1F8E, [0x1F0E; 0x399]);
    (0x1F8F, [0x1F0F; 0x399]); (0x1F90, [0x1F28; 0x399]); (0x1F91, [0x1F29; 0x399]);
    (0x1F92, [0x1F2A; 0x399]); (0x1F93, [0x1F2B; 0x399]); (0x1F94, [0x1F2C; 0x399]);
    (0x1F95, [0x1F2D; 0x399]); (0x1F96, [0x1F2E; 0x399]); (0x1F97, [0x1F2F; 0x399]);
    (0x1F98, [0x1F28; 0x399]); (0x1F99, [0x1F29; 0x399]); (0x1F9A, [0x1F2A; 0x399]);
    (0x1F9B, [0x1F2B; 0x399]); (0x1F9C, [0x1F2C; 0x399]); (0x1F9D, [0x1F2D; 0x399]);
    (0x1F9E, [0x1F2E; 0x399]); (0x1F9F, [0x1F2F; 0x399]); (0x1FA0, [0x1F68; 0x399]);
    (0x1FA1, [0x1F69; 0x399]); (0x1FA2, [0x1F6A; 0x399]); (0x1FA3, [0x1F6B; 0x399]);
    (0x1FA4, [0x1F6C; 0x399]); (0x1FA5, [0x1F6D; 0x399]); (0x1FA6, [0x1F6E; 0x399]);
    (0x1FA7, [0x1F6F; 0x399]); (0x1FA8, [0x1F68; 0x399]); (0x1FA9, [0x1F69; 0x399]);
    (0x1FAA, [0x1F6A; 0x399]); (0x1FAB, [0x1F6B; 0x399]); (0x1FAC, [0x1F6C; 0x399]);
    (0x1FAD, [0x1F6D; 0x399]); (0x1FAE, [0x1F6E; 0x399]); (0x1FAF, [0x1F6F; 0x399]);
    (0x1FB2, [0x1FBA; 0x399]); (0x1FB3, [0x391; 0x399]); (0x1FB4, [0x386; 0x399]);
    (0x1FB6, [0x391; 0x342]); (0x1FB7, [0x391; 0x342; 0x399]); (0x1FBC, [0x391; 0x399]);
    (0x1FC2, [0x1FCA; 0x399]); (0x1FC3, [0x397; 0x399]); (0x1FC4, [0x389; 0x399]);
    (0x1FC6, [0x397; 0x342]); (0x1FC7, [0x397; 0x342; 0x399]); (0x1FCC, [0x397; 0x399]);
    (0x1FD2, [0x399; 0x308; 0x300]); (0x1FD3, [0x399; 0x308; 0x301]); (0x1FD6, [0x399; 0x342]);
    (0x1FD7, [0x399; 0x308; 0x342]); (0x1FE2, [0x3A5; 0x308; 0x300]); (0x1FE3, [0x3A5; 0x308; 0x301]);
    (0x1FE4, [0x3A1; 0x313]); (0x1FE6, [0x3A5; 0x342]); (0x1FE7, [0x3A5; 0x308; 0x342]);
    (0x1FF2, [0x1FFA; 0x399]); (0x1FF3, [0x3A9; 0x399]); (0x1FF4, [0x38F; 0x399]);
    (0x1FF6, [0x3A9; 0x342]); (0x1FF7, [0x3A9; 0x342; 0x399]); (0x1FFC, [0x3A9; 0x399]);
    (0xFB00, [0x46; 0x46]); (0xFB01, [0x46; 0x49]); (0xFB02, [0x46; 0x4C]);
    (0xFB03, [0x46; 0x46; 0x49]); (0xFB04, [0x46; 0x46; 0x4C]); (0xFB05, [0x53; 0x54]);
    (0xFB06, [0x53; 0x54]); (0xFB13, [0x544; 0x546]); (0xFB14, [0x544; 0x535]);
    (0xFB15, [0x544; 0x53B]); (0xFB16, [0x54E; 0x546]); (0xFB17, [0x544; 0x53D]) ].

Definition inRun (cp : N) (run : N * N * N * N) : bool :=
  let '(first, last, step, _) := run in
  (first <=? cp) && (cp <=? last) && ((cp - first) mod step =? 0).

Definition simpleUpper (cp : N) : N :=
  match find (inRun cp) simpleUppercase with
  | Some (first, _, _, image) => image + (cp - first)
  | None => cp
  end.

(** [toUppercase] of one code point (Unicode Default Case Conversion). *)
Definition toUppercase (cp : N) : list N :=
  match find (fun entry => fst entry =? cp) specialUppercase with
  | Some (_, upper) => upper
  | None => [simpleUpper cp]
  end.

Definition isLeadingSurrogate (c : N) : bool := (0xD800 <=? c) && (c <=? 0xDBFF).
Definition isTrailingSurrogate (c : N) : bool := (0xDC00 <=? c) && (c <=? 0xDFFF).

(** [StringToCodePoints]: a leading surrogate followed by a trailing one
    is one code point, any other code unit is a code point of its own. *)
Fixpoint StringToCodePoints (s : list N) : list N :=
  match s with
  | [] => []
  | first :: rest =>
      match rest with
      | second :: rest' =>
          if isLeadingSurrogate first && isTrailingSurrogate second
          then ((first - 0xD800) * 0x400 + (second - 0xDC00) + 0x10000)
               :: StringToCodePoints rest'
          else first :: StringToCodePoints rest
      | [] => [first]
      end
  end.

(** [UTF16EncodeCodePoint] and [CodePointsToString] *)
Definition UTF16EncodeCodePoint (cp : N) : list N :=
  if cp <=? 0xFFFF then [cp]
  else [(cp - 0x10000) / 0x400 + 0xD800; (cp - 0x10000) mod 0x400 + 0xDC00].

Definition CodePointsToString (cps : list N) : list N :=
  flat_map UTF16EncodeCodePoint cps.

(** [String.prototype.toUpperCase] *)
Definition toUpperCase (s : list N) : list N :=
  CodePointsToString (flat_map toUppercase (StringToCodePoints s)).

(** [Canonicalize] of a pattern with the flag [i] and without the flag
    [u]: the upper-case form of the code unit when that is one code unit,
    except that a code unit from 128 on is never taken below 128. *)
Definition Canonicalize (ch : N) : N :=
  match CodePointsToString (toUppercase ch) with
  | [cu] => if (128 <=? ch) && (cu <? 128) then ch else cu
  | _ => ch
  end.

(** The code points from 128 on whose upper-case form has a code point
    below 128 in it: sharp s, dotless i, n with apostrophe, long s, j with
    caron, h, t, w, y and a with a mark, and the seven ligatures of f, s
    and t. *)
Definition upperHasAscii : list N :=
  [0xDF; 0x131; 0x149; 0x17F; 0x1F0; 0x1E96; 0x1E97; 0x1E98; 0x1E99; 0x1E9A;
   0xFB00; 0xFB01; 0xFB02; 0xFB03; 0xFB04; 0xFB05; 0xFB06].

(** ** Numbers in texts *)

Definition digitValue (c : N) : Z := (Z.of_N c - 48)%Z.

(** Value of the longest prefix of decimal digits, read left to right
    from the accumulator [acc]; [seen] tells whether a digit was read. *)
Fixpoint digitsPrefix (s : list N) (acc : Z) (seen : bool) : option Z :=
  match s with
  | c :: s' =>
      if isDigit c then digitsPrefix s' (10 * acc + digitValue c)%Z true
      else if seen then Some acc else None
  | [] => if seen then Some acc else None
  end.

(** White space and line terminators: what [parseInt] skips in front of
    the number and what [\s] matches. *)
Definition whiteSpace : list N :=
  [0x9; 0xA; 0xB; 0xC; 0xD; 0x20; 0xA0; 0x1680;
   0x2000; 0x2001; 0x2002; 0x2003; 0x2004; 0x2005; 0x2006; 0x2007; 0x2008;
   0x2009; 0x200A; 0x2028; 0x2029; 0x202F; 0x205F; 0x3000; 0xFEFF].

Definition isWhiteSpace (c : N) : bool := existsb (N.eqb c) whiteSpace.

Fixpoint trimStart (s : list N) : list N :=
  match s with
  | c :: s' => if isWhiteSpace c then trimStart s' else s
  | [] => []
  end.

(** [parseInt(s)] with the default radix, for decimal input: leading
    white space, an optional sign, then the longest run of digits.
    [None] is [NaN].  (The hexadecimal prefix [0x] is not modelled; the
    callers pass runs of decimal digits.) *)
Definition parseInt (s : list N) : option Z :=
  match trimStart s with
  | c :: s' =>
      if c =? 45 then option_map Z.opp (digitsPrefix s' 0 false)
      else if c =? 43 then digitsPrefix s' 0 false
      else digitsPrefix (c :: s') 0 false
  | [] => None
  end.

(** The texts made of decimal digits only. *)
Fixpoint allDigits (s : list N) : bool :=
  match s with
  | [] => true
  | c :: s' => isDigit c && allDigits s'
  end.

(** ** Lines of the diagnostic text of a child process *)

(** [s.split('\n')] *)
Definition newline : ascii := ascii_of_nat 10.

Fixpoint splitLines (s : string) : list string :=
  match s with
  | EmptyString => [EmptyString]
  | String c s' =>
      if Ascii.eqb c newline then EmptyString :: splitLines s'
      else match splitLines s' with
           | l :: ls => String c l :: ls
           | [] => [String c EmptyString]
           end
  end.

(** [lines.join('\n')] *)
Fixpoint joinLines (ls : list string) : string :=
  match ls with
  | [] => EmptyString
  | [l] => l
  | l :: ls' => (l ++ String newline (joinLines ls'))%string
  end.

(** [xs.slice(-n)]: the last [n] elements, all of them when there are
    fewer. *)
Definition sliceLast {A : Type} (n : nat) (xs : list A) : list A :=
  skipn (List.length xs - n) xs.

End JsString.

(* ================================================================== *)
(** * Regular expressions of the shape the server uses *)
(* ================================================================== *)

(** Every pattern in [server.js] is a sequence of items that each consume
    one character, some of them repeated a fixed number of times and some
    captured.  For such patterns the backtracking matcher of the engine has
    nothing to choose: at a given start position there is at most one way
    to match. *)
Module Regex.
Import JsString.
Local Open Scope N_scope.

Inductive atom : Type :=
| Chr (c : N)               (* a literal character *)
| Dgt                       (* \d *)
| AnyOf (cs : list N).      (* a character class [...] *)

Inductive node : Type :=
| One (a : atom)            (* a     *)
| Rep (n : nat) (a : atom)  (* a{n}  *)
| Cap (n : nat) (a : atom). (* (a{n}) *)

Record regex : Type := {
  anchored : bool;          (* starts with ^ *)
  ignoreCase : bool;        (* flag i *)
  nodes : list node
}.

Definition atomMatches (ic : bool) (a : atom) (c : N) : bool :=
  match a with
  | Chr x => if ic then Canonicalize c =? Canonicalize x else c =? x
  | Dgt => isDigit c
  | AnyOf cs =>
      existsb (fun x => if ic then Canonicalize c =? Canonicalize x
                        else c =? x) cs
  end.

(** Consume exactly [n] characters matching [a]; the consumed text and
    the rest. *)
Fixpoint takeRep (ic : bool) (a : atom) (n : nat) (s : list N)
  : option (list N * list N) :=
  match n with
  | O => Some ([], s)
  | S n' =>
      match s with
      | c :: s' =>
          if atomMatches ic a c then
            match takeRep ic a n' s' with
            | Some (m, r) => Some (c :: m, r)
            | None => None
            end
          else None
      | [] => None
      end
  end.

(** Match the nodes at the start of [s]; the captured groups in order. *)
Fixpoint matchHere (ic : bool) (ns : list node) (s : list N)
  : option (list (list N)) :=
  match ns with
  | [] => Some []
  | One a :: ns' =>
      match takeRep ic a 1 s with
      | Some (_, r) => matchHere ic ns' r
      | None => None
      end
  | Rep n a :: ns' =>
      match takeRep ic a n s with
      | Some (_, r) => matchHere ic ns' r
      | None => None
      end
  | Cap n a :: ns' =>
      match takeRep ic a n s with
      | Some (m, r) => option_map (cons m) (matchHere ic ns' r)
      | None => None
      end
  end.

(** Leftmost match: try every start position from the left. *)
Fixpoint search (ic : bool) (ns : list node) (s : list N)
  : option (list (list N)) :=
  match matchHere ic ns s with
  | Some caps => Some caps
  | None =>
      match s with
      | _ :: s' => search ic ns s'
      | [] => None
      end
  end.

(** [s.match(re)] for a pattern without the [g] flag: [None] is [null],
    otherwise the captured groups (the array without its element 0). *)
Definition matchRe (re : regex) (s : list N) : option (list (list N)) :=
  if anchored re then matchHere (ignoreCase re) (nodes re) s
  else search (ignoreCase re) (nodes re) s.

Definition lit (s : string) : list node :=
  map (fun c => One (Chr c)) (str s).

(** The sizes of the captured groups, and the patterns whose groups
    capture digits only. *)
Definition groupSizes (ns : list node) : list nat :=
  flat_map (fun n => match n with Cap k _ => [k] | _ => [] end) ns.

Definition capturesDigits (ns : list node) : bool :=
  forallb (fun n => match n with
                    | Cap (S _) Dgt => true
                    | Cap _ _ => false
                    | _ => true
                    end) ns.

(** A captured group of a digits-only pattern: a run of digits of the
    size of the group. *)
Definition digitRun (k : nat) (text : list N) : Prop :=
  List.length text = k /\ allDigits text = true /\ k <> O.

(** The atoms of a pattern, one per character it consumes. *)
Definition atomsOfNode (n : node) : list atom :=
  match n with
  | One a => [a]
  | Rep k a => repeat a k
  | Cap k a => repeat a k
  end.

Definition atomsOf (ns : list node) : list atom := flat_map atomsOfNode ns.

(** The text starts with characters that match the atoms one by one. *)
Fixpoint atomsMatch (ic : bool) (atoms : list atom) (s : list N) : bool :=
  match atoms with
  | [] => true
  | a :: atoms' =>
      match s with
      | c :: s' => atomMatches ic a c && atomsMatch ic atoms' s'
      | [] => false
      end
  end.

End Regex.

(* ================================================================== *)
(** * Dates *)
(* ================================================================== *)

(** The part of the ECMAScript [Date] object that the server relies on:
    the constructor with separate components and [getTime].  A time value
    is a whole number of milliseconds since the epoch, or [NaN] ([None]). *)
Module JsDate.

Local Open Scope Z_scope.

Record Date : Type := mkDate { getTime : option Z }.

Definition msPerDay : Z := 86400000.
Definition maxTime : Z := 8640000000000000.

(** Day number of the first day of year [y]. *)
Definition DayFromYear (y : Z) : Z :=
  365 * (y - 1970) + (y - 1969) / 4 - (y - 1901) / 100 + (y - 1601) / 400.

Definition InLeapYear (y : Z) : bool :=
  (y mod 4 =? 0) && (negb (y mod 100 =? 0) || (y mod 400 =? 0)).

(** Days of the year before month [m] (0 is January). *)
Definition DaysBeforeMonth (leap : bool) (m : Z) : Z :=
  let l := if leap then 1 else 0 in
  match m with
  | 0 => 0
  | 1 => 31
  | 2 => 59 + l
  | 3 => 90 + l
  | 4 => 120 + l
  | 5 => 151 + l
  | 6 => 181 + l
  | 7 => 212 + l
  | 8 => 243 + l
  | 9 => 273 + l
  | 10 => 304 + l
  | _ => 334 + l
  end.

(** [MakeDay]: months outside 0..11 carry into the year, and the day of
    the month is added as a plain offset, so days past the end of the month
    run on into the following months. *)
Definition MakeDay (year month date : Z) : Z :=
  let ym := year + month / 12 in
  let mn := month mod 12 in
  DayFromYear ym + DaysBeforeMonth (InLeapYear ym) mn + date - 1.

Definition MakeTime (hour min sec ms : Z) : Z :=
  hour * 3600000 + min * 60000 + sec * 1000 + ms.

Definition MakeDate (day time : Z) : Z := day * msPerDay + time.

Definition MakeFullYear (y : Z) : Z :=
  if (0 <=? y) && (y <=? 99) then 1900 + y else y.

Definition TimeClip (t : Z) : option Z :=
  if Z.abs t >? maxTime then None else Some t.

(** [UTC(t)]: local time to UTC.  The offset of the host's time zone at
    local time [t] is [tza t]. *)
Definition UTC (tza : Z -> Z) (t : Z) : Z := t - tza t.

(** [new Date(year, month, day, hour, minute, second)].  A [NaN]
    component gives an invalid date. *)
Definition newDate (tza : Z -> Z) (year month day hour minute second : option Z)
  : Date :=
  match year, month, day, hour, minute, second with
  | Some y, Some m, Some d, Some h, Some mi, Some s =>
      mkDate (TimeClip (UTC tza
        (MakeDate (MakeDay (MakeFullYear y) m d) (MakeTime h mi s 0))))
  | _, _, _, _, _, _ => mkDate None
  end.

(** A time zone whose offset from UTC is at most a day. *)
Definition boundedOffset (tza : Z -> Z) : Prop :=
  forall t, Z.abs (tza t) <= msPerDay.

(** [isNaN(x)] on a number. *)
Definition isNaN (x : option Z) : bool :=
  match x with Some _ => false | None => true end.

(** [a - b] on two dates: the difference of the time values, [NaN] when
    one of them is invalid.  (Time values are whole numbers below 2^53, so
    the sign of the binary64 difference is the sign of the exact one.) *)
Definition sub (a b : Date) : option Z :=
  match getTime a, getTime b with
  | Some x, Some y => Some (x - y)
  | _, _ => None
  end.

End JsDate.

(* ================================================================== *)
(** * Filename heuristics ([server.js], UTILITY FUNCTIONS) *)
(* ================================================================== *)

Module Filename.
Import JsString Regex JsDate.

Inductive Source : Type :=
| android | iphone | gopro | dji | whatsapp | other.

Definition d (n : nat) : node := Cap n Dgt.
Definition sep : node := One (AnyOf [chr "-"; chr "_"]).

(** The [patterns] array of [parseFilenameDate], in its order. *)
Definition patterns : list regex :=
  [ {| anchored := false; ignoreCase := true;
       nodes := lit "VID_" ++ [d 4; d 2; d 2] ++ lit "_" ++ [d 2; d 2; d 2] |};
    {| anchored := false; ignoreCase := true;
       nodes := lit "DJI_" ++ [d 4; d 2; d 2; d 2; d 2; d 2] |};
    {| anchored := false; ignoreCase := false;
       nodes := [d 4; sep; d 2; sep; d 2;
                 One (AnyOf (chr "-" :: chr "_" :: whiteSpace));
                 d 2; sep; d 2; sep; d 2] |};
    {| anchored := false; ignoreCase := false;
       nodes := [d 4; d 2; d 2] ++ lit "_" ++ [d 2; d 2; d 2] |};
    {| anchored := false; ignoreCase := true;
       nodes := lit "VID-" ++ [d 4; d 2; d 2] ++ lit "-WA" |} ].

(** Element [i] of the match array (group [i+1]) with the default of the
    destructuring pattern. *)
Definition group (m : list (list N)) (i : nat) (default : list N) : list N :=
  nth i m default.

(** The date built from one match:
    [[, year, month, day, hour = '00', minute = '00', second = '00']]. *)
Definition dateOfMatch (tza : Z -> Z) (m : list (list N)) : Date :=
  let year := nth_error m 0 in
  let month := nth_error m 1 in
  let day := nth_error m 2 in
  let hour := group m 3 (str "00") in
  let minute := group m 4 (str "00") in
  let second := group m 5 (str "00") in
  let int (o : option (list N)) :=
    match o with Some s => parseInt s | None => None end in
  newDate tza
    (int year)
    (option_map (fun x => x - 1)%Z (int month))
    (int day)
    (parseInt hour) (parseInt minute) (parseInt second).

(** The [for (const pattern of patterns)] loop. *)
Fixpoint tryPatterns (tza : Z -> Z) (ps : list regex) (filename : list N)
  : option Date :=
  match ps with
  | [] => None
  | pattern :: ps' =>
      match matchRe pattern filename with
      | Some m =>
          let date := dateOfMatch tza m in
          if negb (isNaN (getTime date)) then Some date
          else tryPatterns tza ps' filename
      | None => tryPatterns tza ps' filename
      end
  end.

(** [parseFilenameDate(filename)]: [None] is [null]. *)
Definition parseFilenameDate (tza : Z -> Z) (filename : list N)
  : option Date :=
  tryPatterns tza patterns filename.

(** The five tests of [detectVideoSource], each anchored at the start. *)
Definition reAndroid : regex :=
  {| anchored := true; ignoreCase := false;
     nodes := lit "VID_" ++ [Rep 8 Dgt] ++ lit "_" ++ [Rep 6 Dgt] |}.
Definition reIphone : regex :=
  {| anchored := true; ignoreCase := false;
     nodes := lit "IMG_" ++ [Rep 4 Dgt] |}.
Definition reGopro : regex :=
  {| anchored := true; ignoreCase := false;
     nodes := lit "G" ++ [One (AnyOf [chr "H"; chr "O"; chr "X"]); Rep 6 Dgt] |}.
Definition reDji : regex :=
  {| anchored := true; ignoreCase := false; nodes := lit "DJI_" |}.
Definition reWhatsapp : regex :=
  {| anchored := true; ignoreCase := false;
     nodes := lit "VID-" ++ [Rep 8 Dgt] ++ lit "-WA" |}.

Definition test (re : regex) (s : list N) : bool :=
  match matchRe re s with Some _ => true | None => false end.

Definition detectVideoSource (filename : list N) : Source :=
  let name := toUpperCase filename in
  if test reAndroid name then android
  else if test reIphone name then iphone
  else if test reGopro name then gopro
  else if test reDji name then dji
  else if test reWhatsapp name then whatsapp
  else other.

End Filename.

(* ================================================================== *)
(** * Arrays *)
(* ================================================================== *)

Module JsArray.

Local Open Scope Z_scope.

Section Sort.
Context {A : Type}.
(** The comparator, with [NaN] already read as [+0] the way the sort
    reads it. *)
Variable cmp : A -> A -> Z.

(** Put [x] in front of the first element that is not before it. *)
Fixpoint insert (x : A) (l : list A) : list A :=
  match l with
  | [] => [x]
  | y :: l' => if cmp x y >? 0 then y :: insert x l' else x :: l
  end.

(** [Array.prototype.sort(cmp)].  ECMAScript requires the sort to be
    stable; for a comparator that is a consistent total preorder that
    fixes the result, which is the one computed here by insertion from the
    right. *)
Fixpoint sort (l : list A) : list A :=
  match l with
  | [] => []
  | x :: l' => insert x (sort l')
  end.

End Sort.

(** A consistent comparator, as ECMAScript asks of the argument of
    [sort]: the sign of [cmp b a] is the opposite of the sign of
    [cmp a b], and "not after" is transitive. *)
Record Consistent {A : Type} (cmp : A -> A -> Z) : Prop := {
  cmp_antisym : forall a b, 0 < cmp a b <-> cmp b a < 0;
  cmp_trans : forall a b c, cmp a b <= 0 -> cmp b c <= 0 -> cmp a c <= 0
}.

(** [a] does not have to come after [b]. *)
Definition notAfter {A : Type} (cmp : A -> A -> Z) (a b : A) : Prop :=
  cmp a b <= 0.

(** A comparator result that may be [NaN]: the sort takes [NaN] as [+0]. *)
Definition sortCompareValue (v : option Z) : Z :=
  match v with Some z => z | None => 0 end.

End JsArray.

(* ================================================================== *)
(** * Debug logger ([server.js], DEBUG LOGGER) *)
(* ================================================================== *)

Module Logger.

Record LogEntry : Type := {
  timestamp : string;
  type : string;
  message : string
}.

Definition MAX_LOGS : nat := 100.

(** [log(message, type)] on the buffer [memoryLogs], at clock reading
    [now].  [unshift] puts the entry in front, [pop] drops the last one.
    (The console output is not part of the buffer and is left out; every
    caller passes a string as [message].) *)
Definition log (memoryLogs : list LogEntry) (now : string)
  (message : string) (type : string) : list LogEntry :=
  let entry := {| timestamp := now; type := type; message := message |} in
  let memoryLogs := entry :: memoryLogs in
  if (MAX_LOGS <? List.length memoryLogs)%nat then removelast memoryLogs
  else memoryLogs.

(** One call of [log]: the clock reading and the two arguments. *)
Record LogCall : Type := { at_time : string; msg : string; kind : string }.

Definition logCall (memoryLogs : list LogEntry) (c : LogCall) : list LogEntry :=
  log memoryLogs (at_time c) (msg c) (kind c).

(** The entry that a call writes. *)
Definition entryOf (c : LogCall) : LogEntry :=
  {| timestamp := at_time c; type := kind c; message := msg c |}.

(** The buffer after a sequence of calls, starting from the empty array
    the module creates. *)
Definition logAll (calls : list LogCall) : list LogEntry :=
  fold_left logCall calls [].

End Logger.

(* ================================================================== *)
(** * Transcoder adapter ([generateProxy], [generateThumbnail]) *)
(* ================================================================== *)

Module Transcoder.
Import JsString Logger.

(** What the child process does, as the events its handlers receive. *)
Inductive ProcEvent : Type :=
| StderrData (chunk : string)       (* ffmpeg.stderr 'data' *)
| ErrorEvent (message : string)     (* 'error': the process could not be launched *)
| CloseEvent (code : option Z).     (* 'close': exit code, null when killed *)

(** An event together with the clock reading when it is handled. *)
Definition TimedEvent : Type := (string * ProcEvent)%type.

Inductive Settled : Type :=
| Resolve (outputPath : string)
| Reject (errorMessage : string).

Record Run : Type := {
  stderr : string;
  promise : option Settled;      (* None: still pending *)
  memoryLogs : list LogEntry
}.

(** [resolve]/[reject] of a promise that may be settled already: the
    first settlement stays. *)
Definition settle (p : option Settled) (s : Settled) : option Settled :=
  match p with Some _ => p | None => Some s end.

Definition codeText (code : option Z) : string :=
  match code with
  | Some z => NilEmpty.string_of_int (Z.to_int z)
  | None => "null"
  end.

Definition isZero (code : option Z) : bool :=
  match code with Some 0%Z => true | _ => false end.

(** The text kept from the diagnostic stream:
    [stderr.split('\n').slice(-10).join('\n')]. *)
Definition lastLines (stderr : string) : string :=
  joinLines (sliceLast 10 (splitLines stderr)).

Definition proxyStep (outputPath : string) (r : Run) (e : TimedEvent) : Run :=
  let (now, ev) := e in
  match ev with
  | StderrData chunk =>
      {| stderr := stderr r ++ chunk; promise := promise r;
         memoryLogs := memoryLogs r |}
  | ErrorEvent m =>
      {| stderr := stderr r;
         promise := settle (promise r) (Reject "FFmpeg not found");
         memoryLogs := log (memoryLogs r) now ("❌ FFmpeg Error: " ++ m) "error" |}
  | CloseEvent code =>
      if negb (isZero code) then
        let lines : string := lastLines (stderr r) in
        {| stderr := stderr r;
           promise := settle (promise r)
                        (Reject ("Proxy generation failed: " ++ lines));
           memoryLogs := log (memoryLogs r) now
                           ("❌ FFmpeg Failed (code " ++ codeText code ++ "):"
                            ++ String newline lines) "error" |}
      else
        {| stderr := stderr r;
           promise := settle (promise r) (Resolve outputPath);
           memoryLogs := log (memoryLogs r) now
                           ("✅ FFmpeg Done: " ++ outputPath) "info" |}
  end.

(** [generateProxy(inputPath, outputPath)] run against the events of the
    child process; [start] is the clock reading at the call. *)
Definition generateProxy (logs : list LogEntry) (start : string)
  (inputPath outputPath : string) (events : list TimedEvent) : Run :=
  let logs := log logs start
                ("🎬 FFmpeg Start: " ++ inputPath ++ " -> " ++ outputPath) "info" in
  fold_left (proxyStep outputPath) events
    {| stderr := ""; promise := None; memoryLogs := logs |}.

(** [generateThumbnail] listens to 'error' and 'close' only: the
    diagnostic stream is not read and nothing is logged. *)
Definition thumbnailStep (outputPath : string) (r : Run) (e : TimedEvent) : Run :=
  let (now, ev) := e in
  match ev with
  | StderrData chunk => r
  | ErrorEvent m =>
      {| stderr := stderr r;
         promise := settle (promise r) (Reject "FFmpeg not found");
         memoryLogs := memoryLogs r |}
  | CloseEvent code =>
      {| stderr := stderr r;
         promise := settle (promise r)
                      (if negb (isZero code)
                       then Reject "Thumbnail generation failed"
                       else Resolve outputPath);
         memoryLogs := memoryLogs r |}
  end.

Definition generateThumbnail (logs : list LogEntry)
  (inputPath outputPath : string) (events : list TimedEvent) : Run :=
  fold_left (thumbnailStep outputPath) events
    {| stderr := ""; promise := None; memoryLogs := logs |}.

(** The two ways an invocation can fail, as the child process shows
    them: it could not be launched, or it ran and ended with a code other
    than 0. *)
Inductive Failure : Type :=
| LaunchFailure (message : string)
| NonZeroExit (code : option Z).

Definition settles (e : TimedEvent) : bool :=
  match snd e with StderrData _ => false | _ => true end.

(** The first 'error' or 'close' among the events. *)
Definition firstSettling (events : list TimedEvent) : option ProcEvent :=
  option_map snd (find settles events).

(** The failure that the events amount to, if any: what the first
    'error' or 'close' says. *)
Definition failureOf (events : list TimedEvent) : option Failure :=
  match firstSettling events with
  | Some (ErrorEvent m) => Some (LaunchFailure m)
  | Some (CloseEvent code) =>
      if isZero code then None else Some (NonZeroExit code)
  | _ => None
  end.

(** The diagnostic text received before the first 'error' or 'close'. *)
Fixpoint stderrBefore (events : list TimedEvent) : string :=
  match events with
  | (_, StderrData chunk) :: events' => chunk ++ stderrBefore events'
  | _ => ""
  end.

(** What the promise of a pending run becomes. *)
Definition proxyOutcome (outputPath : string) (seen : string)
  (events : list TimedEvent) : option Settled :=
  match firstSettling events with
  | Some (ErrorEvent _) => Some (Reject "FFmpeg not found")
  | Some (CloseEvent code) =>
      if isZero code then Some (Resolve outputPath)
      else Some (Reject ("Proxy generation failed: "
                         ++ lastLines (seen ++ stderrBefore events)))
  | _ => None
  end.

End Transcoder.

(* ================================================================== *)
(** * Records: clips (videos) and marks *)
(* ================================================================== *)

Module Model.
Import Filename.

Inductive ProcessingStatus : Type :=
| pending | processing | ready | failed.

Definition statusEqb (a b : ProcessingStatus) : bool :=
  match a, b with
  | pending, pending | processing, processing
  | ready, ready | failed, failed => true
  | _, _ => false
  end.

Record Mark : Type := {
  mark_id : string;           (* mark.id *)
  video_id : string;
  in_point : float;
  out_point : float;
  created_at : string
}.

(** A video record.  The three dates are ISO-8601 strings written by
    [toISOString]; they are kept as the time values (milliseconds) they
    denote, which is what [new Date(...)] reads back from them.  An
    absent field ([undefined]) is [None]. *)
Record Video : Type := {
  id : string;
  project_id : string;
  original_filename : list N;
  original_path : string;
  source : Source;
  duration : float;
  width : Z;
  height : Z;
  file_size : Z;
  filename_date : option Z;
  metadata_date : option Z;
  upload_date : Z;
  uploaded_by : string;
  order_index : Z;
  included : bool;
  processing_status : ProcessingStatus;
  proxy_url : option string;
  thumbnail_url : option string;
  marks : list Mark
}.

Definition withMarks (v : Video) (ms : list Mark) : Video :=
  {| id := id v; project_id := project_id v;
     original_filename := original_filename v;
     original_path := original_path v; source := source v;
     duration := duration v; width := width v; height := height v;
     file_size := file_size v; filename_date := filename_date v;
     metadata_date := metadata_date v; upload_date := upload_date v;
     uploaded_by := uploaded_by v; order_index := order_index v;
     included := included v; processing_status := processing_status v;
     proxy_url := proxy_url v; thumbnail_url := thumbnail_url v;
     marks := ms |}.

Definition withStatus (v : Video) (s : ProcessingStatus) : Video :=
  {| id := id v; project_id := project_id v;
     original_filename := original_filename v;
     original_path := original_path v; source := source v;
     duration := duration v; width := width v; height := height v;
     file_size := file_size v; filename_date := filename_date v;
     metadata_date := metadata_date v; upload_date := upload_date v;
     uploaded_by := uploaded_by v; order_index := order_index v;
     included := included v; processing_status := s;
     proxy_url := proxy_url v; thumbnail_url := thumbnail_url v;
     marks := marks v |}.

Definition withArtifacts (v : Video) (proxy thumb : string) : Video :=
  {| id := id v; project_id := project_id v;
     original_filename := original_filename v;
     original_path := original_path v; source := source v;
     duration := duration v; width := width v; height := height v;
     file_size := file_size v; filename_date := filename_date v;
     metadata_date := metadata_date v; upload_date := upload_date v;
     uploaded_by := uploaded_by v; order_index := order_index v;
     included := included v; processing_status := processing_status v;
     proxy_url := Some proxy; thumbnail_url := Some thumb;
     marks := marks v |}.

(** The length of a mark, [out_point - in_point]. *)
Definition markLength (m : Mark) : float :=
  PrimFloat.sub (out_point m) (in_point m).

(** Truthiness of a number: everything but [0], [-0] and [NaN]. *)
Definition truthy (x : float) : bool :=
  negb (PrimFloat.eqb x 0%float) && negb (PrimFloat.is_nan x).

(** [x || 0] on a number. *)
Definition orZeroF (x : float) : float := if truthy x then x else 0%float.

(** [x || 0] on an integer. *)
Definition orZero (x : Z) : Z := if (x =? 0)%Z then 0%Z else x.

(** The comparator [(a, b) => (a.order_index || 0) - (b.order_index || 0)],
    used by the server and by the client's manual mode. *)
Definition byOrderIndex (a b : Video) : Z :=
  (orZero (order_index a) - orZero (order_index b))%Z.

End Model.

(* ================================================================== *)
(** * An insertion-ordered [Map] with string keys *)
(* ================================================================== *)

Module JsMap.

Section Ops.
Context {V : Type}.

Fixpoint get (k : string) (m : list (string * V)) : option V :=
  match m with
  | [] => None
  | (k', v) :: m' => if String.eqb k k' then Some v else get k m'
  end.

(** [set]: an existing key keeps its place, a new one goes last. *)
Fixpoint set (k : string) (v : V) (m : list (string * V)) : list (string * V) :=
  match m with
  | [] => [(k, v)]
  | (k', v') :: m' =>
      if String.eqb k k' then (k, v) :: m' else (k', v') :: set k v m'
  end.

Fixpoint delete (k : string) (m : list (string * V)) : list (string * V) :=
  match m with
  | [] => []
  | (k', v') :: m' =>
      if String.eqb k k' then m' else (k', v') :: delete k m'
  end.

Definition has (k : string) (m : list (string * V)) : bool :=
  match get k m with Some _ => true | None => false end.

Definition values (m : list (string * V)) : list V := map snd m.

End Ops.

End JsMap.

(* ================================================================== *)
(** * The server in local mode ([server.js], API ROUTES) *)
(* ================================================================== *)

Module Server.
Import JsString JsDate Filename Logger Transcoder Model.

Record Project : Type := {
  name : string;
  invite_code : string
}.

(** [localStore] (the [exports] map plays no part below and is left out). *)
Record LocalStore : Type := {
  projects : list (string * Project);
  videos : list (string * Video);
  marks : list (string * Mark)
}.

(** What a handler answers: [res.json(...)] or an error status. *)
Inductive Response (A : Type) : Type :=
| Json (body : A)
| Status (code : Z) (error : string).
Arguments Json {A} body.
Arguments Status {A} code error.

Record UploadedFile : Type := {
  originalname : list N;
  path : string;
  size : Z
}.

(** The result of [getVideoMetadata] when the probe succeeded. *)
Record Metadata : Type := {
  m_duration : float;
  m_width : Z;
  m_height : Z;
  creationTime : option Date
}.

(** [date.toISOString()]: throws a [RangeError] on an invalid date. *)
Definition toISOString (dt : Date) : option Z := getTime dt.

(** The [video] object the upload handler builds; [None] when building it
    throws (the creation time of the container is not a date). *)
Definition newVideo (tza : Z -> Z) (videoId projectId : string) (now : Z)
  (uploadedBy : option string) (file : UploadedFile)
  (metadata : option Metadata) : option Video :=
  let source := detectVideoSource (originalname file) in
  let filenameDate := parseFilenameDate tza (originalname file) in
  let build (filename_date metadata_date : option Z) : Video :=
    {| id := videoId;
       project_id := projectId;
       original_filename := originalname file;
       original_path := path file;
       source := source;
       duration := match metadata with
                   | Some m => orZeroF (m_duration m)
                   | None => 0%float
                   end;
       width := match metadata with Some m => orZero (m_width m) | None => 0%Z end;
       height := match metadata with Some m => orZero (m_height m) | None => 0%Z end;
       file_size := size file;
       filename_date := filename_date;
       metadata_date := metadata_date;
       upload_date := now;
       uploaded_by := match uploadedBy with
                      | Some u => if String.eqb u "" then "anonymous" else u
                      | None => "anonymous"
                      end;
       order_index := 0%Z;
       included := true;
       processing_status := processing;
       proxy_url := None;
       thumbnail_url := None;
       Model.marks := [] |} in
  let creation :=
    match metadata with Some m => creationTime m | None => None end in
  match filenameDate, creation with
  | Some fd, Some cd =>
      match toISOString fd, toISOString cd with
      | Some f, Some c => Some (build (Some f) (Some c))
      | _, _ => None
      end
  | Some fd, None =>
      match toISOString fd with
      | Some f => Some (build (Some f) None)
      | None => None
      end
  | None, Some cd =>
      match toISOString cd with
      | Some c => Some (build None (Some c))
      | None => None
      end
  | None, None => Some (build None None)
  end.

(** POST /api/projects/:projectId/videos, up to the point where the
    background processing is started. *)
Definition uploadVideo (tza : Z -> Z) (st : LocalStore)
  (videoId projectId : string) (now : Z) (uploadedBy : option string)
  (file : option UploadedFile) (metadata : option Metadata)
  : LocalStore * Response Video :=
  match file with
  | None => (st, Status 400 "Žádný soubor")
  | Some f =>
      match newVideo tza videoId projectId now uploadedBy f metadata with
      | Some video =>
          ({| projects := projects st;
              videos := JsMap.set videoId video (videos st);
              marks := marks st |}, Json video)
      | None => (st, Status 500 "Invalid time value")
      end
  end.

(** How an [async] function ends: its promise is fulfilled, rejected, or
    it stays suspended at an [await] that never settles. *)
Inductive Completion : Type :=
| Fulfilled
| Rejected (error : string)
| Suspended.

Record Pipeline : Type := {
  store : LocalStore;
  logs : list LogEntry;
  spawned : list string;         (* output path of every ffmpeg launched *)
  completion : Completion
}.

(** [path.join(dir, file)] for a directory and a plain file name. *)
Definition pathJoin (dir file : string) : string :=
  (dir ++ "/" ++ file)%string.

(** The [catch] block of [generateProxyLocally]. *)
Definition markFailed (st : LocalStore) (videoId : string) : LocalStore :=
  match JsMap.get videoId (videos st) with
  | Some video =>
      {| projects := projects st;
         videos := JsMap.set videoId (withStatus video failed) (videos st);
         marks := marks st |}
  | None => st
  end.

(** The end of the [try] block of [generateProxyLocally]. *)
Definition markReady (st : LocalStore) (videoId proxyFilename thumbnailFilename : string)
  : LocalStore :=
  match JsMap.get videoId (videos st) with
  | Some video =>
      {| projects := projects st;
         videos := JsMap.set videoId
                     (withArtifacts (withStatus video ready)
                        ("/proxies/" ++ proxyFilename)
                        ("/thumbnails/" ++ thumbnailFilename))
                     (videos st);
         marks := marks st |}
  | None => st
  end.

(** [generateProxyLocally(videoId, filePath, projectId)].  The two child
    processes are given by the events they produce; [st] is the store as
    the function finds it when it resumes after its last [await]. *)
Definition generateProxyLocally (proxyDir thumbnailDir : string)
  (st : LocalStore) (memoryLogs0 : list LogEntry) (start : string)
  (videoId filePath projectId : string)
  (proxyEvents thumbEvents : list TimedEvent) : Pipeline :=
  let proxyFilename := (videoId ++ ".mp4")%string in
  let thumbnailFilename := (videoId ++ ".jpg")%string in
  let proxyPath := pathJoin proxyDir proxyFilename in
  let thumbPath := pathJoin thumbnailDir thumbnailFilename in
  let r1 := generateProxy memoryLogs0 start filePath proxyPath proxyEvents in
  match promise r1 with
  | None =>
      {| store := st; logs := memoryLogs r1; spawned := [proxyPath];
         completion := Suspended |}
  | Some (Reject error) =>
      {| store := markFailed st videoId; logs := memoryLogs r1;
         spawned := [proxyPath]; completion := Fulfilled |}
  | Some (Resolve _) =>
      let r2 := generateThumbnail (memoryLogs r1) filePath thumbPath thumbEvents in
      match promise r2 with
      | None =>
          {| store := st; logs := memoryLogs r2;
             spawned := [proxyPath; thumbPath]; completion := Suspended |}
      | Some (Reject error) =>
          {| store := markFailed st videoId; logs := memoryLogs r2;
             spawned := [proxyPath; thumbPath]; completion := Fulfilled |}
      | Some (Resolve _) =>
          {| store := markReady st videoId proxyFilename thumbnailFilename;
             logs := memoryLogs r2;
             spawned := [proxyPath; thumbPath]; completion := Fulfilled |}
      end
  end.

(** DELETE /api/videos/:id in local mode; [files] are the paths that
    exist on disk.  (Removing an existing file is taken to succeed.) *)
Definition deleteVideo (st : LocalStore) (files : list string) (videoId : string)
  : LocalStore * list string * Response unit :=
  match JsMap.get videoId (videos st) with
  | Some video =>
      let files' :=
        if negb (String.eqb (original_path video) "")
           && existsb (String.eqb (original_path video)) files
        then filter (fun f => negb (String.eqb f (original_path video))) files
        else files in
      ({| projects := projects st;
          videos := JsMap.delete videoId (videos st);
          marks := marks st |}, files', Json tt)
  | None => (st, files, Json tt)
  end.

(** POST /api/videos/:videoId/marks in local mode; [markId] is the fresh
    uuid and [now] the clock reading. *)
Definition addMark (st : LocalStore) (markId now : string)
  (videoId : string) (in_point out_point : float)
  : LocalStore * Response Mark :=
  let mark := {| mark_id := markId; video_id := videoId;
                 in_point := in_point; out_point := out_point;
                 created_at := now |} in
  let marks' := JsMap.set markId mark (marks st) in
  let videos' :=
    match JsMap.get videoId (videos st) with
    | Some video =>
        JsMap.set videoId (withMarks video (Model.marks video ++ [mark]))
          (videos st)
    | None => videos st
    end in
  ({| projects := projects st; videos := videos'; marks := marks' |},
   Json mark).

(** DELETE /api/marks/:id in local mode. *)
Definition deleteMark (st : LocalStore) (markId : string)
  : LocalStore * Response unit :=
  ({| projects := projects st;
      videos := map (fun kv : string * Video =>
                  (fst kv,
                   withMarks (snd kv)
                     (filter (fun m => negb (String.eqb (mark_id m) markId))
                        (Model.marks (snd kv)))))
                  (videos st);
      marks := JsMap.delete markId (marks st) |}, Json tt).

(** The marks of the store that belong to a video, in the order of the
    map. *)
Definition marksOf (st : LocalStore) (videoId : string) : list Mark :=
  filter (fun m => String.eqb (video_id m) videoId) (JsMap.values (marks st)).

(** GET /api/projects/:id in local mode: the videos of the project, each
    with its [marks] array rebuilt from the marks map, sorted by order
    index.  The rebuilt arrays stay on the stored objects. *)
Definition getProject (st : LocalStore) (projectId : string)
  : LocalStore * Response (Project * list Video) :=
  match JsMap.get projectId (projects st) with
  | None => (st, Status 404 "Projekt nenalezen")
  | Some project =>
      let refresh (video : Video) : Video :=
        if String.eqb (project_id video) projectId
        then withMarks video (marksOf st (id video)) else video in
      let videos' := map (fun kv : string * Video => (fst kv, refresh (snd kv)))
                       (videos st) in
      let listed := filter (fun v => String.eqb (project_id v) projectId)
                      (JsMap.values videos') in
      ({| projects := projects st; videos := videos'; marks := marks st |},
       Json (project, JsArray.sort byOrderIndex listed))
  end.

(** The videos that [processExportLocally] collects for an export. *)
Definition exportVideos (st : LocalStore) (projectId : string) : list Video :=
  JsArray.sort byOrderIndex
    (filter (fun video =>
               String.eqb (project_id video) projectId
               && included video
               && statusEqb (processing_status video) ready)
       (JsMap.values (videos st))).

End Server.

(* ================================================================== *)
(** * The server in cloud mode: the two tables that matter for marks *)
(* ================================================================== *)

Module Cloud.
Import Model.

(** Rows of [videos] and of [marks].  [marks.video_id] is declared
    [REFERENCES videos(id) ON DELETE CASCADE]. *)
Record Db : Type := {
  videoRows : list Video;
  markRows : list Mark
}.

(** [DELETE FROM videos WHERE id = $1], with the cascade of the foreign
    key of [marks]. *)
Definition deleteVideo (db : Db) (videoId : string) : Db :=
  {| videoRows := filter (fun v => negb (String.eqb (id v) videoId)) (videoRows db);
     markRows := filter (fun m => negb (String.eqb (video_id m) videoId)) (markRows db) |}.

End Cloud.

(* ================================================================== *)
(** * The client ([public/js/app.js]) *)
(* ================================================================== *)

Module Client.
Import JsDate Model.

Inductive SortMode : Type :=
| smart | upload | filename | manual.

(** [new Date(s)] for an ISO string [s] that denotes the time value [t]. *)
Definition dateOfISO (t : Z) : Date := mkDate (Some t).

Definition getBestDate (video : Video) : Date :=
  match metadata_date video with
  | Some t => dateOfISO t
  | None =>
      match filename_date video with
      | Some t => dateOfISO t
      | None => dateOfISO (upload_date video)
      end
  end.

Section SortVideos.
(** [String.prototype.localeCompare] of the host. *)
Variable localeCompare : list N -> list N -> Z.

(** The comparator that [sortVideos] passes to [sort] in each mode. *)
Definition comparator (sortMode : SortMode) (a b : Video) : Z :=
  match sortMode with
  | smart =>
      let dateA := getBestDate a in
      let dateB := getBestDate b in
      JsArray.sortCompareValue (JsDate.sub dateA dateB)
  | upload =>
      JsArray.sortCompareValue
        (JsDate.sub (dateOfISO (upload_date a)) (dateOfISO (upload_date b)))
  | filename => localeCompare (original_filename a) (original_filename b)
  | manual => byOrderIndex a b
  end.

Definition sortVideos (sortMode : SortMode) (videos : list Video) : list Video :=
  JsArray.sort (comparator sortMode) videos.

End SortVideos.

(** The part of the application state that marking uses. *)
Record App : Type := {
  videos : list Video;
  activeVideoId : option string;
  currentInPoint : option float
}.

(** What [setOutPoint] does before it waits for the server: an error
    toast and nothing else, or the POST request it sends. *)
Inductive OutPointAction : Type :=
| ErrorToast (message : string)
| PostMark (videoId : string) (in_point out_point : float).

(** [setOutPoint()], with [currentTime] the position of the player. *)
Definition setOutPoint (app : App) (currentTime : float) : OutPointAction :=
  match activeVideoId app with
  | None => ErrorToast "Nejprve vyberte video"
  | Some videoId =>
      if String.eqb videoId "" then ErrorToast "Nejprve vyberte video"
      else
        match currentInPoint app with
        | None => ErrorToast "Nejprve nastavte In point"
        | Some inPoint =>
            let outPoint := currentTime in
            if PrimFloat.leb outPoint inPoint
            then ErrorToast "Out point musí být po In pointu"
            else PostMark videoId inPoint outPoint
        end
  end.

(** The state after the server answered [success] with [mark]. *)
Definition markSaved (app : App) (mark : Mark) : App :=
  {| videos :=
       match activeVideoId app with
       | Some videoId =>
           map (fun v => if String.eqb (id v) videoId
                         then withMarks v (marks v ++ [mark]) else v)
             (videos app)
       | None => videos app
       end;
     activeVideoId := activeVideoId app;
     currentInPoint := None |}.

Record ExportSummary : Type := {
  readyCount : nat;          (* readyVideos.length *)
  totalMarks : nat;
  totalDuration : float;
  markedOnly : bool          (* totalMarks > 0: the text shown *)
}.

Definition readyVideos (videos : list Video) : list Video :=
  filter (fun v => statusEqb (processing_status v) ready && included v) videos.

(** The body of [readyVideos.forEach(v => ...)]. *)
Definition addDuration (totalDuration : float) (v : Video) : float :=
  match marks v with
  | _ :: _ =>
      fold_left (fun t m => PrimFloat.add t (PrimFloat.sub (out_point m) (in_point m)))
        (marks v) totalDuration
  | [] =>
      if truthy (duration v) then PrimFloat.add totalDuration (duration v)
      else totalDuration
  end.

(** The figures [showExportModal] computes and shows. *)
Definition showExportModal (videos : list Video) : ExportSummary :=
  let readyVideos := readyVideos videos in
  let totalMarks :=
    fold_left (fun sum v => (sum + List.length (marks v))%nat) readyVideos 0%nat in
  let totalDuration := fold_left addDuration readyVideos 0%float in
  {| readyCount := List.length readyVideos;
     totalMarks := totalMarks;
     totalDuration := totalDuration;
     markedOnly := (0 <? totalMarks)%nat |}.

End Client.

(* ================================================================== *)
(** * The specification's own wording, for comparison *)
(* ================================================================== *)

Module Spec.
Import JsString Filename Model.

(** ** Device conventions (classifySource) *)

(** One position of a naming convention: a letter or sign, taken without
    regard to case, a digit, or one of several letters. *)
Inductive Slot : Type :=
| Letter (c : N)
| Digit
| OneOf (cs : list N).

(** The capital form of a small letter [a] to [z]; any other character
    is its own. *)
Definition capital (c : N) : N :=
  if ((97 <=? c) && (c <=? 122))%N then (c - 32)%N else c.

(** Two characters are the same letter when they are equal, or the small
    and the capital form of one of the letters A to Z. *)
Definition sameLetter (a b : N) : Prop := capital a = capital b.

Definition fits (sl : Slot) (c : N) : Prop :=
  match sl with
  | Letter x => sameLetter c x
  | Digit => (48 <= c <= 57)%N
  | OneOf cs => exists x, In x cs /\ sameLetter c x
  end.

(** A filename follows a convention when it starts with characters that
    fit the slots one by one. *)
Definition follows (conv : list Slot) (filename : list N) : Prop :=
  exists pre rest,
    filename = pre ++ rest /\
    Forall2 fits conv pre.

Definition letters (s : string) : list Slot := map Letter (str s).

Definition digits (n : nat) : list Slot := repeat Digit n.

(** The ordered list of conventions with their categories:
    VID_YYYYMMDD_HHMMSS, IMG_####, G[H|O|X]######, DJI_, VID-YYYYMMDD-WA. *)
Definition conventions : list (Source * list Slot) :=
  [ (android, letters "VID_" ++ digits 8 ++ letters "_" ++ digits 6);
    (iphone, letters "IMG_" ++ digits 4);
    (gopro, letters "G" ++ [OneOf [chr "H"; chr "O"; chr "X"]] ++ digits 6);
    (dji, letters "DJI_");
    (whatsapp, letters "VID-" ++ digits 8 ++ letters "-WA") ].

(** ** The patterns of [detectVideoSource] and the conventions *)

(** The slot that an atom of a pattern stands for, and the atoms whose
    characters are below 128 and not small letters (the form in which
    [detectVideoSource] has them). *)
Definition slotOf (a : Regex.atom) : Slot :=
  match a with
  | Regex.Chr x => Letter x
  | Regex.Dgt => Digit
  | Regex.AnyOf cs => OneOf cs
  end.

Definition upperFixed (c : N) : bool :=
  ((c <? 128) && negb ((97 <=? c) && (c <=? 122)))%N.

Definition upperAtom (a : Regex.atom) : bool :=
  match a with
  | Regex.Chr x => upperFixed x
  | Regex.Dgt => true
  | Regex.AnyOf cs => forallb upperFixed cs
  end.

(** A name as [detectVideoSource] reads it: a dotless i (U+0131) is
    read as i and an a with right half ring (U+1E9A) as a; every other
    character is read as itself. *)
Definition readAs (c : N) : N :=
  if (c =? 0x131)%N then 0x69%N else if (c =? 0x1E9A)%N then 0x61%N else c.

Definition asRead (filename : list N) : list N := map readAs filename.

(** A name without these two characters. *)
Definition plainName (filename : list N) : bool :=
  forallb (fun c => negb ((c =? 0x131) || (c =? 0x1E9A))%N) filename.

(** The other fifteen characters of [upperHasAscii]. *)
Definition harmless : list N :=
  [0xDF; 0x149; 0x17F; 0x1F0; 0x1E96; 0x1E97; 0x1E98; 0x1E99;
   0xFB00; 0xFB01; 0xFB02; 0xFB03; 0xFB04; 0xFB05; 0xFB06]%N.

(** The atoms refuse every text that starts with [e], at one of the
    characters of [e]. *)
Fixpoint rejects (atoms : list Regex.atom) (e : list N) : bool :=
  match atoms, e with
  | a :: atoms', u :: e' =>
      negb (Regex.atomMatches false a u) || rejects atoms' e'
  | _, _ => false
  end.

(** Atoms in capitals among which only the last one may accept the
    letter A, and which, from any position on, refuse the upper-case form
    of each of the fifteen characters. *)
Fixpoint wellPlaced (atoms : list Regex.atom) : bool :=
  match atoms with
  | [] => true
  | a :: atoms' =>
      upperAtom a
      && (negb (Regex.atomMatches false a 0x41%N)
          || match atoms' with [] => true | _ :: _ => false end)
      && forallb (fun c => rejects atoms (CodePointsToString (toUppercase c)))
           harmless
      && wellPlaced atoms'
  end.

(** ** Export plan *)

(** The lengths of the ranges a clip contributes: its marks when it has
    some, the whole clip otherwise; nothing when it is excluded or not
    ready. *)
Definition rangeLengths (c : Video) : list float :=
  if included c && statusEqb (processing_status c) ready then
    match marks c with
    | [] => [duration c]
    | ms => map markLength ms
    end
  else [].

Definition planRanges (clips : list Video) : list float :=
  flat_map rangeLengths clips.

Definition planTotal (clips : list Video) : float :=
  fold_left PrimFloat.add (planRanges clips) 0%float.

End Spec.

(* ================================================================== *)
(** * Sample data *)
(* ================================================================== *)

Module Samples.
Import Filename Model Server.

(** A clip as the upload handler creates it, with the fields that the
    examples vary. *)
Definition clip (videoId : string) (seconds : float)
  (status : ProcessingStatus) (ms : list Mark) : Video :=
  {| id := videoId; project_id := "p1";
     original_filename := JsString.str "VID_20230101_120000.mp4";
     original_path := "uploads/1-a.mp4"; source := android;
     duration := seconds; width := 1920; height := 1080;
     file_size := 1000; filename_date := Some 1672574400000%Z;
     metadata_date := None; upload_date := 1700000000000%Z;
     uploaded_by := "anonymous"; order_index := 0; included := true;
     processing_status := status; proxy_url := None; thumbnail_url := None;
     Model.marks := ms |}.

Definition mark (markId videoId : string) (i o : float) : Mark :=
  {| mark_id := markId; video_id := videoId; in_point := i; out_point := o;
     created_at := "2024-01-01T00:00:00.000Z" |}.

(** A store with one project and one ready clip of 20 seconds. *)
Definition store20 : LocalStore :=
  {| projects := [("p1", {| name := "trip"; invite_code := "ABCDEFGH" |})];
     videos := [("v1", clip "v1" 20 ready [])];
     Server.marks := [] |}.

(** Three clips for the three cases of the best date. *)
Definition withDates (m f : option Z) (u : Z) : Video :=
  {| id := "v"; project_id := "p1";
     original_filename := JsString.str "a.mp4";
     original_path := "uploads/a.mp4"; source := other;
     duration := 1; width := 0; height := 0; file_size := 1;
     filename_date := f; metadata_date := m; upload_date := u;
     uploaded_by := "anonymous"; order_index := 0; included := true;
     processing_status := ready; proxy_url := None; thumbnail_url := None;
     Model.marks := [] |}.

(** A child process that writes two lines of diagnostics and ends with
    exit code 1. *)
Definition failingRun : list Transcoder.TimedEvent :=
  [("t1", Transcoder.StderrData
            ("moov atom not found" ++ String JsString.newline "Invalid data found"));
   ("t2", Transcoder.CloseEvent (Some 1%Z))].

(** A host [localeCompare]: the order of the code units. *)
Fixpoint codeCompare (a b : list N) : Z :=
  match a, b with
  | [], [] => 0%Z
  | [], _ :: _ => (-1)%Z
  | _ :: _, [] => 1%Z
  | x :: a', y :: b' =>
      match N.compare x y with
      | Lt => (-1)%Z
      | Eq => codeCompare a' b'
      | Gt => 1%Z
      end
  end.

(** The two names that are classified by a convention they do not
    follow: [ımg_1234.mov] and [vıd-20230704-wa0001.mp4], each with a
    dotless i (U+0131). *)
Definition dotlessImg : list N := (0x131 :: JsString.str "mg_1234.mov")%N.

Definition dotlessVid : list N :=
  (JsString.chr "v" :: 0x131 :: JsString.str "d-20230704-wa0001.mp4")%N.

(** An engine's [toLowerCase] on a text of characters below 128. *)
Definition lowerAscii (s : list N) : list N :=
  map (fun c => if ((65 <=? c) && (c <=? 90))%N then (c + 32)%N else c) s.

End Samples.

(* ================================================================== *)
(** * Projects in local mode (POST /api/projects, GET /api/projects/join/:code) *)
(* ================================================================== *)

Module Projects.
Import JsString Server.

(** The [project] object of the create handler. *)
Record ProjectRow : Type := {
  id : list N;
  name : string;
  invite_code : list N;
  created_at : string;
  status : string
}.

(** [localStore.projects]: an insertion-ordered [Map] whose keys, ids and
    invite codes, are given by their code units. *)
Fixpoint get (k : list N) (m : list (list N * ProjectRow)) : option ProjectRow :=
  match m with
  | [] => None
  | (k', v) :: m' => if eqb k k' then Some v else get k m'
  end.

Fixpoint set (k : list N) (v : ProjectRow) (m : list (list N * ProjectRow))
  : list (list N * ProjectRow) :=
  match m with
  | [] => [(k, v)]
  | (k', v') :: m' =>
      if eqb k k' then (k, v) :: m' else (k', v') :: set k v m'
  end.

(** [generateInviteCode()], with [nano] the eight characters that
    [nanoid(8)] draws. *)
Definition generateInviteCode (nano : list N) : list N := toUpperCase nano.

(** POST /api/projects in local mode on [localStore.projects]; [uuid] is
    the fresh id and [now] the clock reading. *)
Definition createProject (projects : list (list N * ProjectRow))
  (uuid nano : list N) (now : string) (name : string)
  : list (list N * ProjectRow) * Response ProjectRow :=
  let inviteCode := generateInviteCode nano in
  let project := {| id := uuid; name := name; invite_code := inviteCode;
                    created_at := now; status := "active" |} in
  (set inviteCode project (set (id project) project projects),
   Json project).

(** The loop that looks for a project by its [invite_code]. *)
Fixpoint findByInviteCode (code : list N) (projects : list (list N * ProjectRow))
  : option ProjectRow :=
  match projects with
  | [] => None
  | (key, p) :: projects' =>
      if eqb (invite_code p) code then Some p
      else findByInviteCode code projects'
  end.

(** GET /api/projects/join/:code in local mode. *)
Definition joinProject (projects : list (list N * ProjectRow)) (code : list N)
  : Response ProjectRow :=
  let code := toUpperCase code in
  match get code projects with
  | Some project => Json project
  | None =>
      match findByInviteCode code projects with
      | Some project => Json project
      | None => Status 404 "Projekt nenalezen"
      end
  end.

End Projects.

(* ================================================================== *)
(** * Exports in local mode (POST /api/projects/:projectId/export,
      GET /api/exports/:id, [processExportLocally]) *)
(* ================================================================== *)

Module Exports.
Import Model Server.

Inductive ExportStatus : Type :=
| queued | exportProcessing | exportReady | exportFailed.

Record ExportData : Type := {
  id : string;
  project_id : string;
  status : ExportStatus;
  progress : Z;
  created_at : string;
  completed_at : option string
}.

(** [processExportLocally(exportId, projectId, name)] on
    [localStore.exports].  The function has no [await], so it runs to its
    end when it is called.  It collects the videos and does nothing with
    them. *)
Definition processExportLocally (exports : list (string * ExportData))
  (st : LocalStore) (now : string) (exportId projectId name : string)
  : list (string * ExportData) :=
  match JsMap.get exportId exports with
  | None => exports
  | Some exportData =>
      let videos := exportVideos st projectId in
      JsMap.set exportId
        {| id := id exportData; project_id := project_id exportData;
           status := exportReady; progress := 100;
           created_at := created_at exportData;
           completed_at := Some now |}
        exports
  end.

(** POST /api/projects/:projectId/export in local mode; [exportId] is the
    fresh uuid, [now] and [later] the two clock readings. *)
Definition startExport (exports : list (string * ExportData))
  (st : LocalStore) (exportId now later : string)
  (projectId : string) (name : option string)
  : list (string * ExportData) * Response string :=
  let exportData := {| id := exportId; project_id := projectId;
                       status := queued; progress := 0;
                       created_at := now; completed_at := None |} in
  let exports := JsMap.set exportId exportData exports in
  (processExportLocally exports st later exportId projectId
     (match name with
      | Some n => if String.eqb n "" then "export" else n
      | None => "export"
      end),
   Json exportId).

(** GET /api/exports/:id in local mode. *)
Definition getExport (exports : list (string * ExportData)) (exportId : string)
  : Response ExportData :=
  match JsMap.get exportId exports with
  | Some exportData => Json exportData
  | None => Status 404 "Export nenalezen"
  end.

End Exports.

(* ================================================================== *)
(** * The upload filter ([multer], [fileFilter]) *)
(* ================================================================== *)

Module UploadFilter.
Import JsString Regex.

(** [s.slice(1)] *)
Definition slice1 (s : list N) : list N :=
  match s with
  | [] => []
  | _ :: s' => s'
  end.

(** The words of [/mp4|mov|avi|mkv|webm|m4v|3gp/i]. *)
Definition allowedWords : list string :=
  ["mp4"; "mov"; "avi"; "mkv"; "webm"; "m4v"; "3gp"].

(** [allowedTypes.test(ext)]: one of the alternatives matches somewhere
    in [ext]. *)
Definition allowedTypesTest (ext : list N) : bool :=
  existsb (fun word =>
             match search true (lit word) ext with
             | Some _ => true
             | None => false
             end) allowedWords.

(** [word] occurs in [ext], letters taken without regard to case. *)
Definition occursIn (word : string) (ext : list N) : Prop :=
  exists before found after,
    ext = before ++ found ++ after /\
    Forall2 Spec.sameLetter found (str word).

(** [fileFilter]: [true] when the callback is given [true], [false] when
    it is given the error.  [extname] is [path.extname] of the host and
    [toLowerCase] is [String.prototype.toLowerCase] of the engine (whose
    result for a capital sigma depends on the letters around it). *)
Definition fileFilter (extname toLowerCase : list N -> list N)
  (originalname : list N) : bool :=
  let ext := slice1 (toLowerCase (extname originalname)) in
  allowedTypesTest ext.

End UploadFilter.

(* ================================================================== *)
(** * Moving between clips ([playVideo], [selectNextVideo],
      [selectPreviousVideo]) *)
(* ================================================================== *)

Module Navigation.
Import Model Client.

(** [xs.findIndex(p)], with -1 when nothing is found. *)
Fixpoint findIndex {A : Type} (p : A -> bool) (xs : list A) : Z :=
  match xs with
  | [] => (-1)%Z
  | x :: xs' =>
      if p x then 0%Z
      else let i := findIndex p xs' in
           if (i <? 0)%Z then (-1)%Z else (i + 1)%Z
  end.

(** [v.id === this.activeVideoId] *)
Definition isActive (app : App) (v : Video) : bool :=
  match activeVideoId app with
  | Some a => String.eqb (id v) a
  | None => false
  end.

(** The state that [playVideo(videoId)] leaves, before the player loads
    anything: an unknown or unprocessed clip changes nothing. *)
Definition playVideo (app : App) (videoId : string) : App :=
  match find (fun v => String.eqb (id v) videoId) (videos app) with
  | None => app
  | Some video =>
      if negb (statusEqb (processing_status video) ready) then app
      else {| videos := videos app;
              activeVideoId := Some videoId;
              currentInPoint := currentInPoint app |}
  end.

Definition processed (videos : list Video) : list Video :=
  filter (fun v => statusEqb (processing_status v) ready) videos.

Definition selectPreviousVideo (app : App) : App :=
  let readyVideos := processed (videos app) in
  let currentReadyIndex := findIndex (isActive app) readyVideos in
  if (currentReadyIndex >? 0)%Z then
    match nth_error readyVideos (Z.to_nat (currentReadyIndex - 1)) with
    | Some v => playVideo app (id v)
    | None => app
    end
  else app.

Definition selectNextVideo (app : App) : App :=
  let readyVideos := processed (videos app) in
  let currentReadyIndex := findIndex (isActive app) readyVideos in
  if (currentReadyIndex <? Z.of_nat (List.length readyVideos) - 1)%Z then
    match nth_error readyVideos (Z.to_nat (currentReadyIndex + 1)) with
    | Some v => playVideo app (id v)
    | None => app
    end
  else app.

End Navigation.

(* ================================================================== *)
(** * Sequences of requests to the server in local mode *)
(* ================================================================== *)

Module Session.
Import Logger Transcoder Model Server.

(** What can happen to [localStore.videos] and [localStore.marks]: the
    four handlers that write to them, the listing of a project (which
    rewrites the [marks] arrays) and the end of a background run of
    [generateProxyLocally]. *)
Inductive Request : Type :=
| Upload (tza : Z -> Z) (videoId projectId : string) (now : Z)
    (uploadedBy : option string) (file : option UploadedFile)
    (metadata : option Metadata)
| ProcessingEnds (videoId filePath projectId : string)
    (proxyEvents thumbEvents : list TimedEvent)
| DeleteVideo (files : list string) (videoId : string)
| AddMark (markId now videoId : string) (in_point out_point : float)
| DeleteMark (markId : string)
| GetProject (projectId : string).

Definition handle (st : LocalStore) (r : Request) : LocalStore :=
  match r with
  | Upload tza videoId projectId now uploadedBy file metadata =>
      fst (uploadVideo tza st videoId projectId now uploadedBy file metadata)
  | ProcessingEnds videoId filePath projectId proxyEvents thumbEvents =>
      store (generateProxyLocally "proxies" "thumbnails" st [] ""
               videoId filePath projectId proxyEvents thumbEvents)
  | DeleteVideo files videoId => fst (fst (deleteVideo st files videoId))
  | AddMark markId now videoId i o => fst (addMark st markId now videoId i o)
  | DeleteMark markId => fst (deleteMark st markId)
  | GetProject projectId => fst (getProject st projectId)
  end.

(** The store after a sequence of requests, starting with the given
    projects and no video and no mark. *)
Definition run (projects : list (string * Project)) (requests : list Request)
  : LocalStore :=
  fold_left handle requests
    {| projects := projects; videos := []; Server.marks := [] |}.

(** The artifact locations that [generateProxyLocally] writes for a clip. *)
Definition proxyUrlOf (videoId : string) : string :=
  ("/proxies/" ++ (videoId ++ ".mp4"))%string.

Definition thumbnailUrlOf (videoId : string) : string :=
  ("/thumbnails/" ++ (videoId ++ ".jpg"))%string.

(** A map whose keys are distinct and in which every record sits under
    its own id. *)
Definition keyed {V : Type} (key : V -> string) (m : list (string * V)) : Prop :=
  NoDup (map fst m) /\ Forall (fun kv => key (snd kv) = fst kv) m.

(** What holds of every video record in the store. *)
Record wellFormed (video : Video) : Prop := {
  wf_status : processing_status video <> pending;
  wf_duration : PrimFloat.is_nan (duration video) = false;
  wf_order : order_index video = 0%Z;
  wf_included : included video = true;
  wf_ready :
    processing_status video = ready ->
    proxy_url video = Some (proxyUrlOf (id video)) /\
    thumbnail_url video = Some (thumbnailUrlOf (id video));
  wf_marks : forall m, In m (Model.marks video) -> video_id m = id video
}.

Definition consistent (st : LocalStore) : Prop :=
  keyed id (videos st) /\
  keyed mark_id (Server.marks st) /\
  Forall wellFormed (JsMap.values (videos st)).

(** Every mark in a [marks] array has its id among the keys of the marks
    map. *)
Definition indexed (st : LocalStore) : Prop :=
  forall v m, In v (JsMap.values (videos st)) -> In m (Model.marks v) ->
              In (mark_id m) (map fst (Server.marks st)).

End Session.

(* ================================================================== *)
(** * Lines of a text *)
(* ================================================================== *)

Module Lines.
Import JsString.

(** A string without a line break. *)
Fixpoint noBreak (s : string) : bool :=
  match s with
  | EmptyString => true
  | String c s' => negb (Ascii.eqb c newline) && noBreak s'
  end.

End Lines.

(* ================================================================== *)
(** * More sample data *)
(* ================================================================== *)

Module MoreSamples.
Import Filename Model Server Client Samples.

Definition clipNamed (videoId : string) (status : ProcessingStatus) : Video :=
  {| Model.id := videoId; Model.project_id := "p1";
     original_filename := JsString.str "a.mp4";
     original_path := "uploads/a.mp4"; source := other;
     duration := 1; width := 0; height := 0; file_size := 1;
     filename_date := None; metadata_date := None; upload_date := 1%Z;
     uploaded_by := "anonymous"; order_index := 0; included := true;
     processing_status := status; proxy_url := None; thumbnail_url := None;
     Model.marks := [] |}.

(** Three clips, the middle one still processing, the first selected. *)
Definition threeClips : App :=
  {| Client.videos := [clipNamed "a" ready; clipNamed "b" processing;
                       clipNamed "c" ready];
     activeVideoId := Some "a";
     currentInPoint := None |}.

Definition uploaded : UploadedFile :=
  {| originalname := JsString.str "VID_20230101_120000.mp4";
     path := "uploads/1-a.mp4"; size := 1000 |}.

Definition oneProject : list (string * Project) :=
  [("p1", {| name := "trip"; invite_code := "ABCDEFGH" |})].

(** A clip is uploaded, gets a mark, is processed with success, and the
    project is listed. *)
Definition session : list Session.Request :=
  [ Session.Upload (fun _ => 0%Z) "v1" "p1" 1700000000000%Z None
      (Some uploaded) None;
    Session.AddMark "m1" "t1" "v1" 5 10;
    Session.ProcessingEnds "v1" "uploads/1-a.mp4" "p1"
      [("t2", Transcoder.CloseEvent (Some 0%Z))]
      [("t3", Transcoder.CloseEvent (Some 0%Z))];
    Session.GetProject "p1" ].

(** The same upload with the name [vıd-20230704-wa0001.mp4]. *)
Definition uploadedDotless : UploadedFile :=
  {| originalname := dotlessVid; path := "uploads/2-b.mp4"; size := 1000 |}.

End MoreSamples.

(* ================================================================== *)
(** * Properties *)
(* ================================================================== *)

(** ** The log buffer *)

Section LoggerFacts.
Import Logger.

Lemma log_firstn (memoryLogs : list LogEntry) now m t :
  (List.length memoryLogs <= MAX_LOGS)%nat ->
  log memoryLogs now m t =
  firstn MAX_LOGS ({| timestamp := now; type := t; message := m |} :: memoryLogs).
Proof.
  intros Hlen. unfold log.
  set (e := {| timestamp := now; type := t; message := m |}).
  destruct (Nat.ltb_spec MAX_LOGS (List.length (e :: memoryLogs))) as [Hgt | Hle].
  - rewrite removelast_firstn_len.
    simpl List.length in *. f_equal. simpl. lia.
  - symmetry. apply firstn_all2. exact Hle.
Qed.

Lemma logAll_snoc (calls : list LogCall) (c : LogCall) :
  logAll (calls ++ [c]) = logCall (logAll calls) c.
Proof. unfold logAll. rewrite fold_left_app. reflexivity. Qed.

Lemma logAll_length (calls : list LogCall) :
  (List.length (logAll calls) <= MAX_LOGS)%nat.
Proof.
  induction calls as [| c calls IH] using rev_ind.
  - unfold MAX_LOGS. simpl. lia.
  - rewrite logAll_snoc. unfold logCall. rewrite log_firstn by exact IH.
    apply firstn_le_length.
Qed.

Lemma firstn_firstn_cons {A : Type} (n : nat) (x : A) (l : list A) :
  firstn n (x :: firstn n l) = firstn n (x :: l).
Proof.
  destruct n as [| n]; [reflexivity |].
  rewrite !firstn_cons. f_equal.
  rewrite firstn_firstn. f_equal. lia.
Qed.

Lemma logAll_recent (calls : list LogCall) :
  logAll calls = firstn MAX_LOGS (rev (map entryOf calls)).
Proof.
  induction calls as [| c calls IH] using rev_ind.
  - reflexivity.
  - rewrite logAll_snoc. unfold logCall.
    rewrite log_firstn by apply logAll_length.
    rewrite map_app, rev_app_distr. simpl rev. simpl app.
    rewrite IH. apply firstn_firstn_cons.
Qed.

(** C10.  Start from the empty buffer and make any sequence of calls of
    [log], then one more.  After that call the buffer holds at most 100
    entries, the entry just written is at the front, the entries behind it
    are the previous buffer, without its last (oldest) entry exactly when
    the previous buffer was full; so the buffer is always the 100 most
    recent entries, newest first. *)
Theorem log_buffer_bounded :
  forall (calls : list LogCall) (c : LogCall),
    let before := logAll calls in
    let after := logCall before c in
    (List.length after <= 100)%nat /\
    after = entryOf c ::
              (if (List.length before <? 100)%nat then before
               else removelast before) /\
    after = firstn 100 (rev (map entryOf (calls ++ [c]))).
Proof.
  intros calls c before after.
  assert (Hb : (List.length before <= MAX_LOGS)%nat) by apply logAll_length.
  split; [| split].
  - subst after before. rewrite <- logAll_snoc. apply logAll_length.
  - subst after. unfold logCall, log. fold (entryOf c).
    change (List.length (entryOf c :: before)) with (S (List.length before)).
    unfold MAX_LOGS in *.
    destruct (Nat.ltb_spec 100 (S (List.length before))) as [Hgt | Hle];
      destruct (Nat.ltb_spec (List.length before) 100) as [Hlt | Hge];
      try lia; try reflexivity.
    destruct before as [| b before']; [simpl in Hgt; lia | reflexivity].
  - subst after before. rewrite <- logAll_snoc. apply logAll_recent.
Qed.

End LoggerFacts.

(** ** Maps *)

Section JsMapFacts.
Context {V : Type}.
Implicit Types (m : list (string * V)) (k : string) (v : V).

Lemma get_set_same k v m : JsMap.get k (JsMap.set k v m) = Some v.
Proof.
  induction m as [| [k' v'] m IH]; simpl.
  - rewrite String.eqb_refl. reflexivity.
  - destruct (String.eqb k k') eqn:E; simpl.
    + rewrite String.eqb_refl. reflexivity.
    + rewrite E. exact IH.
Qed.

Lemma get_set_other k k' v m :
  k <> k' -> JsMap.get k' (JsMap.set k v m) = JsMap.get k' m.
Proof.
  intros Hne. induction m as [| [k0 v0] m IH]; simpl.
  - destruct (String.eqb_spec k' k); [congruence | reflexivity].
  - destruct (String.eqb_spec k k0) as [-> | Hk]; simpl.
    + destruct (String.eqb_spec k' k0); [congruence | reflexivity].
    + destruct (String.eqb_spec k' k0); [reflexivity | exact IH].
Qed.

Lemma get_delete_other k k' m :
  k <> k' -> JsMap.get k' (JsMap.delete k m) = JsMap.get k' m.
Proof.
  intros Hne. induction m as [| [k0 v0] m IH]; simpl; [reflexivity |].
  destruct (String.eqb_spec k k0) as [-> | Hk]; simpl.
  - destruct (String.eqb_spec k' k0); [congruence | reflexivity].
  - destruct (String.eqb_spec k' k0); [reflexivity | exact IH].
Qed.

Lemma get_In k v m : JsMap.get k m = Some v -> In v (JsMap.values m).
Proof.
  induction m as [| [k0 v0] m IH]; simpl; [discriminate |].
  destruct (String.eqb k k0).
  - intros [= ->]. left. reflexivity.
  - intros H. right. exact (IH H).
Qed.

Lemma values_set_In k v m x :
  In x (JsMap.values (JsMap.set k v m)) -> x = v \/ In x (JsMap.values m).
Proof.
  induction m as [| [k0 v0] m IH]; simpl.
  - intros [<- | []]. left. reflexivity.
  - destruct (String.eqb k k0); simpl.
    + intros [<- | H]; [left; reflexivity | right; right; exact H].
    + intros [<- | H]; [right; left; reflexivity |].
      destruct (IH H) as [-> | H']; [left; reflexivity | right; right; exact H'].
Qed.

End JsMapFacts.

(** ** The best date of a clip *)

Section BestDate.
Import Model Client JsDate.

(** C4.  The time value of the date that [getBestDate] returns is the
    one of the container metadata when the clip has one; otherwise the one
    read from the filename when the clip has one; otherwise the one of the
    upload.  So the result always has a time value: it is never an invalid
    date. *)
Theorem getBestDate_precedence :
  forall video : Video,
    (forall t, metadata_date video = Some t ->
       getTime (getBestDate video) = Some t) /\
    (forall t, metadata_date video = None -> filename_date video = Some t ->
       getTime (getBestDate video) = Some t) /\
    (metadata_date video = None -> filename_date video = None ->
       getTime (getBestDate video) = Some (upload_date video)) /\
    (exists t, getTime (getBestDate video) = Some t).
Proof.
  intros video. unfold getBestDate.
  repeat split.
  - intros t ->. reflexivity.
  - intros t -> ->. reflexivity.
  - intros -> ->. reflexivity.
  - destruct (metadata_date video) as [t |]; [exists t; reflexivity |].
    destruct (filename_date video) as [t |]; [exists t; reflexivity |].
    exists (upload_date video). reflexivity.
Qed.

End BestDate.

Section BestDateWitness.
Import Model Client JsDate Samples.

Lemma getBestDate_precedence_witness :
  (metadata_date (withDates (Some 2000%Z) (Some 1000%Z) 3000%Z) = Some 2000%Z /\
   getTime (getBestDate (withDates (Some 2000%Z) (Some 1000%Z) 3000%Z))
   = Some 2000%Z) /\
  (metadata_date (withDates None (Some 1000%Z) 3000%Z) = None /\
   filename_date (withDates None (Some 1000%Z) 3000%Z) = Some 1000%Z /\
   getTime (getBestDate (withDates None (Some 1000%Z) 3000%Z)) = Some 1000%Z) /\
  (metadata_date (withDates None None 3000%Z) = None /\
   filename_date (withDates None None 3000%Z) = None /\
   getTime (getBestDate (withDates None None 3000%Z)) = Some 3000%Z).
Proof.
  split; [| split].
  - split; [reflexivity |].
    apply (proj1 (getBestDate_precedence
                    (withDates (Some 2000%Z) (Some 1000%Z) 3000%Z))).
    reflexivity.
  - split; [reflexivity | split; [reflexivity |]].
    apply (proj1 (proj2 (getBestDate_precedence
                           (withDates None (Some 1000%Z) 3000%Z))));
      reflexivity.
  - split; [reflexivity | split; [reflexivity |]].
    apply (proj1 (proj2 (proj2 (getBestDate_precedence
                                  (withDates None None 3000%Z)))));
      reflexivity.
Defined.

End BestDateWitness.

(** ** Adding a mark *)

Section AddMark.
Import Model Server Client Samples.

Lemma addMark_result (st : LocalStore) markId now videoId (i o : float) :
  snd (addMark st markId now videoId i o) =
  Json {| mark_id := markId; video_id := videoId; in_point := i;
          out_point := o; created_at := now |}.
Proof. reflexivity. Qed.

(** The add-mark handler accepts in = 10, out = 5 on the sample clip of
    20 seconds: out <= in, yet the answer is a success carrying the mark,
    and the clip, which had no mark, now has this one. *)
Lemma addMark_accepts_inverted_range :
  PrimFloat.leb 5 10 = true /\
  snd (addMark store20 "m1" "t" "v1" 10 5) =
    Json {| mark_id := "m1"; video_id := "v1"; in_point := 10;
            out_point := 5; created_at := "t" |} /\
  option_map Model.marks (JsMap.get "v1" (Server.videos store20)) = Some [] /\
  option_map Model.marks
    (JsMap.get "v1" (Server.videos (fst (addMark store20 "m1" "t" "v1" 10 5)))) =
    Some [ {| mark_id := "m1"; video_id := "v1"; in_point := 10;
              out_point := 5; created_at := "t" |} ] /\
  fst (addMark store20 "m1" "t" "v1" 10 5) <> store20.
Proof.
  repeat split; try reflexivity.
  intros H. apply (f_equal Server.marks) in H. discriminate H.
Qed.

(** C1, as the code has it.  The add-mark handler checks nothing: for
    every clip in the store and every pair (in, out) it answers success
    with a mark holding exactly these points, puts the mark in the marks
    map and appends it to the clip's marks, leaving the rest of the clip
    as it was.  The case out <= in is refused one step earlier, by
    [setOutPoint] of the client: with a clip selected and an in point
    staged, a player position that is not after the in point gives an
    error message and no request, so the store is not touched.  With
    in = 5 and out = 10 on a clip of duration 20 the handler succeeds and
    the mark's out_point - in_point is exactly 5. *)
Theorem addMark_unchecked_guard_in_client :
  (forall (st : LocalStore) markId now videoId (i o : float) (video : Video),
      JsMap.get videoId (Server.videos st) = Some video ->
      exists mark,
        snd (addMark st markId now videoId i o) = Json mark /\
        in_point mark = i /\ out_point mark = o /\
        JsMap.get markId (Server.marks (fst (addMark st markId now videoId i o)))
          = Some mark /\
        JsMap.get videoId (Server.videos (fst (addMark st markId now videoId i o)))
          = Some (withMarks video (Model.marks video ++ [mark]))) /\
  (forall (app : App) videoId (i o : float),
      activeVideoId app = Some videoId -> videoId <> "" ->
      currentInPoint app = Some i ->
      PrimFloat.leb o i = true ->
      setOutPoint app o = ErrorToast "Out point musí být po In pointu") /\
  (forall (st : LocalStore) markId now videoId (video : Video),
      JsMap.get videoId (Server.videos st) = Some video ->
      duration video = 20%float ->
      exists mark,
        snd (addMark st markId now videoId 5 10) = Json mark /\
        PrimFloat.sub (out_point mark) (in_point mark) = 5%float /\
        JsMap.get videoId (Server.videos (fst (addMark st markId now videoId 5 10)))
          = Some (withMarks video (Model.marks video ++ [mark]))).
Proof.
  split; [| split].
  - intros st markId now videoId i o video Hget.
    eexists. split; [apply addMark_result |].
    unfold addMark. simpl. rewrite Hget.
    repeat split; [apply get_set_same | apply get_set_same].
  - intros app videoId i o Hact Hne Hin Hle.
    unfold setOutPoint. rewrite Hact.
    destruct (String.eqb_spec videoId ""); [contradiction |].
    rewrite Hin, Hle. reflexivity.
  - intros st markId now videoId video Hget _.
    eexists. split; [apply addMark_result |].
    unfold addMark. simpl. rewrite Hget.
    split; [reflexivity | apply get_set_same].
Qed.

Lemma addMark_unchecked_guard_in_client_witness :
  (JsMap.get "v1" (Server.videos store20) = Some (clip "v1" 20 ready []) /\
   exists mark,
     snd (addMark store20 "m1" "t" "v1" 10 5) = Json mark /\
     in_point mark = 10%float /\ out_point mark = 5%float) /\
  (PrimFloat.leb 5 10 = true /\
   setOutPoint {| Client.videos := [clip "v1" 20 ready []];
                  activeVideoId := Some "v1";
                  currentInPoint := Some 10%float |} 5
     = ErrorToast "Out point musí být po In pointu") /\
  (duration (clip "v1" 20 ready []) = 20%float /\
   exists mark,
     snd (addMark store20 "m1" "t" "v1" 5 10) = Json mark /\
     PrimFloat.sub (out_point mark) (in_point mark) = 5%float).
Proof.
  split; [| split].
  - split; [reflexivity |].
    destruct (proj1 addMark_unchecked_guard_in_client
                store20 "m1" "t" "v1" 10%float 5%float
                (clip "v1" 20 ready []) eq_refl)
      as [mark [H1 [H2 [H3 _]]]].
    exists mark. repeat split; assumption.
  - split; [reflexivity |].
    apply (proj1 (proj2 addMark_unchecked_guard_in_client)
             _ "v1" 10%float 5%float); try reflexivity.
    discriminate.
  - split; [reflexivity |].
    destruct (proj2 (proj2 addMark_unchecked_guard_in_client)
                store20 "m1" "t" "v1" (clip "v1" 20 ready []) eq_refl eq_refl)
      as [mark [H1 [H2 _]]].
    exists mark. split; assumption.
Defined.

End AddMark.

(** ** Binary64 sums *)

Section FloatFacts.
Local Open Scope Z_scope.

Lemma iter_pos_nat {A : Type} (f : A -> A) (p : positive) (x : A) :
  SpecFloat.iter_pos f p x = Nat.iter (Pos.to_nat p) f x.
Proof.
  revert x. induction p as [p IH | p IH |]; intros x; cbn [SpecFloat.iter_pos].
  - rewrite !IH. rewrite <- Nat.iter_succ_r, <- Nat.iter_add.
    f_equal. lia.
  - rewrite !IH. rewrite <- Nat.iter_add. f_equal. lia.
  - reflexivity.
Qed.

(** Shifting a positive mantissa right by fewer places than it has digits
    leaves a positive mantissa. *)
Lemma shr_1_pos (k : nat) :
  forall (q : positive) (r s : bool),
    (k < Pos.to_nat (digits2_pos q))%nat ->
    exists q', shr_m (Nat.iter k shr_1 {| shr_m := Zpos q; shr_r := r; shr_s := s |})
               = Zpos q'.
Proof.
  induction k as [| k IH]; intros q r s Hk.
  - exists q. reflexivity.
  - rewrite Nat.iter_succ_r.
    destruct q as [q | q |]; simpl in Hk.
    + simpl shr_1. apply IH. rewrite Pos2Nat.inj_succ in Hk. lia.
    + simpl shr_1. apply IH. rewrite Pos2Nat.inj_succ in Hk. lia.
    + lia.
Qed.

Lemma shr_fexp_pos (q : positive) (e : Z) (l : location) :
  SpecFloat.emin prec emax <= e ->
  exists q' e',
    shr_fexp prec emax (Zpos q) e l = (q', e') /\
    (exists p, shr_m q' = Zpos p) /\ SpecFloat.emin prec emax <= e'.
Proof.
  intros He. unfold shr_fexp, shr.
  set (n := SpecFloat.fexp prec emax (Zdigits2 (Zpos q) + e) - e).
  set (mrs := shr_record_of_loc (Zpos q) l).
  assert (Hm : exists r s, mrs = {| shr_m := Zpos q; shr_r := r; shr_s := s |}).
  { subst mrs. destruct l as [| []]; simpl; eauto. }
  destruct Hm as [r [s Hm]].
  destruct n as [| p | p] eqn:En.
  - eexists _, _. split; [reflexivity |]. split; [| exact He].
    exists q. rewrite Hm. reflexivity.
  - eexists _, _. split; [reflexivity |]. split.
    + rewrite iter_pos_nat, Hm. apply shr_1_pos.
      subst n. unfold SpecFloat.fexp, SpecFloat.emin, prec, emax in *. simpl Zdigits2 in En.
      lia.
    + lia.
  - eexists _, _. split; [reflexivity |]. split; [| exact He].
    exists q. rewrite Hm. reflexivity.
Qed.

Lemma round_nearest_even_pos (p : positive) (l : location) :
  exists p', round_nearest_even (Zpos p) l = Zpos p'.
Proof.
  destruct l as [| []]; simpl; eauto.
  destruct p; simpl; eauto.
Qed.

Lemma binary_round_aux_not_zero (sx : bool) (q : positive) (e : Z) (l : location) (s : bool) :
  SpecFloat.emin prec emax <= e ->
  binary_round_aux prec emax sx (Zpos q) e l <> S754_zero s.
Proof.
  intros He. unfold binary_round_aux.
  destruct (shr_fexp_pos q e l He) as [mrs' [e' [-> [[p Hp] He']]]].
  rewrite Hp.
  destruct (round_nearest_even_pos p (loc_of_shr_record mrs')) as [p' ->].
  destruct (shr_fexp_pos p' e' loc_Exact He') as [mrs'' [e'' [-> [[p'' Hp''] _]]]].
  rewrite Hp''. destruct (e'' <=? emax - prec); discriminate.
Qed.

Lemma binary_round_not_zero (sx : bool) (m : positive) (e : Z) (s : bool) :
  SpecFloat.emin prec emax <= e ->
  binary_round prec emax sx m e <> S754_zero s.
Proof.
  intros He. unfold binary_round, shl_align.
  destruct (SpecFloat.fexp prec emax (Z.pos (digits2_pos m) + e) - e) eqn:E;
    try (apply binary_round_aux_not_zero; exact He).
  apply binary_round_aux_not_zero. unfold SpecFloat.fexp. lia.
Qed.

Lemma valid_emin (s : bool) (m : positive) (e : Z) :
  valid_binary (S754_finite s m e) = true -> SpecFloat.emin prec emax <= e.
Proof.
  unfold valid_binary, SpecFloat.valid_binary, bounded, canonical_mantissa,
    SpecFloat.fexp.
  intros H.
  apply andb_true_iff in H. destruct H as [H _]. apply Z.eqb_eq in H. lia.
Qed.

(** A sum is the negative zero only when its first term is. *)
Lemma SFadd_not_negZero (a b : spec_float) :
  valid_binary a = true -> valid_binary b = true ->
  a <> S754_zero true -> SFadd prec emax a b <> S754_zero true.
Proof.
  intros Ha Hb Hne.
  destruct a as [sa | sa | | sa ma ea], b as [sb | sb | | sb mb eb];
    simpl; try discriminate; try (destruct sa, sb; discriminate || congruence).
  unfold binary_normalize.
  pose proof (valid_emin _ _ _ Ha). pose proof (valid_emin _ _ _ Hb).
  destruct (_ + _)%Z; [discriminate | |];
    apply binary_round_not_zero; lia.
Qed.

Lemma add_not_negZero (x y : float) :
  Prim2SF x <> S754_zero true -> Prim2SF (x + y) <> S754_zero true.
Proof.
  intros H. rewrite add_spec. apply SFadd_not_negZero; try apply Prim2SF_valid.
  exact H.
Qed.

(** Adding a zero of either sign to anything but the negative zero
    changes nothing. *)
Lemma add_zero (x y : float) (s : bool) :
  Prim2SF y = S754_zero s -> Prim2SF x <> S754_zero true ->
  (x + y = x)%float.
Proof.
  intros Hy H. apply Prim2SF_inj. rewrite add_spec, Hy.
  unfold SF64add. destruct (Prim2SF x) as [[] | | |], s; simpl; congruence.
Qed.

Lemma eqb_zero (x : float) :
  (x =? 0)%float = true -> exists s, Prim2SF x = S754_zero s.
Proof.
  rewrite FloatAxioms.eqb_spec. change (Prim2SF 0) with (S754_zero false).
  destruct (Prim2SF x) as [s | [] | | [] m e]; try discriminate.
  intros _. exists s. reflexivity.
Qed.

End FloatFacts.

(** ** The export summary *)

Section ExportPlan.
Import Model Client Samples.

Lemma fold_left_add_map (ms : list Mark) (acc : float) :
  fold_left (fun t m => PrimFloat.add t (PrimFloat.sub (out_point m) (in_point m)))
    ms acc
  = fold_left PrimFloat.add (map markLength ms) acc.
Proof.
  revert acc. induction ms as [| m ms IH]; intros acc; simpl.
  - reflexivity.
  - rewrite IH. reflexivity.
Qed.

Lemma readyVideos_In (c : Video) (clips : list Video) :
  In c (readyVideos clips) <->
  In c clips /\ processing_status c = ready /\ included c = true.
Proof.
  unfold readyVideos. rewrite filter_In, andb_true_iff.
  split.
  - intros [Hin [Hs Hi]]. repeat split; try assumption.
    destruct (processing_status c); simpl in Hs; try discriminate; reflexivity.
  - intros [Hin [Hs Hi]]. rewrite Hs, Hi. repeat split; assumption.
Qed.

Lemma rangeLengths_skipped (c : Video) :
  included c = false \/ processing_status c <> ready ->
  Spec.rangeLengths c = [].
Proof.
  unfold Spec.rangeLengths. intros [Hi | Hs].
  - rewrite Hi. reflexivity.
  - destruct (included c); [| reflexivity].
    destruct (processing_status c); simpl; try reflexivity. congruence.
Qed.

Lemma readyVideos_skipped (c : Video) (pre post : list Video) :
  included c = false \/ processing_status c <> ready ->
  readyVideos (pre ++ c :: post) = readyVideos (pre ++ post).
Proof.
  intros H. unfold readyVideos. rewrite !filter_app. simpl.
  destruct H as [Hi | Hs].
  - rewrite Hi, andb_false_r. reflexivity.
  - destruct (processing_status c); simpl; try reflexivity. congruence.
Qed.

Lemma sum_not_negZero (l : list float) (acc : float) :
  Prim2SF acc <> S754_zero true ->
  Prim2SF (fold_left PrimFloat.add l acc) <> S754_zero true.
Proof.
  revert acc. induction l as [| x l IH]; intros acc H; simpl.
  - exact H.
  - apply IH. apply add_not_negZero. exact H.
Qed.

Lemma addDuration_rangeLengths (c : Video) (acc : float) :
  processing_status c = ready -> included c = true ->
  (marks c = [] -> PrimFloat.is_nan (duration c) = false) ->
  Prim2SF acc <> S754_zero true ->
  addDuration acc c = fold_left PrimFloat.add (Spec.rangeLengths c) acc.
Proof.
  intros Hs Hi Hd Hacc. unfold addDuration, Spec.rangeLengths.
  rewrite Hs, Hi. simpl.
  destruct (marks c) as [| m ms] eqn:Hm.
  - simpl. destruct (truthy (duration c)) eqn:Ht; [reflexivity |].
    unfold truthy in Ht. rewrite (Hd eq_refl), andb_true_r in Ht.
    apply negb_false_iff in Ht. destruct (eqb_zero _ Ht) as [s Hz].
    symmetry. exact (add_zero acc (duration c) s Hz Hacc).
  - apply (fold_left_add_map (m :: ms)).
Qed.

Lemma totalDuration_plan (clips : list Video) (acc : float) :
  (forall c, In c clips -> included c = true -> processing_status c = ready ->
             marks c = [] -> PrimFloat.is_nan (duration c) = false) ->
  Prim2SF acc <> S754_zero true ->
  fold_left addDuration (readyVideos clips) acc
  = fold_left PrimFloat.add (Spec.planRanges clips) acc.
Proof.
  revert acc. induction clips as [| c clips IH]; intros acc Hd Hacc.
  - reflexivity.
  - unfold Spec.planRanges. simpl flat_map. rewrite fold_left_app.
    fold (Spec.planRanges clips).
    assert (Hd' : forall c', In c' clips -> included c' = true ->
                    processing_status c' = ready -> marks c' = [] ->
                    PrimFloat.is_nan (duration c') = false)
      by (intros c' Hin; apply Hd; right; exact Hin).
    unfold readyVideos. simpl filter. fold (readyVideos clips).
    destruct (statusEqb (processing_status c) ready && included c) eqn:E.
    + apply andb_true_iff in E. destruct E as [Es Ei].
      assert (Hs : processing_status c = ready)
        by (destruct (processing_status c); simpl in Es; congruence).
      simpl fold_left.
      rewrite (addDuration_rangeLengths c acc Hs Ei
                 (Hd c (or_introl eq_refl) Ei Hs) Hacc).
      apply IH; [exact Hd' | apply sum_not_negZero; exact Hacc].
    + rewrite rangeLengths_skipped.
      * simpl. apply IH; assumption.
      * apply andb_false_iff in E. destruct E as [Es | Ei].
        -- right. intros Hs. rewrite Hs in Es. discriminate.
        -- left. exact Ei.
Qed.

Lemma totalMarks_count (clips : list Video) (n : nat) :
  (List.length (Spec.planRanges clips) + n)%nat =
  (fold_left (fun sum v => (sum + List.length (marks v))%nat)
     (readyVideos clips) n
   + List.length (filter (fun v => match marks v with [] => true | _ => false end)
                    (readyVideos clips)))%nat.
Proof.
  revert n. induction clips as [| c clips IH]; intros n.
  - simpl. lia.
  - unfold Spec.planRanges. simpl flat_map. rewrite length_app.
    fold (Spec.planRanges clips).
    unfold readyVideos. simpl filter. fold (readyVideos clips).
    unfold Spec.rangeLengths. rewrite (andb_comm (included c)).
    destruct (statusEqb (processing_status c) ready && included c).
    + simpl fold_left. simpl filter.
      destruct (marks c) as [| m ms]; simpl List.length.
      * specialize (IH (n + 0)%nat). lia.
      * rewrite length_map. specialize (IH (n + S (List.length ms))%nat). lia.
    + simpl. apply IH.
Qed.

End ExportPlan.

Section ExportPlanClaim.
Import Model Client Samples.

(** C3.  For a list of clips in which the duration of every included,
    ready clip without marks is a number (0, which a failed probe leaves,
    is one; NaN is not): the total
    duration that [showExportModal] reports is the sum, in list order, of
    the ranges of the plan, where an included ready clip with marks gives
    its marks, each of length out_point - in_point, an included ready clip
    without marks gives the one range of its full duration, and any other
    clip gives nothing; the number of ranges is the number of marks counted
    plus the number of markless ready clips; and an excluded or non-ready
    clip can be taken out of the list without changing the summary.  One
    ready included markless clip of duration 30 gives one range and 30
    seconds; the same clip with the marks 0-5 and 10-12 gives two ranges
    and 7 seconds, and the whole clip is no longer counted. *)
Theorem showExportModal_follows_plan :
  (forall clips : list Video,
      (forall c, In c clips -> included c = true ->
                 processing_status c = ready -> marks c = [] ->
                 PrimFloat.is_nan (duration c) = false) ->
      totalDuration (showExportModal clips) = Spec.planTotal clips /\
      List.length (Spec.planRanges clips) =
        (totalMarks (showExportModal clips)
         + List.length
             (filter (fun v => match marks v with [] => true | _ => false end)
                (readyVideos clips)))%nat) /\
  (forall (c : Video) (pre post : list Video),
      included c = false \/ processing_status c <> ready ->
      Spec.rangeLengths c = [] /\
      showExportModal (pre ++ c :: post) = showExportModal (pre ++ post)) /\
  (forall c : Video,
      included c = true -> processing_status c = ready ->
      duration c = 30%float -> marks c = [] ->
      Spec.planRanges [c] = [30%float] /\
      showExportModal [c] =
        {| readyCount := 1; totalMarks := 0; totalDuration := 30;
           markedOnly := false |}) /\
  (forall (c : Video) (m1 m2 : Mark),
      included c = true -> processing_status c = ready ->
      duration c = 30%float ->
      in_point m1 = 0%float -> out_point m1 = 5%float ->
      in_point m2 = 10%float -> out_point m2 = 12%float ->
      Spec.planRanges [withMarks c [m1; m2]] = [5%float; 2%float] /\
      showExportModal [withMarks c [m1; m2]] =
        {| readyCount := 1; totalMarks := 2; totalDuration := 7;
           markedOnly := true |}).
Proof.
  split; [| split; [| split]].
  - intros clips Hd. split.
    + unfold showExportModal, Spec.planTotal. simpl totalDuration.
      apply totalDuration_plan; [exact Hd | discriminate].
    + pose proof (totalMarks_count clips 0) as H.
      unfold showExportModal. simpl totalMarks. lia.
  - intros c pre post H. split.
    + apply rangeLengths_skipped. exact H.
    + unfold showExportModal. rewrite (readyVideos_skipped c pre post H).
      reflexivity.
  - intros c Hi Hs Hd Hm.
    unfold Spec.planRanges, Spec.rangeLengths, showExportModal, readyVideos,
      addDuration.
    simpl. rewrite Hi, Hs, Hm. simpl. rewrite Hm, Hd. simpl.
    split; reflexivity.
  - intros c m1 m2 Hi Hs Hd Hi1 Ho1 Hi2 Ho2.
    unfold Spec.planRanges, Spec.rangeLengths, showExportModal, readyVideos,
      addDuration, markLength.
    simpl. rewrite Hi, Hs. simpl. rewrite Hi1, Ho1, Hi2, Ho2.
    split; reflexivity.
Qed.

Lemma showExportModal_follows_plan_witness :
  (PrimFloat.is_nan (duration (clip "v1" 30 ready [])) = false /\
   PrimFloat.is_nan (duration (clip "v0" 0 ready [])) = false /\
   totalDuration
     (showExportModal [clip "v1" 30 ready []; clip "v0" 0 ready []])
     = Spec.planTotal [clip "v1" 30 ready []; clip "v0" 0 ready []]) /\
  (processing_status (clip "v2" 30 failed []) <> ready /\
   showExportModal ([clip "v1" 30 ready []] ++ clip "v2" 30 failed [] :: [])
     = showExportModal ([clip "v1" 30 ready []] ++ [])) /\
  showExportModal [clip "v1" 30 ready []] =
    {| readyCount := 1; totalMarks := 0; totalDuration := 30;
       markedOnly := false |} /\
  showExportModal
    [withMarks (clip "v1" 30 ready [])
       [Samples.mark "m1" "v1" 0 5; Samples.mark "m2" "v1" 10 12]] =
    {| readyCount := 1; totalMarks := 2; totalDuration := 7;
       markedOnly := true |}.
Proof.
  split; [| split; [| split]].
  - split; [reflexivity |]. split; [reflexivity |].
    apply (proj1 showExportModal_follows_plan
             [clip "v1" 30 ready []; clip "v0" 0 ready []]).
    intros c [<- | [<- | []]] _ _ _; reflexivity.
  - split; [discriminate |].
    apply (proj1 (proj2 showExportModal_follows_plan)
             (clip "v2" 30 failed []) [clip "v1" 30 ready []] []).
    right. discriminate.
  - apply (proj1 (proj2 (proj2 showExportModal_follows_plan))
             (clip "v1" 30 ready [])); reflexivity.
  - apply (proj2 (proj2 (proj2 showExportModal_follows_plan))
             (clip "v1" 30 ready [])
             (Samples.mark "m1" "v1" 0 5) (Samples.mark "m2" "v1" 10 12));
      reflexivity.
Defined.

End ExportPlanClaim.

(** ** Strings *)

Section StringFacts.

Lemma append_assoc (a b c : string) : ((a ++ b) ++ c = a ++ (b ++ c))%string.
Proof. induction a as [| x a IH]; simpl; [reflexivity | rewrite IH; reflexivity]. Qed.

Lemma append_nil_r (a : string) : (a ++ "" = a)%string.
Proof. induction a as [| x a IH]; simpl; [reflexivity | rewrite IH; reflexivity]. Qed.

End StringFacts.

(** ** The transcoder adapter *)

Section TranscoderFacts.
Import JsString Logger Transcoder.

Lemma proxy_settled_stays (outputPath : string) (events : list TimedEvent)
  (r : Run) (p : Settled) :
  promise r = Some p ->
  promise (fold_left (proxyStep outputPath) events r) = Some p.
Proof.
  revert r. induction events as [| [now ev] events IH]; intros r Hp.
  - exact Hp.
  - simpl fold_left. apply IH.
    destruct ev as [chunk | m | code]; simpl.
    + exact Hp.
    + rewrite Hp. reflexivity.
    + destruct (negb (isZero code)); simpl; rewrite Hp; reflexivity.
Qed.

Lemma thumbnail_settled_stays (outputPath : string) (events : list TimedEvent)
  (r : Run) (p : Settled) :
  promise r = Some p ->
  promise (fold_left (thumbnailStep outputPath) events r) = Some p.
Proof.
  revert r. induction events as [| [now ev] events IH]; intros r Hp.
  - exact Hp.
  - simpl fold_left. apply IH.
    destruct ev as [chunk | m | code]; simpl.
    + exact Hp.
    + rewrite Hp. reflexivity.
    + rewrite Hp. reflexivity.
Qed.

Lemma proxy_fold_promise (outputPath : string) (events : list TimedEvent)
  (r : Run) :
  promise r = None ->
  promise (fold_left (proxyStep outputPath) events r)
  = proxyOutcome outputPath (stderr r) events.
Proof.
  revert r. induction events as [| [now ev] events IH]; intros r Hp.
  - exact Hp.
  - simpl fold_left. destruct ev as [chunk | m | code].
    + rewrite IH by exact Hp. unfold proxyOutcome, firstSettling. simpl.
      rewrite append_assoc. reflexivity.
    + apply proxy_settled_stays. simpl. rewrite Hp. reflexivity.
    + unfold proxyOutcome, firstSettling. simpl find. simpl option_map.
      simpl stderrBefore.
      rewrite append_nil_r.
      destruct (isZero code) eqn:Ez;
        apply proxy_settled_stays; unfold proxyStep; try rewrite Ez; simpl;
        rewrite Hp; reflexivity.
Qed.

Lemma generateProxy_promise logs start inputPath outputPath events :
  promise (generateProxy logs start inputPath outputPath events)
  = proxyOutcome outputPath "" events.
Proof. unfold generateProxy. apply proxy_fold_promise. reflexivity. Qed.

Lemma generateProxy_rejects_on_failure logs start inputPath outputPath events :
  forall f, failureOf events = Some f ->
  exists error,
    promise (generateProxy logs start inputPath outputPath events)
    = Some (Reject error).
Proof.
  intros f Hf. rewrite generateProxy_promise.
  unfold failureOf in Hf. unfold proxyOutcome.
  destruct (firstSettling events) as [[chunk | m | code] |]; try discriminate.
  - eexists. reflexivity.
  - destruct (isZero code); [discriminate | eexists; reflexivity].
Qed.

End TranscoderFacts.

(** ** Sorting *)

Section SortFacts.
Import JsArray.
Local Open Scope Z_scope.

Context {A : Type} (cmp : A -> A -> Z).

Lemma insert_perm (x : A) (l : list A) : Permutation (insert cmp x l) (x :: l).
Proof.
  induction l as [| y l IH]; simpl.
  - apply Permutation_refl.
  - destruct (cmp x y >? 0).
    + apply Permutation_trans with (y :: x :: l).
      * apply perm_skip. exact IH.
      * apply perm_swap.
    + apply Permutation_refl.
Qed.

Lemma sort_perm (l : list A) : Permutation (sort cmp l) l.
Proof.
  induction l as [| x l IH]; simpl.
  - apply perm_nil.
  - apply Permutation_trans with (x :: sort cmp l).
    + apply insert_perm.
    + apply perm_skip. exact IH.
Qed.

Lemma sort_In (x : A) (l : list A) : In x (sort cmp l) <-> In x l.
Proof.
  split; apply Permutation_in;
    [apply sort_perm | apply Permutation_sym; apply sort_perm].
Qed.

Lemma insert_at_head (x : A) (l : list A) :
  HdRel (notAfter cmp) x l -> insert cmp x l = x :: l.
Proof.
  intros H. destruct H as [| y l Hxy]; simpl.
  - reflexivity.
  - unfold notAfter in Hxy.
    destruct (Z.gtb_spec (cmp x y) 0) as [Hgt | Hle]; [lia | reflexivity].
Qed.

Lemma sort_of_sorted (l : list A) : Sorted (notAfter cmp) l -> sort cmp l = l.
Proof.
  induction 1 as [| x l Hs IH Hhd]; simpl.
  - reflexivity.
  - rewrite IH. apply insert_at_head. exact Hhd.
Qed.

Hypothesis Hcmp : Consistent cmp.

Lemma cmp_total (a b : A) : 0 < cmp a b -> cmp b a <= 0.
Proof. intros H. apply (cmp_antisym cmp Hcmp) in H. lia. Qed.

Lemma cmp_equiv_sym (a b : A) : cmp a b = 0 -> cmp b a = 0.
Proof.
  intros H.
  pose proof (cmp_antisym cmp Hcmp a b) as H1.
  pose proof (cmp_antisym cmp Hcmp b a) as H2. lia.
Qed.

Lemma insert_sorted (x : A) (l : list A) :
  Sorted (notAfter cmp) l -> Sorted (notAfter cmp) (insert cmp x l).
Proof.
  induction 1 as [| y l Hs IH Hhd]; simpl.
  - repeat constructor.
  - destruct (Z.gtb_spec (cmp x y) 0) as [Hgt | Hle].
    + constructor; [exact IH |].
      destruct Hhd as [| z l Hyz]; simpl.
      * constructor. apply cmp_total. lia.
      * destruct (cmp x z >? 0); constructor;
          [exact Hyz | apply cmp_total; lia].
    + constructor; [constructor; assumption |].
      constructor. exact Hle.
Qed.

Lemma sort_sorted (l : list A) : Sorted (notAfter cmp) (sort cmp l).
Proof.
  induction l as [| x l IH]; simpl.
  - constructor.
  - apply insert_sorted. exact IH.
Qed.

Lemma sort_strongly_sorted (l : list A) : StronglySorted (notAfter cmp) (sort cmp l).
Proof.
  apply Sorted_StronglySorted.
  - intros a b c. apply (cmp_trans cmp Hcmp).
  - apply sort_sorted.
Qed.

Lemma sort_idempotent (l : list A) : sort cmp (sort cmp l) = sort cmp l.
Proof. apply sort_of_sorted. apply sort_sorted. Qed.

(** An element that is strictly before [x] is not equivalent to anything
    equivalent to [x]. *)
Lemma before_not_equiv (v x y : A) :
  cmp v x = 0 -> 0 < cmp x y -> (cmp v y =? 0) = false.
Proof.
  intros Hvx Hxy. apply Z.eqb_neq. intros Hvy.
  pose proof (cmp_equiv_sym v x Hvx) as Hxv.
  pose proof (cmp_trans cmp Hcmp x v y) as Ht. lia.
Qed.

Lemma filter_insert (v x : A) (l : list A) :
  filter (fun w => cmp v w =? 0) (insert cmp x l)
  = filter (fun w => cmp v w =? 0) (x :: l).
Proof.
  induction l as [| y l IH]; simpl.
  - reflexivity.
  - destruct (Z.gtb_spec (cmp x y) 0) as [Hgt | Hle].
    + simpl. rewrite IH. simpl.
      destruct (Z.eqb_spec (cmp v x) 0) as [Hvx | Hvx]; [| reflexivity].
      rewrite (before_not_equiv v x y Hvx) by lia. reflexivity.
    + reflexivity.
Qed.

(** Stability: the elements equivalent to [v] come out in the order in
    which they went in. *)
Lemma sort_stable (v : A) (l : list A) :
  filter (fun w => cmp v w =? 0) (sort cmp l)
  = filter (fun w => cmp v w =? 0) l.
Proof.
  induction l as [| x l IH]; simpl.
  - reflexivity.
  - rewrite filter_insert. simpl. rewrite IH. reflexivity.
Qed.

End SortFacts.

Section SortVideosClaim.
Import Model Client JsArray JsDate Samples.
Local Open Scope Z_scope.

Lemma consistent_ext {A : Type} (cmp cmp' : A -> A -> Z) :
  (forall a b, cmp a b = cmp' a b) -> Consistent cmp' -> Consistent cmp.
Proof.
  intros Heq [Ha Ht]. split.
  - intros a b. rewrite !Heq. apply Ha.
  - intros a b c. rewrite !Heq. apply Ht.
Qed.

Lemma consistent_by_key {A : Type} (key : A -> Z) :
  Consistent (fun a b => key a - key b).
Proof. split; intros; lia. Qed.

Lemma consistent_on {A B : Type} (f : A -> B) (cmp : B -> B -> Z) :
  Consistent cmp -> Consistent (fun a b => cmp (f a) (f b)).
Proof.
  intros [Ha Ht]. split.
  - intros a b. apply Ha.
  - intros a b c. apply Ht.
Qed.

Lemma comparator_consistent (localeCompare : list N -> list N -> Z)
  (sortMode : SortMode) :
  Consistent localeCompare -> Consistent (comparator localeCompare sortMode).
Proof.
  intros Hlc. destruct sortMode.
  - apply consistent_ext with
      (cmp' := fun a b =>
         sortCompareValue (getTime (getBestDate a))
         - sortCompareValue (getTime (getBestDate b))).
    + intros a b. unfold comparator, getBestDate, JsDate.sub.
      destruct (metadata_date a), (filename_date a),
        (metadata_date b), (filename_date b); reflexivity.
    + apply consistent_by_key.
  - apply consistent_ext with (cmp' := fun a b => upload_date a - upload_date b).
    + intros a b. reflexivity.
    + apply consistent_by_key.
  - apply (consistent_on original_filename localeCompare Hlc).
  - apply consistent_ext with
      (cmp' := fun a b => orZero (order_index a) - orZero (order_index b)).
    + intros a b. reflexivity.
    + apply consistent_by_key.
Qed.

(** C5.  With a consistent [localeCompare], in each of the four modes:
    the sorted list is a rearrangement of the list, in the order of the
    mode; the clips that compare equal to any given clip come out in the
    order in which they went in (the sort is stable); sorting the sorted
    list again under the same mode gives the same list, element for
    element; and a list that is already in order comes back unchanged. *)
Theorem sortVideos_stable_idempotent :
  forall localeCompare : list N -> list N -> Z,
    Consistent localeCompare ->
    forall (sortMode : SortMode) (videos : list Video),
      Permutation (sortVideos localeCompare sortMode videos) videos /\
      StronglySorted (notAfter (comparator localeCompare sortMode))
        (sortVideos localeCompare sortMode videos) /\
      (forall v : Video,
          filter (fun w => comparator localeCompare sortMode v w =? 0)
            (sortVideos localeCompare sortMode videos)
          = filter (fun w => comparator localeCompare sortMode v w =? 0)
              videos) /\
      sortVideos localeCompare sortMode
        (sortVideos localeCompare sortMode videos)
      = sortVideos localeCompare sortMode videos /\
      (Sorted (notAfter (comparator localeCompare sortMode)) videos ->
       sortVideos localeCompare sortMode videos = videos).
Proof.
  intros localeCompare Hlc sortMode videos.
  pose proof (comparator_consistent localeCompare sortMode Hlc) as Hc.
  unfold sortVideos. repeat split.
  - apply sort_perm.
  - apply sort_strongly_sorted. exact Hc.
  - intros v. apply sort_stable. exact Hc.
  - apply sort_idempotent. exact Hc.
  - apply sort_of_sorted.
Qed.

Lemma codeCompare_sign (a b : list N) : -1 <= codeCompare a b <= 1.
Proof.
  revert b. induction a as [| x a IH]; intros [| y b]; simpl; try lia.
  destruct (N.compare x y); try lia. apply IH.
Qed.

Lemma codeCompare_opp (a b : list N) : codeCompare b a = - codeCompare a b.
Proof.
  revert b. induction a as [| x a IH]; intros [| y b]; simpl; try reflexivity.
  rewrite (N.compare_antisym x y).
  destruct (N.compare x y); simpl; try reflexivity. apply IH.
Qed.

Lemma codeCompare_trans (a b c : list N) :
  codeCompare a b <= 0 -> codeCompare b c <= 0 -> codeCompare a c <= 0.
Proof.
  revert b c. induction a as [| x a IH]; intros [| y b] [| z c]; simpl;
    try lia.
  destruct (N.compare_spec x y) as [-> | Hxy | Hxy]; try lia;
    destruct (N.compare_spec y z) as [<- | Hyz | Hyz]; try lia; intros H1 H2.
  - exact (IH b c H1 H2).
  - rewrite (proj2 (N.compare_lt_iff x y) Hxy). lia.
  - rewrite (proj2 (N.compare_lt_iff x z) (N.lt_trans _ _ _ Hxy Hyz)). lia.
Qed.

Lemma codeCompare_consistent : Consistent codeCompare.
Proof.
  split.
  - intros a b. rewrite (codeCompare_opp a b). lia.
  - exact codeCompare_trans.
Qed.

Lemma sortVideos_stable_idempotent_witness :
  Consistent codeCompare /\
  sortVideos codeCompare smart
    [withDates None None 3000; withDates (Some 2000) (Some 1000) 9;
     withDates None (Some 2000) 5]
  = [withDates (Some 2000) (Some 1000) 9; withDates None (Some 2000) 5;
     withDates None None 3000] /\
  sortVideos codeCompare smart
    (sortVideos codeCompare smart
       [withDates None None 3000; withDates (Some 2000) (Some 1000) 9;
        withDates None (Some 2000) 5])
  = sortVideos codeCompare smart
      [withDates None None 3000; withDates (Some 2000) (Some 1000) 9;
       withDates None (Some 2000) 5].
Proof.
  split; [exact codeCompare_consistent |].
  split; [reflexivity |].
  exact (proj1 (proj2 (proj2 (proj2
    (sortVideos_stable_idempotent codeCompare codeCompare_consistent smart
       [withDates None None 3000; withDates (Some 2000) (Some 1000) 9;
        withDates None (Some 2000) 5]))))).
Defined.

End SortVideosClaim.

(** ** The processing pipeline *)

Section PipelineFacts.
Import JsString Logger Transcoder Model Server Client Samples.

Lemma markFailed_get (st : LocalStore) (videoId : string) (video : Video) :
  JsMap.get videoId (Server.videos st) = Some video ->
  JsMap.get videoId (Server.videos (markFailed st videoId))
  = Some (withStatus video failed).
Proof.
  intros Hget. unfold markFailed. rewrite Hget. simpl. apply get_set_same.
Qed.

Lemma markFailed_other (st : LocalStore) (videoId other : string) :
  videoId <> other ->
  JsMap.get other (Server.videos (markFailed st videoId))
  = JsMap.get other (Server.videos st).
Proof.
  intros Hne. unfold markFailed.
  destruct (JsMap.get videoId (Server.videos st)); [| reflexivity].
  simpl. apply get_set_other. exact Hne.
Qed.

Lemma not_ready_not_listed (v : Video) (clips : list Video) :
  processing_status v <> ready -> ~ In v (readyVideos clips).
Proof.
  intros Hs Hin. apply readyVideos_In in Hin. destruct Hin as [_ [Hr _]].
  contradiction.
Qed.

Lemma not_ready_not_exported (v : Video) (st : LocalStore) (projectId : string) :
  processing_status v <> ready -> ~ In v (exportVideos st projectId).
Proof.
  intros Hs Hin. unfold exportVideos in Hin.
  apply sort_In in Hin. apply filter_In in Hin. destruct Hin as [_ Hf].
  apply andb_true_iff in Hf. destruct Hf as [_ Hr].
  destruct (processing_status v); simpl in Hr; congruence.
Qed.

(** The upload handler creates the record without artifact locations and
    in status processing. *)
Lemma newVideo_fresh tza videoId projectId now uploadedBy file metadata video :
  newVideo tza videoId projectId now uploadedBy file metadata = Some video ->
  processing_status video = processing /\
  proxy_url video = None /\ thumbnail_url video = None /\
  Model.marks video = [] /\ included video = true.
Proof.
  unfold newVideo. intros H.
  destruct (Filename.parseFilenameDate tza (originalname file)) as [fd |];
    destruct (match metadata with Some m => creationTime m | None => None end)
      as [cd |];
    try (destruct (toISOString fd)); try (destruct (toISOString cd));
    try discriminate; injection H as <-; repeat split.
Qed.

(** C6.  Take a clip that is in the store without artifact locations (as
    the upload handler leaves it), and a run of [generateProxy] that
    fails, by a launch failure or by a non-zero exit.  Then
    [generateProxyLocally] ends normally (its promise is fulfilled, not
    rejected), the thumbnail step is never started, the clip is in the
    store with status failed and still without proxy and thumbnail
    locations, and, whatever marks the clip carries, it is not among the
    ready videos of any export summary, contributes no range to any plan
    and is not collected by the server's export. *)
Theorem failed_proxy_is_contained :
  forall (proxyDir thumbnailDir : string) (st : LocalStore)
         (memoryLogs0 : list LogEntry) (start videoId filePath projectId : string)
         (proxyEvents thumbEvents : list TimedEvent)
         (video : Video) (f : Failure),
    JsMap.get videoId (Server.videos st) = Some video ->
    proxy_url video = None ->
    thumbnail_url video = None ->
    failureOf proxyEvents = Some f ->
    let p := generateProxyLocally proxyDir thumbnailDir st memoryLogs0 start
               videoId filePath projectId proxyEvents thumbEvents in
    completion p = Fulfilled /\
    spawned p = [pathJoin proxyDir (videoId ++ ".mp4")] /\
    exists video',
      JsMap.get videoId (Server.videos (store p)) = Some video' /\
      processing_status video' = failed /\
      proxy_url video' = None /\
      thumbnail_url video' = None /\
      (forall (ms : list Mark) (clips : list Video),
          ~ In (withMarks video' ms) (readyVideos clips)) /\
      (forall ms : list Mark, Spec.rangeLengths (withMarks video' ms) = []) /\
      (forall (ms : list Mark) (st' : LocalStore) (pid : string),
          ~ In (withMarks video' ms) (exportVideos st' pid)).
Proof.
  intros proxyDir thumbnailDir st memoryLogs0 start videoId filePath projectId
    proxyEvents thumbEvents video f Hget Hproxy Hthumb Hfail p.
  destruct (generateProxy_rejects_on_failure memoryLogs0 start filePath
              (pathJoin proxyDir (videoId ++ ".mp4")) proxyEvents f Hfail)
    as [error Hrej].
  subst p. unfold generateProxyLocally. rewrite Hrej. simpl.
  split; [reflexivity |]. split; [reflexivity |].
  exists (withStatus video failed).
  split; [apply markFailed_get; exact Hget |].
  split; [reflexivity |].
  split; [exact Hproxy |].
  split; [exact Hthumb |].
  split; [| split].
  - intros ms clips. apply not_ready_not_listed. simpl. discriminate.
  - intros ms. apply rangeLengths_skipped. right. simpl. discriminate.
  - intros ms st' pid. apply not_ready_not_exported. simpl. discriminate.
Qed.

Lemma failed_proxy_is_contained_witness :
  JsMap.get "v1"
    (Server.videos
       {| projects := []; Server.videos := [("v1", clip "v1" 20 processing [])];
          Server.marks := [] |})
  = Some (clip "v1" 20 processing []) /\
  failureOf [("t1", StderrData "no such file"); ("t2", CloseEvent (Some 1%Z))]
  = Some (NonZeroExit (Some 1%Z)) /\
  completion
    (generateProxyLocally "proxies" "thumbnails"
       {| projects := []; Server.videos := [("v1", clip "v1" 20 processing [])];
          Server.marks := [] |}
       [] "t0" "v1" "uploads/1-a.mp4" "p1"
       [("t1", StderrData "no such file"); ("t2", CloseEvent (Some 1%Z))]
       [("t3", CloseEvent (Some 0%Z))])
  = Fulfilled.
Proof.
  split; [reflexivity |]. split; [reflexivity |].
  exact (proj1
    (failed_proxy_is_contained "proxies" "thumbnails"
       {| projects := []; Server.videos := [("v1", clip "v1" 20 processing [])];
          Server.marks := [] |}
       [] "t0" "v1" "uploads/1-a.mp4" "p1"
       [("t1", StderrData "no such file"); ("t2", CloseEvent (Some 1%Z))]
       [("t3", CloseEvent (Some 0%Z))]
       (clip "v1" 20 processing []) (NonZeroExit (Some 1%Z))
       eq_refl eq_refl eq_refl eq_refl)).
Defined.

End PipelineFacts.

(** ** Deleting a clip *)

Section DeleteVideo.
Import Model Server Samples.

(** In local mode the delete handler never touches the marks map. *)
Lemma deleteVideo_keeps_marks (st : LocalStore) (files : list string)
  (videoId : string) :
  Server.marks (fst (fst (deleteVideo st files videoId))) = Server.marks st.
Proof.
  unfold deleteVideo.
  destruct (JsMap.get videoId (Server.videos st)); reflexivity.
Qed.

Lemma deleteVideo_orphans (st : LocalStore) (files : list string)
  (videoId markId : string) (m : Mark) :
  JsMap.get markId (Server.marks st) = Some m ->
  video_id m = videoId ->
  JsMap.get markId (Server.marks (fst (fst (deleteVideo st files videoId))))
  = Some m.
Proof. intros Hm _. rewrite deleteVideo_keeps_marks. exact Hm. Qed.

(** In cloud mode the foreign key removes the marks with the clip. *)
Lemma cloud_deleteVideo_cascades (db : Cloud.Db) (videoId : string) (m : Mark) :
  In m (Cloud.markRows (Cloud.deleteVideo db videoId)) ->
  video_id m <> videoId.
Proof.
  unfold Cloud.deleteVideo. simpl. intros Hin.
  apply filter_In in Hin. destruct Hin as [_ Hne].
  apply negb_true_iff in Hne. apply String.eqb_neq. exact Hne.
Qed.

(** C7, at a store with one clip and one mark on it (local mode): after
    the clip is added, marked and deleted, the clip is gone and the mark
    it owned is still in the marks map. *)
Theorem deleteVideo_local_leaves_mark :
  let st1 := fst (addMark store20 "m1" "t" "v1" 5 10) in
  let st2 := fst (fst (deleteVideo st1 ["uploads/1-a.mp4"] "v1")) in
  JsMap.get "v1" (Server.videos st1) <> None /\
  option_map video_id (JsMap.get "m1" (Server.marks st1)) = Some "v1" /\
  JsMap.get "v1" (Server.videos st2) = None /\
  option_map video_id (JsMap.get "m1" (Server.marks st2)) = Some "v1" /\
  snd (fst (deleteVideo st1 ["uploads/1-a.mp4"] "v1")) = [] /\
  snd (deleteVideo st1 ["uploads/1-a.mp4"] "v1") = Json tt.
Proof.
  repeat split; try reflexivity. discriminate.
Qed.

End DeleteVideo.

(** ** Failure reports of the two transcoder calls *)

Section FailureReports.
Import JsString Logger Transcoder.

Lemma thumbnail_fold_quiet (outputPath : string) (events : list TimedEvent)
  (r : Run) :
  memoryLogs (fold_left (thumbnailStep outputPath) events r) = memoryLogs r /\
  stderr (fold_left (thumbnailStep outputPath) events r) = stderr r.
Proof.
  revert r. induction events as [| [now ev] events IH]; intros r.
  - split; reflexivity.
  - simpl fold_left. split.
    + rewrite (proj1 (IH _)). destruct ev; reflexivity.
    + rewrite (proj2 (IH _)). destruct ev; reflexivity.
Qed.

(** [generateThumbnail] writes nothing to the log and keeps nothing of
    the diagnostic stream, whatever the child process does. *)
Lemma generateThumbnail_quiet logs inputPath outputPath events :
  memoryLogs (generateThumbnail logs inputPath outputPath events) = logs /\
  stderr (generateThumbnail logs inputPath outputPath events) = "".
Proof. unfold generateThumbnail. apply thumbnail_fold_quiet. Qed.

Lemma thumbnail_fold_promise (outputPath : string) (events : list TimedEvent)
  (r : Run) :
  promise r = None ->
  promise (fold_left (thumbnailStep outputPath) events r)
  = match firstSettling events with
    | Some (ErrorEvent _) => Some (Reject "FFmpeg not found")
    | Some (CloseEvent code) =>
        if isZero code then Some (Resolve outputPath)
        else Some (Reject "Thumbnail generation failed")
    | _ => None
    end.
Proof.
  revert r. induction events as [| [now ev] events IH]; intros r Hp.
  - exact Hp.
  - simpl fold_left. destruct ev as [chunk | m | code].
    + rewrite IH by exact Hp. reflexivity.
    + apply thumbnail_settled_stays. simpl. rewrite Hp. reflexivity.
    + unfold firstSettling. simpl.
      destruct (isZero code) eqn:Ez; simpl;
        apply thumbnail_settled_stays; simpl; rewrite Hp; reflexivity.
Qed.

(** Both calls tell the two failures apart: a launch failure rejects with
    "FFmpeg not found", a non-zero exit with another message. *)
Lemma failures_are_told_apart logs start inputPath outputPath events :
  forall f, failureOf events = Some f ->
  match f with
  | LaunchFailure _ =>
      promise (generateProxy logs start inputPath outputPath events)
        = Some (Reject "FFmpeg not found") /\
      promise (generateThumbnail logs inputPath outputPath events)
        = Some (Reject "FFmpeg not found")
  | NonZeroExit _ =>
      promise (generateProxy logs start inputPath outputPath events)
        = Some (Reject ("Proxy generation failed: "
                        ++ lastLines (stderrBefore events))) /\
      promise (generateThumbnail logs inputPath outputPath events)
        = Some (Reject "Thumbnail generation failed")
  end.
Proof.
  intros f Hf. rewrite generateProxy_promise.
  unfold generateThumbnail. rewrite thumbnail_fold_promise by reflexivity.
  unfold failureOf in Hf. unfold proxyOutcome.
  destruct (firstSettling events) as [[chunk | m | code] |]; try discriminate.
  - injection Hf as <-. split; reflexivity.
  - destruct (isZero code); [discriminate |].
    injection Hf as <-. split; reflexivity.
Qed.

End FailureReports.

Section Diagnostics.
Import JsString Logger Transcoder Samples.

Lemma splitLines_not_nil (s : string) : splitLines s <> [].
Proof.
  destruct s as [| c s]; simpl; [discriminate |].
  destruct (Ascii.eqb c newline); [discriminate |].
  destruct (splitLines s); discriminate.
Qed.

(** Splitting at the line breaks and joining again gives the text back. *)
Lemma joinLines_splitLines (s : string) : joinLines (splitLines s) = s.
Proof.
  induction s as [| c s IH]; [reflexivity |].
  simpl splitLines.
  destruct (Ascii.eqb_spec c newline) as [-> | Hc].
  - pose proof (splitLines_not_nil s) as Hne.
    destruct (splitLines s) as [| l ls] eqn:E; [contradiction |].
    change (joinLines ("" :: l :: ls))
      with (("" ++ String newline (joinLines (l :: ls)))%string).
    rewrite IH. reflexivity.
  - pose proof (splitLines_not_nil s) as Hne.
    destruct (splitLines s) as [| l ls] eqn:E; [contradiction |].
    destruct ls as [| l' ls'].
    + simpl in *. rewrite IH. reflexivity.
    + change (joinLines (String c l :: l' :: ls'))
        with ((String c l ++ String newline (joinLines (l' :: ls')))%string).
      change (joinLines (l :: l' :: ls'))
        with ((l ++ String newline (joinLines (l' :: ls')))%string) in IH.
      rewrite <- IH. reflexivity.
Qed.

(** [sliceLast n] is the end of the list, [n] elements long when the list
    has that many. *)
Lemma sliceLast_suffix {A : Type} (n : nat) (xs : list A) :
  xs = firstn (List.length xs - n) xs ++ sliceLast n xs /\
  List.length (sliceLast n xs) = Nat.min n (List.length xs).
Proof.
  unfold sliceLast. split.
  - symmetry. apply firstn_skipn.
  - rewrite length_skipn. lia.
Qed.

Lemma proxy_fold_quiet (outputPath : string) (events : list TimedEvent)
  (r : Run) :
  forallb (fun e => negb (settles e)) events = true ->
  fold_left (proxyStep outputPath) events r
  = {| stderr := stderr r ++ stderrBefore events;
       promise := promise r; memoryLogs := memoryLogs r |}.
Proof.
  revert r. induction events as [| [now ev] events IH]; intros r Hq.
  - simpl. rewrite append_nil_r. destruct r; reflexivity.
  - simpl in Hq. apply andb_true_iff in Hq. destruct Hq as [Hev Hq].
    destruct ev as [chunk | m | code]; try discriminate.
    simpl fold_left. rewrite IH by exact Hq. simpl.
    rewrite append_assoc. reflexivity.
Qed.

(** When [generateProxy] sees the child process end with a code other
    than 0, it writes an error entry that carries the last ten lines of
    what the process wrote to its diagnostic stream. *)
Lemma generateProxy_logs_diagnostics logs start inputPath outputPath
  (chunks : list TimedEvent) (now : string) (code : option Z) :
  forallb (fun e => negb (settles e)) chunks = true ->
  isZero code = false ->
  memoryLogs (generateProxy logs start inputPath outputPath
                (chunks ++ [(now, CloseEvent code)]))
  = log (log logs start
           ("🎬 FFmpeg Start: " ++ inputPath ++ " -> " ++ outputPath) "info")
      now
      ("❌ FFmpeg Failed (code " ++ codeText code ++ "):"
       ++ String newline (lastLines (stderrBefore chunks)))
      "error".
Proof.
  intros Hq Hz. unfold generateProxy.
  rewrite fold_left_app.
  rewrite (proxy_fold_quiet outputPath chunks _ Hq).
  simpl. rewrite Hz. reflexivity.
Qed.

(** C9, at a run that writes two lines of diagnostics and ends with exit
    code 1.  [generateThumbnail] rejects with the fixed text "Thumbnail
    generation failed", logs nothing and keeps nothing of the diagnostic
    stream, while [generateProxy], on the same run, puts the lines in its
    error and in the log.  (The rejection differs from the one of a launch
    failure, "FFmpeg not found", in both.) *)
Theorem generateThumbnail_keeps_no_diagnostics :
  failureOf failingRun = Some (NonZeroExit (Some 1%Z)) /\
  generateThumbnail [] "in.mov" "out.jpg" failingRun
  = {| stderr := "";
       promise := Some (Reject "Thumbnail generation failed");
       memoryLogs := [] |} /\
  promise (generateProxy [] "t0" "in.mov" "out.mp4" failingRun)
  = Some (Reject ("Proxy generation failed: moov atom not found"
                  ++ String newline "Invalid data found")) /\
  hd_error (memoryLogs (generateProxy [] "t0" "in.mov" "out.mp4" failingRun))
  = Some {| timestamp := "t2"; type := "error";
            message := "❌ FFmpeg Failed (code 1):"
                       ++ String newline
                            ("moov atom not found"
                             ++ String newline "Invalid data found") |} /\
  promise (generateThumbnail [] "in.mov" "out.jpg"
             [("t1", ErrorEvent "spawn ffmpeg ENOENT")])
  = Some (Reject "FFmpeg not found").
Proof. repeat split. Qed.

End Diagnostics.

(** ** Patterns *)

Section RegexFacts.
Import JsString Regex.

Lemma takeRep_atoms (ic : bool) (a : atom) (n : nat) (rest : list atom)
  (s : list N) :
  atomsMatch ic (repeat a n ++ rest) s
  = match takeRep ic a n s with
    | Some (_, r) => atomsMatch ic rest r
    | None => false
    end.
Proof.
  revert s. induction n as [| n IH]; intros s.
  - reflexivity.
  - simpl. destruct s as [| c s]; [reflexivity |].
    destruct (atomMatches ic a c); [| reflexivity].
    simpl. rewrite IH.
    destruct (takeRep ic a n s) as [[m r] |]; reflexivity.
Qed.

(** A pattern matches at the start of a text exactly when its atoms
    match the first characters one by one. *)
Lemma matchHere_atoms (ic : bool) (ns : list node) (s : list N) :
  match matchHere ic ns s with Some _ => true | None => false end
  = atomsMatch ic (atomsOf ns) s.
Proof.
  revert s. induction ns as [| n ns IH]; intros s.
  - reflexivity.
  - unfold atomsOf. simpl flat_map. fold (atomsOf ns).
    destruct n as [a | k a | k a].
    + change (atomsOfNode (One a)) with (repeat a 1).
      rewrite takeRep_atoms.
      change (matchHere ic (One a :: ns) s)
        with (match takeRep ic a 1 s with
              | Some (_, r) => matchHere ic ns r
              | None => None
              end).
      destruct (takeRep ic a 1 s) as [[m r] |]; [apply IH | reflexivity].
    + change (atomsOfNode (Rep k a)) with (repeat a k).
      rewrite takeRep_atoms.
      change (matchHere ic (Rep k a :: ns) s)
        with (match takeRep ic a k s with
              | Some (_, r) => matchHere ic ns r
              | None => None
              end).
      destruct (takeRep ic a k s) as [[m r] |]; [apply IH | reflexivity].
    + change (atomsOfNode (Cap k a)) with (repeat a k).
      rewrite takeRep_atoms.
      change (matchHere ic (Cap k a :: ns) s)
        with (match takeRep ic a k s with
              | Some (m, r) => option_map (cons m) (matchHere ic ns r)
              | None => None
              end).
      destruct (takeRep ic a k s) as [[m r] |]; [| reflexivity].
      rewrite <- IH. destruct (matchHere ic ns r); reflexivity.
Qed.

End RegexFacts.

(** ** Upper case *)

Section CaseFacts.
Import JsString Regex.
Local Open Scope N_scope.

Lemma eqb_eq (a b : list N) : JsString.eqb a b = true <-> a = b.
Proof.
  revert b. induction a as [| x a IH]; intros [| y b]; simpl;
    try (split; discriminate); [split; reflexivity |].
  rewrite andb_true_iff, N.eqb_eq, IH. split.
  - intros [-> ->]. reflexivity.
  - intros [= -> ->]. split; reflexivity.
Qed.

Lemma below_128 (c : N) : c < 128 -> In c (map N.of_nat (seq 0 128)).
Proof.
  intros H. apply in_map_iff. exists (N.to_nat c).
  split; [apply N2Nat.id | apply in_seq; lia].
Qed.

Lemma capital_high (c : N) : 128 <= c -> Spec.capital c = c.
Proof.
  intros H. unfold Spec.capital.
  destruct (N.leb_spec c 122); [lia |]. rewrite andb_false_r. reflexivity.
Qed.

Lemma capital_below (c : N) : c < 128 -> Spec.capital c < 128.
Proof.
  intros H. unfold Spec.capital.
  destruct ((97 <=? c) && (c <=? 122)); lia.
Qed.

(** Below 128 the upper-case form is the capital letter, for
    [toUppercase] and for [Canonicalize]. *)
Lemma toUppercase_ascii (c : N) : c < 128 -> toUppercase c = [Spec.capital c].
Proof.
  assert (H : forallb (fun c => JsString.eqb (toUppercase c) [Spec.capital c])
                (map N.of_nat (seq 0 128)) = true)
    by (vm_compute; reflexivity).
  intros Hc. rewrite forallb_forall in H.
  apply eqb_eq. apply H. apply below_128. exact Hc.
Qed.

Lemma Canonicalize_ascii (c : N) : c < 128 -> Canonicalize c = Spec.capital c.
Proof.
  assert (H : forallb (fun c => Canonicalize c =? Spec.capital c)
                (map N.of_nat (seq 0 128)) = true)
    by (vm_compute; reflexivity).
  intros Hc. rewrite forallb_forall in H.
  apply N.eqb_eq. apply H. apply below_128. exact Hc.
Qed.

Lemma Canonicalize_high (c : N) : 128 <= c -> 128 <= Canonicalize c.
Proof.
  intros H. unfold Canonicalize.
  destruct (CodePointsToString (toUppercase c)) as [| cu [| ? ?]];
    try exact H.
  destruct (N.leb_spec 128 c); [| lia]. simpl andb.
  destruct (N.ltb_spec cu 128); [exact H | assumption].
Qed.

(** From 128 on, and apart from the seventeen code points of
    [upperHasAscii], no upper-case form starts below 128: read off the two
    tables. *)
Lemma simpleUpper_high (cp : N) :
  128 <= cp -> ~ In cp upperHasAscii -> 128 <= simpleUpper cp.
Proof.
  assert (Htab : forallb
                   (fun run : N * N * N * N =>
                      let '(first, last, step, image) := run in
                      (last <? 128) || (128 <=? image)
                      || ((first =? last)
                          && existsb (N.eqb first) upperHasAscii))
                   simpleUppercase = true)
    by (vm_compute; reflexivity).
  intros Hcp Hno. unfold simpleUpper.
  destruct (find (inRun cp) simpleUppercase)
    as [[[[first last] step] image] |] eqn:E; [| exact Hcp].
  apply find_some in E. destruct E as [Hin Hrun].
  rewrite forallb_forall in Htab. specialize (Htab _ Hin).
  cbv beta iota zeta in Htab.
  unfold inRun in Hrun.
  apply andb_true_iff in Hrun. destruct Hrun as [Hrun _].
  apply andb_true_iff in Hrun. destruct Hrun as [H1 H2].
  apply N.leb_le in H1. apply N.leb_le in H2.
  apply orb_true_iff in Htab. destruct Htab as [Htab | Htab].
  - apply orb_true_iff in Htab. destruct Htab as [Hl | Hi].
    + apply N.ltb_lt in Hl. lia.
    + apply N.leb_le in Hi. lia.
  - apply andb_true_iff in Htab. destruct Htab as [Heq Hex].
    apply N.eqb_eq in Heq. exfalso. apply Hno.
    assert (Hc : cp = first) by lia. subst cp.
    apply existsb_exists in Hex. destruct Hex as [x [Hx Hxe]].
    apply N.eqb_eq in Hxe. subst x. exact Hx.
Qed.

Lemma toUppercase_high (cp : N) :
  128 <= cp -> ~ In cp upperHasAscii ->
  exists u rest, toUppercase cp = u :: rest /\ 128 <= u.
Proof.
  assert (Htab : forallb
                   (fun entry : N * list N =>
                      existsb (N.eqb (fst entry)) upperHasAscii
                      || match snd entry with
                         | u :: _ => 128 <=? u
                         | [] => false
                         end)
                   specialUppercase = true)
    by (vm_compute; reflexivity).
  intros Hcp Hno. unfold toUppercase.
  destruct (find (fun entry => fst entry =? cp) specialUppercase)
    as [[k upper] |] eqn:E.
  - apply find_some in E. destruct E as [Hin Hk]. simpl in Hk.
    apply N.eqb_eq in Hk. subst k.
    rewrite forallb_forall in Htab. specialize (Htab _ Hin).
    cbn [fst snd] in Htab.
    apply orb_true_iff in Htab. destruct Htab as [Hex | Hu].
    + exfalso. apply Hno.
      apply existsb_exists in Hex. destruct Hex as [x [Hx Hxe]].
      apply N.eqb_eq in Hxe. subst x. exact Hx.
    + destruct upper as [| u rest]; [discriminate |].
      exists u, rest. split; [reflexivity | apply N.leb_le; exact Hu].
  - exists (simpleUpper cp), []. split; [reflexivity |].
    apply simpleUpper_high; assumption.
Qed.

Lemma UTF16EncodeCodePoint_high (u : N) :
  128 <= u -> exists v rest, UTF16EncodeCodePoint u = v :: rest /\ 128 <= v.
Proof.
  intros H. unfold UTF16EncodeCodePoint.
  destruct (u <=? 0xFFFF); eexists _, _; (split; [reflexivity |]);
    [exact H |].
  apply N.le_trans with 0xD800; [discriminate | apply N.le_add_l].
Qed.

Lemma StringToCodePoints_head (c : N) (s : list N) :
  exists cp cps,
    StringToCodePoints (c :: s) = cp :: cps /\ (cp = c \/ 0x10000 <= cp).
Proof.
  destruct s as [| c2 s'].
  - exists c, []. split; [reflexivity | left; reflexivity].
  - change (StringToCodePoints (c :: c2 :: s'))
      with (if isLeadingSurrogate c && isTrailingSurrogate c2
            then ((c - 0xD800) * 0x400 + (c2 - 0xDC00) + 0x10000)
                 :: StringToCodePoints s'
            else c :: StringToCodePoints (c2 :: s')).
    destruct (isLeadingSurrogate c && isTrailingSurrogate c2);
      eexists _, _; (split; [reflexivity |]); [right; lia | left; reflexivity].
Qed.

Lemma StringToCodePoints_plain (c : N) (s : list N) :
  isLeadingSurrogate c = false ->
  StringToCodePoints (c :: s) = c :: StringToCodePoints s.
Proof.
  intros H. destruct s as [| c2 s']; [reflexivity |].
  change (StringToCodePoints (c :: c2 :: s'))
    with (if isLeadingSurrogate c && isTrailingSurrogate c2
          then ((c - 0xD800) * 0x400 + (c2 - 0xDC00) + 0x10000)
               :: StringToCodePoints s'
          else c :: StringToCodePoints (c2 :: s')).
  rewrite H. reflexivity.
Qed.

(** [toUpperCase] works character by character. *)
Lemma toUpperCase_plain_head (c : N) (s : list N) :
  isLeadingSurrogate c = false ->
  toUpperCase (c :: s) = CodePointsToString (toUppercase c) ++ toUpperCase s.
Proof.
  intros H. unfold toUpperCase. rewrite (StringToCodePoints_plain c s H).
  simpl flat_map. unfold CodePointsToString. apply flat_map_app.
Qed.

Lemma below_surrogates (c : N) : c < 0xD800 -> isLeadingSurrogate c = false.
Proof.
  intros H. unfold isLeadingSurrogate.
  destruct (N.leb_spec 0xD800 c); [lia | reflexivity].
Qed.

(** [toUpperCase] on the first character of a text: a character below
    128 gives its capital and the rest follows; any other character, apart
    from the seventeen, gives something that starts from 128 on. *)
Lemma toUpperCase_ascii_head (c : N) (s : list N) :
  c < 128 -> toUpperCase (c :: s) = Spec.capital c :: toUpperCase s.
Proof.
  intros H. rewrite toUpperCase_plain_head by (apply below_surrogates; lia).
  rewrite (toUppercase_ascii c H).
  unfold CodePointsToString. simpl flat_map.
  unfold UTF16EncodeCodePoint.
  pose proof (capital_below c H) as Hb.
  destruct (N.leb_spec (Spec.capital c) 0xFFFF); [reflexivity | lia].
Qed.

Lemma toUpperCase_high_head (c : N) (s : list N) :
  128 <= c -> ~ In c upperHasAscii ->
  exists u rest, toUpperCase (c :: s) = u :: rest /\ 128 <= u.
Proof.
  intros Hc Hno.
  assert (Hbmp : Forall (fun x => x < 0x10000) upperHasAscii)
    by (repeat (constructor; [reflexivity |]); constructor).
  destruct (StringToCodePoints_head c s) as [cp [cps [Heq Hcp]]].
  assert (Hcp' : 128 <= cp /\ ~ In cp upperHasAscii).
  { destruct Hcp as [-> | Hbig]; [split; assumption |].
    split; [lia |]. intros Hin.
    rewrite Forall_forall in Hbmp. specialize (Hbmp _ Hin). lia. }
  destruct (toUppercase_high cp (proj1 Hcp') (proj2 Hcp'))
    as [u [rest [Hu Hu128]]].
  destruct (UTF16EncodeCodePoint_high u Hu128) as [v [rest' [Hv Hv128]]].
  unfold toUpperCase. rewrite Heq. simpl flat_map. rewrite Hu.
  unfold CodePointsToString. simpl flat_map. rewrite Hv.
  eexists _, _. split; [reflexivity | exact Hv128].
Qed.

End CaseFacts.

(** ** Device conventions *)

Section SourceFacts.
Import JsString Regex Filename.
Local Open Scope N_scope.

Lemma upperFixed_capital (x : N) :
  Spec.upperFixed x = true -> x < 128 /\ Spec.capital x = x.
Proof.
  unfold Spec.upperFixed, Spec.capital. intros H.
  apply andb_true_iff in H. destruct H as [H1 H2].
  apply N.ltb_lt in H1. apply negb_true_iff in H2. rewrite H2.
  split; [exact H1 | reflexivity].
Qed.

Lemma capital_digit (c : N) : isDigit (Spec.capital c) = true <-> 48 <= c <= 57.
Proof.
  unfold isDigit, Spec.capital. rewrite andb_true_iff, !N.leb_le.
  destruct (N.leb_spec 97 c), (N.leb_spec c 122); simpl; lia.
Qed.

(** On the capital of a character, an atom in capitals accepts what its
    slot accepts without regard to case. *)
Lemma atom_fits (a : atom) (c : N) :
  Spec.upperAtom a = true ->
  atomMatches false a (Spec.capital c) = true <-> Spec.fits (Spec.slotOf a) c.
Proof.
  intros Hu. destruct a as [x | | cs]; simpl in *.
  - unfold Spec.sameLetter.
    rewrite (proj2 (upperFixed_capital x Hu)). apply N.eqb_eq.
  - apply capital_digit.
  - rewrite existsb_exists. rewrite forallb_forall in Hu.
    unfold Spec.sameLetter.
    split; intros [x [Hin Hx]]; exists x; split; try assumption.
    + apply N.eqb_eq in Hx.
      rewrite (proj2 (upperFixed_capital x (Hu x Hin))). exact Hx.
    + apply N.eqb_eq.
      rewrite (proj2 (upperFixed_capital x (Hu x Hin))) in Hx. exact Hx.
Qed.

Lemma atomsMatch_follows (atoms : list atom) (filename : list N) :
  forallb Spec.upperAtom atoms = true ->
  atomsMatch false atoms (map Spec.capital filename) = true
  <-> Spec.follows (map Spec.slotOf atoms) filename.
Proof.
  revert filename. induction atoms as [| a atoms IH]; intros filename Hu.
  - simpl. split; [| reflexivity].
    intros _. exists [], filename. split; [reflexivity | constructor].
  - simpl in Hu. apply andb_true_iff in Hu. destruct Hu as [Ha Hu].
    destruct filename as [| c filename]; simpl.
    + split; [discriminate |].
      intros [pre [rest [Heq Hf]]].
      destruct pre; [inversion Hf | discriminate].
    + rewrite andb_true_iff, (atom_fits a c Ha), (IH filename Hu).
      split.
      * intros [Hc [pre [rest [Heq Hf]]]].
        exists (c :: pre), rest. split.
        -- simpl. rewrite Heq. reflexivity.
        -- constructor; assumption.
      * intros [pre [rest [Heq Hf]]].
        destruct pre as [| c' pre]; [inversion Hf |].
        simpl in Heq. injection Heq as <- Heq.
        inversion Hf; subst.
        split; [assumption |].
        exists pre, rest. split; [reflexivity | assumption].
Qed.

(** An atom in capitals accepts nothing from 128 on. *)
Lemma atom_rejects_high (a : atom) (u : N) :
  Spec.upperAtom a = true -> 128 <= u -> atomMatches false a u = false.
Proof.
  intros Hu H. destruct a as [x | | cs]; simpl in *.
  - destruct (upperFixed_capital x Hu) as [Hx _]. apply N.eqb_neq. lia.
  - unfold isDigit. destruct (N.leb_spec u 57); [lia |]. apply andb_false_r.
  - destruct (existsb (fun x => u =? x) cs) eqn:E; [| reflexivity].
    apply existsb_exists in E. destruct E as [x [Hin Hx]].
    apply N.eqb_eq in Hx. subst x.
    rewrite forallb_forall in Hu.
    destruct (upperFixed_capital u (Hu u Hin)) as [Hlt _]. lia.
Qed.

Lemma rejects_sound (atoms : list atom) (e rest : list N) :
  Spec.rejects atoms e = true -> atomsMatch false atoms (e ++ rest) = false.
Proof.
  revert e. induction atoms as [| a atoms IH]; intros [| u e] H; simpl in *;
    try discriminate.
  apply orb_true_iff in H. destruct H as [H | H].
  - apply negb_true_iff in H. rewrite H. reflexivity.
  - rewrite (IH e H). apply andb_false_r.
Qed.

Lemma upperHasAscii_cases (c : N) :
  In c upperHasAscii -> c = 0x131 \/ c = 0x1E9A \/ In c Spec.harmless.
Proof.
  intros H. simpl in H.
  repeat (destruct H as [<- | H]; [simpl; tauto |]). destruct H.
Qed.

Lemma harmless_facts (c : N) :
  In c Spec.harmless ->
  isLeadingSurrogate c = false /\ Spec.readAs c = c.
Proof.
  assert (H : forallb (fun c => negb (isLeadingSurrogate c)
                                && (Spec.readAs c =? c))
                Spec.harmless = true) by reflexivity.
  intros Hin. rewrite forallb_forall in H. specialize (H c Hin).
  apply andb_true_iff in H. destruct H as [H1 H2].
  apply negb_true_iff in H1. apply N.eqb_eq in H2. split; assumption.
Qed.

Lemma readAs_other (c : N) : ~ In c upperHasAscii -> Spec.readAs c = c.
Proof.
  intros H. unfold Spec.readAs.
  destruct (N.eqb_spec c 0x131) as [-> |]; [exfalso; apply H; simpl; tauto |].
  destruct (N.eqb_spec c 0x1E9A) as [-> |]; [exfalso; apply H; simpl; tauto |].
  reflexivity.
Qed.

Lemma readAs_ascii (c : N) : c < 128 -> Spec.readAs c = c.
Proof.
  intros H. unfold Spec.readAs.
  destruct (N.eqb_spec c 0x131); [lia |].
  destruct (N.eqb_spec c 0x1E9A); [lia |]. reflexivity.
Qed.

Lemma asRead_plain (filename : list N) :
  Spec.plainName filename = true -> Spec.asRead filename = filename.
Proof.
  unfold Spec.plainName, Spec.asRead.
  induction filename as [| c filename IH]; intros H; [reflexivity |].
  cbn [forallb] in H. apply andb_true_iff in H. destruct H as [Hc H].
  apply negb_true_iff, orb_false_iff in Hc. destruct Hc as [H1 H2].
  cbn [map]. unfold Spec.readAs at 1. rewrite H1, H2, (IH H). reflexivity.
Qed.

Lemma wellPlaced_upper (atoms : list atom) :
  Spec.wellPlaced atoms = true -> forallb Spec.upperAtom atoms = true.
Proof.
  induction atoms as [| a atoms IH]; intros H; [reflexivity |].
  cbn [Spec.wellPlaced] in H.
  apply andb_true_iff in H. destruct H as [H Hrest].
  apply andb_true_iff in H. destruct H as [H _].
  apply andb_true_iff in H. destruct H as [Ha _].
  cbn [forallb]. rewrite Ha, (IH Hrest). reflexivity.
Qed.

(** What atoms in capitals, placed as those of [detectVideoSource] are,
    see in the upper-cased name is what they see in the name as read, with
    every small letter [a] to [z] made a capital. *)
Lemma atomsMatch_toUpperCase (atoms : list atom) (s : list N) :
  Spec.wellPlaced atoms = true ->
  atomsMatch false atoms (toUpperCase s)
  = atomsMatch false atoms (map Spec.capital (Spec.asRead s)).
Proof.
  revert s. induction atoms as [| a atoms IH]; intros s Hw; [reflexivity |].
  destruct s as [| c s]; [reflexivity |].
  cbn [Spec.wellPlaced] in Hw.
  apply andb_true_iff in Hw. destruct Hw as [Hw Hrest].
  apply andb_true_iff in Hw. destruct Hw as [Hw Hharm].
  apply andb_true_iff in Hw. destruct Hw as [Ha HA].
  unfold Spec.asRead. cbn [map]. fold (Spec.asRead s).
  destruct (N.lt_ge_cases c 128) as [Hlt | Hge].
  - rewrite (toUpperCase_ascii_head c s Hlt), (readAs_ascii c Hlt).
    cbn [atomsMatch]. rewrite (IH s Hrest). reflexivity.
  - destruct (in_dec N.eq_dec c upperHasAscii) as [Hin | Hno].
    + destruct (upperHasAscii_cases c Hin) as [-> | [-> | Hh]].
      * rewrite toUpperCase_plain_head by reflexivity.
        change (CodePointsToString (toUppercase 0x131)) with [0x49].
        change (Spec.capital (Spec.readAs 0x131)) with 0x49.
        cbn [app atomsMatch]. rewrite (IH s Hrest). reflexivity.
      * rewrite toUpperCase_plain_head by reflexivity.
        change (CodePointsToString (toUppercase 0x1E9A)) with [0x41; 0x2BE].
        change (Spec.capital (Spec.readAs 0x1E9A)) with 0x41.
        cbn [app atomsMatch].
        destruct (atomMatches false a 0x41) eqn:EA; [| reflexivity].
        simpl in HA. destruct atoms as [| a' atoms']; [reflexivity | discriminate].
      * destruct (harmless_facts c Hh) as [Hsur Hread].
        rewrite toUpperCase_plain_head by exact Hsur.
        rewrite forallb_forall in Hharm. specialize (Hharm c Hh).
        rewrite (rejects_sound _ _ _ Hharm).
        rewrite Hread, (capital_high c Hge). cbn [atomsMatch].
        rewrite (atom_rejects_high a c Ha Hge). reflexivity.
    + destruct (toUpperCase_high_head c s Hge Hno) as [u [rest [-> Hu128]]].
      rewrite (readAs_other c Hno), (capital_high c Hge). cbn [atomsMatch].
      rewrite (atom_rejects_high a u Ha Hu128), (atom_rejects_high a c Ha Hge).
      reflexivity.
Qed.

(** Each test of [detectVideoSource], made on the upper-cased name,
    decides whether the name as read follows the convention. *)
Lemma test_follows (re : regex) (filename : list N) :
  anchored re = true -> ignoreCase re = false ->
  Spec.wellPlaced (atomsOf (nodes re)) = true ->
  test re (toUpperCase filename) = true
  <-> Spec.follows (map Spec.slotOf (atomsOf (nodes re))) (Spec.asRead filename).
Proof.
  intros Ha Hi Hw. unfold test, matchRe. rewrite Ha, Hi.
  rewrite matchHere_atoms, (atomsMatch_toUpperCase _ _ Hw).
  apply atomsMatch_follows. apply wellPlaced_upper. exact Hw.
Qed.

Lemma android_follows filename :
  test reAndroid (toUpperCase filename) = true
  <-> Spec.follows (snd (nth 0 Spec.conventions (other, [])))
        (Spec.asRead filename).
Proof. apply (test_follows reAndroid); reflexivity. Qed.

Lemma iphone_follows filename :
  test reIphone (toUpperCase filename) = true
  <-> Spec.follows (snd (nth 1 Spec.conventions (other, [])))
        (Spec.asRead filename).
Proof. apply (test_follows reIphone); reflexivity. Qed.

Lemma gopro_follows filename :
  test reGopro (toUpperCase filename) = true
  <-> Spec.follows (snd (nth 2 Spec.conventions (other, [])))
        (Spec.asRead filename).
Proof. apply (test_follows reGopro); reflexivity. Qed.

Lemma dji_follows filename :
  test reDji (toUpperCase filename) = true
  <-> Spec.follows (snd (nth 3 Spec.conventions (other, [])))
        (Spec.asRead filename).
Proof. apply (test_follows reDji); reflexivity. Qed.

Lemma whatsapp_follows filename :
  test reWhatsapp (toUpperCase filename) = true
  <-> Spec.follows (snd (nth 4 Spec.conventions (other, [])))
        (Spec.asRead filename).
Proof. apply (test_follows reWhatsapp); reflexivity. Qed.

(** Whether a name follows one of the five conventions can be computed. *)
Lemma follows_decided (re : regex) (filename : list N) :
  forallb Spec.upperAtom (atomsOf (nodes re)) = true ->
  atomsMatch false (atomsOf (nodes re)) (map Spec.capital filename) = false ->
  ~ Spec.follows (map Spec.slotOf (atomsOf (nodes re))) filename.
Proof.
  intros Hu Hm Hf. apply (atomsMatch_follows _ _ Hu) in Hf. congruence.
Qed.

Lemma follows_none (filename : list N) :
  forallb (fun re => negb (atomsMatch false (atomsOf (nodes re))
                             (map Spec.capital filename)))
    [reAndroid; reIphone; reGopro; reDji; reWhatsapp] = true ->
  forall c, In c Spec.conventions -> ~ Spec.follows (snd c) filename.
Proof.
  intros H c Hin. simpl in H.
  repeat (apply andb_true_iff in H; destruct H as [?H H]).
  repeat match goal with
         | Hn : negb _ = true |- _ => apply negb_true_iff in Hn
         end.
  destruct Hin as [<- | [<- | [<- | [<- | [<- | []]]]]].
  - apply (follows_decided reAndroid); [reflexivity | assumption].
  - apply (follows_decided reIphone); [reflexivity | assumption].
  - apply (follows_decided reGopro); [reflexivity | assumption].
  - apply (follows_decided reDji); [reflexivity | assumption].
  - apply (follows_decided reWhatsapp); [reflexivity | assumption].
Qed.

End SourceFacts.

Section SourceClaim.
Import JsString Regex Filename Samples.

Lemma decided_false (b : bool) (P : Prop) : (b = true <-> P) -> ~ P -> b = false.
Proof. intros H Hn. destruct b; [exfalso; apply Hn, H; reflexivity | reflexivity]. Qed.

Lemma decided_not (b : bool) (P : Prop) : (b = true <-> P) -> b = false -> ~ P.
Proof. intros H Hb HP. apply H in HP. congruence. Qed.

(** C8, where it fails.  The name [ımg_1234.mov], whose first character
    is a dotless i (U+0131), follows none of the five conventions, letters
    taken without regard to case, and [detectVideoSource] does not return
    other for it but iphone: [toUpperCase] turns the dotless i into the
    capital I.  In the same way [vıd-20230704-wa0001.mp4] follows no
    convention and is classified as whatsapp. *)
Lemma detectVideoSource_takes_dotless_i_for_capital_I :
  (forall c, In c Spec.conventions -> ~ Spec.follows (snd c) dotlessImg) /\
  detectVideoSource dotlessImg = iphone /\
  (forall c, In c Spec.conventions -> ~ Spec.follows (snd c) dotlessVid) /\
  detectVideoSource dotlessVid = whatsapp.
Proof.
  split; [apply follows_none; vm_compute; reflexivity |].
  split; [vm_compute; reflexivity |].
  split; [apply follows_none; vm_compute; reflexivity |].
  vm_compute; reflexivity.
Qed.

(** C8, as the code has it.  [detectVideoSource] reads a dotless i
    (U+0131) as i and an a with right half ring (U+1E9A) as a, the two
    characters that [toUpperCase] turns into a letter of a convention.  For
    every filename it returns the category of the first convention of the
    ordered list that the filename so read follows (letters taken without
    regard to case), and it returns other exactly when the filename so
    read follows none of them.  A filename without these two characters is
    read as it is. *)
Theorem detectVideoSource_first_convention :
  forall filename : list N,
    (forall pre cat conv post,
        Spec.conventions = pre ++ (cat, conv) :: post ->
        Spec.follows conv (Spec.asRead filename) ->
        (forall c, In c pre -> ~ Spec.follows (snd c) (Spec.asRead filename)) ->
        detectVideoSource filename = cat) /\
    (detectVideoSource filename = other <->
     forall c, In c Spec.conventions ->
               ~ Spec.follows (snd c) (Spec.asRead filename)) /\
    (Spec.plainName filename = true -> Spec.asRead filename = filename).
Proof.
  intros filename.
  pose proof (android_follows filename) as H1.
  pose proof (iphone_follows filename) as H2.
  pose proof (gopro_follows filename) as H3.
  pose proof (dji_follows filename) as H4.
  pose proof (whatsapp_follows filename) as H5.
  split; [| split; [| apply asRead_plain]].
  - intros pre cat conv post Heq Hf Hnot.
    unfold detectVideoSource.
    destruct pre as [| p1 pre]; simpl in Heq.
    { injection Heq as <- <- _. apply H1 in Hf. rewrite Hf. reflexivity. }
    injection Heq as <- Heq.
    rewrite (decided_false _ _ H1 (Hnot _ (or_introl eq_refl))).
    destruct pre as [| p2 pre]; simpl in Heq.
    { injection Heq as <- <- _. apply H2 in Hf. rewrite Hf. reflexivity. }
    injection Heq as <- Heq.
    rewrite (decided_false _ _ H2 (Hnot _ (or_intror (or_introl eq_refl)))).
    destruct pre as [| p3 pre]; simpl in Heq.
    { injection Heq as <- <- _. apply H3 in Hf. rewrite Hf. reflexivity. }
    injection Heq as <- Heq.
    rewrite (decided_false _ _ H3
               (Hnot _ (or_intror (or_intror (or_introl eq_refl))))).
    destruct pre as [| p4 pre]; simpl in Heq.
    { injection Heq as <- <- _. apply H4 in Hf. rewrite Hf. reflexivity. }
    injection Heq as <- Heq.
    rewrite (decided_false _ _ H4
               (Hnot _ (or_intror (or_intror (or_intror (or_introl eq_refl)))))).
    destruct pre as [| p5 pre]; simpl in Heq.
    { injection Heq as <- <- _. apply H5 in Hf. rewrite Hf. reflexivity. }
    injection Heq as _ Heq. destruct pre; discriminate Heq.
  - unfold detectVideoSource. split.
    + intros Hother c Hin.
      destruct (test reAndroid (toUpperCase filename)) eqn:E1; [discriminate |].
      destruct (test reIphone (toUpperCase filename)) eqn:E2; [discriminate |].
      destruct (test reGopro (toUpperCase filename)) eqn:E3; [discriminate |].
      destruct (test reDji (toUpperCase filename)) eqn:E4; [discriminate |].
      destruct (test reWhatsapp (toUpperCase filename)) eqn:E5; [discriminate |].
      simpl in Hin.
      destruct Hin as [<- | [<- | [<- | [<- | [<- | []]]]]].
      * exact (decided_not _ _ H1 eq_refl).
      * exact (decided_not _ _ H2 eq_refl).
      * exact (decided_not _ _ H3 eq_refl).
      * exact (decided_not _ _ H4 eq_refl).
      * exact (decided_not _ _ H5 eq_refl).
    + intros Hnone.
      rewrite (decided_false _ _ H1 (Hnone _ (or_introl eq_refl))).
      rewrite (decided_false _ _ H2 (Hnone _ (or_intror (or_introl eq_refl)))).
      rewrite (decided_false _ _ H3
                 (Hnone _ (or_intror (or_intror (or_introl eq_refl))))).
      rewrite (decided_false _ _ H4
                 (Hnone _ (or_intror (or_intror (or_intror (or_introl eq_refl)))))).
      rewrite (decided_false _ _ H5
                 (Hnone _ (or_intror (or_intror (or_intror
                    (or_intror (or_introl eq_refl))))))).
      reflexivity.
Qed.

End SourceClaim.

Section SourceWitness.
Import JsString Regex Filename Samples.

Lemma detectVideoSource_first_convention_witness :
  (Spec.plainName (str "gx010001.mp4") = true /\
   Spec.follows (snd (nth 2 Spec.conventions (other, []))) (str "gx010001.mp4") /\
   (forall c, In c (firstn 2 Spec.conventions) ->
              ~ Spec.follows (snd c) (str "gx010001.mp4")) /\
   detectVideoSource (str "gx010001.mp4") = gopro) /\
  (Spec.asRead dotlessImg = str "img_1234.mov" /\
   Spec.follows (snd (nth 1 Spec.conventions (other, []))) (Spec.asRead dotlessImg) /\
   detectVideoSource dotlessImg = iphone).
Proof.
  split.
  - assert (Hf : Spec.follows (snd (nth 2 Spec.conventions (other, [])))
                   (Spec.asRead (str "gx010001.mp4")))
      by (apply gopro_follows; reflexivity).
    assert (Hn : forall c, In c (firstn 2 Spec.conventions) ->
                           ~ Spec.follows (snd c) (Spec.asRead (str "gx010001.mp4"))).
    { intros c [<- | [<- | []]].
      - exact (decided_not _ _ (android_follows (str "gx010001.mp4")) eq_refl).
      - exact (decided_not _ _ (iphone_follows (str "gx010001.mp4")) eq_refl). }
    split; [reflexivity |]. split; [exact Hf |]. split; [exact Hn |].
    exact (proj1 (detectVideoSource_first_convention (str "gx010001.mp4"))
             (firstn 2 Spec.conventions) gopro
             (snd (nth 2 Spec.conventions (other, [])))
             (skipn 3 Spec.conventions) eq_refl Hf Hn).
  - assert (Hf : Spec.follows (snd (nth 1 Spec.conventions (other, [])))
                   (Spec.asRead dotlessImg))
      by (apply iphone_follows; reflexivity).
    assert (Hn : forall c, In c (firstn 1 Spec.conventions) ->
                           ~ Spec.follows (snd c) (Spec.asRead dotlessImg)).
    { intros c [<- | []].
      exact (decided_not _ _ (android_follows dotlessImg) eq_refl). }
    split; [reflexivity |]. split; [exact Hf |].
    exact (proj1 (detectVideoSource_first_convention dotlessImg)
             (firstn 1 Spec.conventions) iphone
             (snd (nth 1 Spec.conventions (other, [])))
             (skipn 2 Spec.conventions) eq_refl Hf Hn).
Defined.

End SourceWitness.

(** ** Dates in filenames *)

Section DigitFacts.
Import JsString.
Local Open Scope Z_scope.

Lemma digitValue_range (c : N) :
  isDigit c = true -> 0 <= digitValue c <= 9.
Proof.
  unfold isDigit, digitValue. intros H.
  apply andb_true_iff in H. destruct H as [H1 H2].
  apply N.leb_le in H1. apply N.leb_le in H2. lia.
Qed.

Lemma digitsPrefix_digits (m : list N) :
  allDigits m = true ->
  forall (acc : Z) (seen : bool),
    0 <= acc -> seen = true \/ m <> [] ->
    exists v, digitsPrefix m acc seen = Some v /\
              0 <= v < (acc + 1) * 10 ^ Z.of_nat (List.length m).
Proof.
  induction m as [| c m IH]; intros Hd acc seen Hacc Hs.
  - destruct Hs as [-> | Hne]; [| congruence].
    exists acc. simpl. split; [reflexivity | lia].
  - simpl in Hd. apply andb_true_iff in Hd. destruct Hd as [Hc Hd].
    pose proof (digitValue_range c Hc) as Hv.
    simpl digitsPrefix. rewrite Hc.
    destruct (IH Hd (10 * acc + digitValue c) true) as [v [Hv1 Hv2]];
      [lia | left; reflexivity |].
    exists v. split; [exact Hv1 |].
    change (List.length (c :: m)) with (S (List.length m)).
    rewrite Nat2Z.inj_succ, Z.pow_succ_r by lia.
    assert (Hp : 0 < 10 ^ Z.of_nat (List.length m))
      by (apply Z.pow_pos_nonneg; lia).
    nia.
Qed.

Lemma digit_not_space (c : N) : isDigit c = true -> isWhiteSpace c = false.
Proof.
  unfold isDigit. intros H. apply andb_true_iff in H. destruct H as [H1 H2].
  apply N.leb_le in H1. apply N.leb_le in H2.
  unfold isWhiteSpace, whiteSpace. cbn [existsb].
  repeat match goal with
         | |- context [N.eqb c ?k] =>
             destruct (N.eqb_spec c k) as [Heq | _]; [exfalso; lia |]
         end.
  reflexivity.
Qed.

(** [parseInt] of a run of [n] digits is a number below 10^n. *)
Lemma parseInt_digits (m : list N) (n : nat) :
  allDigits m = true -> List.length m = S n ->
  exists v, parseInt m = Some v /\ 0 <= v < 10 ^ Z.of_nat (S n).
Proof.
  intros Hd Hlen.
  destruct m as [| c m]; [discriminate |].
  assert (Hc : isDigit c = true)
    by (simpl in Hd; apply andb_true_iff in Hd; tauto).
  destruct (digitsPrefix_digits (c :: m) Hd 0 false) as [v [Hv1 Hv2]];
    [lia | right; discriminate |].
  exists v. rewrite Hlen in Hv2. split; [| lia].
  unfold parseInt. cbn [trimStart]. rewrite (digit_not_space c Hc).
  rewrite <- Hv1.
  unfold isDigit in Hc. apply andb_true_iff in Hc. destruct Hc as [H1 H2].
  apply N.leb_le in H1. apply N.leb_le in H2.
  destruct (N.eqb_spec c 45) as [Heq | _]; [exfalso; lia |].
  destruct (N.eqb_spec c 43) as [Heq | _]; [exfalso; lia |].
  reflexivity.
Qed.

End DigitFacts.

Section DateFacts.
Import JsString Regex JsDate Filename.
Local Open Scope Z_scope.

Lemma DaysBeforeMonth_range (leap : bool) (m : Z) :
  0 <= DaysBeforeMonth leap m <= 335.
Proof.
  unfold DaysBeforeMonth. destruct leap;
    repeat match goal with
           | |- context [match ?x with _ => _ end] => destruct x
           end; lia.
Qed.

(** With components in the ranges that two and four digits allow, and a
    time zone offset of at most a day, the constructor never gives an
    invalid date: it normalises, it does not reject. *)
Lemma newDate_valid (tza : Z -> Z) (y m d h mi s : Z) :
  (forall t, Z.abs (tza t) <= msPerDay) ->
  0 <= y < 10000 -> -1 <= m < 99 -> 0 <= d < 100 ->
  0 <= h < 100 -> 0 <= mi < 100 -> 0 <= s < 100 ->
  exists t,
    getTime (newDate tza (Some y) (Some m) (Some d) (Some h) (Some mi) (Some s))
    = Some t.
Proof.
  intros Htz Hy Hm Hd Hh Hmi Hs.
  unfold newDate, TimeClip. simpl getTime.
  set (local := MakeDate (MakeDay (MakeFullYear y) m d) (MakeTime h mi s 0)).
  assert (Hl : Z.abs local <= 8000000000000000).
  { subst local. unfold MakeDate, MakeDay, MakeTime, MakeFullYear, DayFromYear,
      msPerDay.
    pose proof (DaysBeforeMonth_range
                  (InLeapYear ((if (0 <=? y) && (y <=? 99) then 1900 + y else y)
                               + m / 12)) (m mod 12)) as Hb.
    set (dbm := DaysBeforeMonth _ _) in *.
    destruct ((0 <=? y) && (y <=? 99)) eqn:E.
    - apply andb_true_iff in E. destruct E as [E1 E2].
      apply Z.leb_le in E1. apply Z.leb_le in E2.
      Z.div_mod_to_equations. lia.
    - Z.div_mod_to_equations. lia. }
  pose proof (Htz local) as Ht. unfold msPerDay in Ht.
  unfold UTC, maxTime.
  destruct (Z.gtb_spec (Z.abs (local - tza local)) 8640000000000000) as [Hgt | Hle].
  - lia.
  - eexists. reflexivity.
Qed.

Lemma takeRep_digits (ic : bool) (n : nat) (s m r : list N) :
  takeRep ic Dgt n s = Some (m, r) ->
  List.length m = n /\ allDigits m = true.
Proof.
  revert s m r. induction n as [| n IH]; intros s m r H; simpl in H.
  - injection H as <- <-. split; reflexivity.
  - destruct s as [| c s]; [discriminate |].
    destruct (isDigit c) eqn:Hc; [| discriminate].
    destruct (takeRep ic Dgt n s) as [[m' r'] |] eqn:E; [| discriminate].
    injection H as <- <-. destruct (IH _ _ _ E) as [Hl Hd].
    simpl. rewrite Hl, Hc, Hd. split; reflexivity.
Qed.

Lemma matchHere_groups (ic : bool) (ns : list node) (s : list N)
  (caps : list (list N)) :
  capturesDigits ns = true ->
  matchHere ic ns s = Some caps ->
  Forall2 digitRun (groupSizes ns) caps.
Proof.
  revert s caps. induction ns as [| n ns IH]; intros s caps Hc H.
  - simpl in H. injection H as <-. constructor.
  - simpl in Hc. apply andb_true_iff in Hc. destruct Hc as [Hn Hc].
    destruct n as [a | k a | k a].
    + change (matchHere ic (One a :: ns) s)
        with (match takeRep ic a 1 s with
              | Some (_, r) => matchHere ic ns r
              | None => None
              end) in H.
      destruct (takeRep ic a 1 s) as [[m r] |]; [| discriminate].
      exact (IH r caps Hc H).
    + change (matchHere ic (Rep k a :: ns) s)
        with (match takeRep ic a k s with
              | Some (_, r) => matchHere ic ns r
              | None => None
              end) in H.
      destruct (takeRep ic a k s) as [[m r] |]; [| discriminate].
      exact (IH r caps Hc H).
    + change (matchHere ic (Cap k a :: ns) s)
        with (match takeRep ic a k s with
              | Some (m, r) => option_map (cons m) (matchHere ic ns r)
              | None => None
              end) in H.
      destruct k as [| k]; [discriminate |].
      destruct a; try discriminate.
      destruct (takeRep ic Dgt (S k) s) as [[m r] |] eqn:E; [| discriminate].
      destruct (matchHere ic ns r) as [caps' |] eqn:E'; [| discriminate].
      injection H as <-.
      change (groupSizes (Cap (S k) Dgt :: ns)) with (S k :: groupSizes ns).
      constructor.
      * destruct (takeRep_digits _ _ _ _ _ E) as [Hl Hd].
        repeat split; [exact Hl | exact Hd | discriminate].
      * exact (IH r caps' Hc E').
Qed.

Lemma matchRe_groups (re : regex) (s : list N) (caps : list (list N)) :
  capturesDigits (nodes re) = true ->
  matchRe re s = Some caps ->
  Forall2 digitRun (groupSizes (nodes re)) caps.
Proof.
  intros Hc. unfold matchRe. destruct (anchored re).
  - apply matchHere_groups. exact Hc.
  - induction s as [| c s IH]; simpl.
    + destruct (matchHere (ignoreCase re) (nodes re) []) as [caps' |] eqn:E;
        [| discriminate].
      intros [= <-]. exact (matchHere_groups _ _ _ _ Hc E).
    + destruct (matchHere (ignoreCase re) (nodes re) (c :: s))
        as [caps' |] eqn:E.
      * intros [= <-]. exact (matchHere_groups _ _ _ _ Hc E).
      * exact IH.
Qed.

End DateFacts.

Section FilenameDateFacts.
Import JsString Regex JsDate Filename.
Local Open Scope Z_scope.

Lemma digitRun_parseInt (k : nat) (text : list N) :
  digitRun k text ->
  exists v, parseInt text = Some v /\ 0 <= v < 10 ^ Z.of_nat k.
Proof.
  intros [Hl [Hd Hk]]. destruct k as [| k]; [congruence |].
  apply parseInt_digits; assumption.
Qed.

Lemma dateOfMatch_valid (tza : Z -> Z) (sizes : list nat)
  (caps : list (list N)) :
  boundedOffset tza ->
  Forall2 digitRun sizes caps ->
  sizes = [4; 2; 2; 2; 2; 2]%nat \/ sizes = [4; 2; 2]%nat ->
  exists t, getTime (dateOfMatch tza caps) = Some t.
Proof.
  intros Htz Hf [-> | ->].
  - inversion Hf as [| ? c1 ? l1 H1 Hf1]; subst.
    inversion Hf1 as [| ? c2 ? l2 H2 Hf2]; subst.
    inversion Hf2 as [| ? c3 ? l3 H3 Hf3]; subst.
    inversion Hf3 as [| ? c4 ? l4 H4 Hf4]; subst.
    inversion Hf4 as [| ? c5 ? l5 H5 Hf5]; subst.
    inversion Hf5 as [| ? c6 ? l6 H6 Hf6]; subst.
    inversion Hf6; subst.
    destruct (digitRun_parseInt _ _ H1) as [v1 [E1 B1]].
    destruct (digitRun_parseInt _ _ H2) as [v2 [E2 B2]].
    destruct (digitRun_parseInt _ _ H3) as [v3 [E3 B3]].
    destruct (digitRun_parseInt _ _ H4) as [v4 [E4 B4]].
    destruct (digitRun_parseInt _ _ H5) as [v5 [E5 B5]].
    destruct (digitRun_parseInt _ _ H6) as [v6 [E6 B6]].
    unfold dateOfMatch, group. cbn [nth_error nth]. cbv beta zeta.
    rewrite E1, E2, E3, E4, E5, E6. cbn [option_map].
    change (10 ^ Z.of_nat 4) with 10000 in B1.
    change (10 ^ Z.of_nat 2) with 100 in B2, B3, B4, B5, B6.
    apply newDate_valid; try assumption; lia.
  - inversion Hf as [| ? c1 ? l1 H1 Hf1]; subst.
    inversion Hf1 as [| ? c2 ? l2 H2 Hf2]; subst.
    inversion Hf2 as [| ? c3 ? l3 H3 Hf3]; subst.
    inversion Hf3; subst.
    destruct (digitRun_parseInt _ _ H1) as [v1 [E1 B1]].
    destruct (digitRun_parseInt _ _ H2) as [v2 [E2 B2]].
    destruct (digitRun_parseInt _ _ H3) as [v3 [E3 B3]].
    unfold dateOfMatch, group. cbn [nth_error nth]. cbv beta zeta.
    rewrite E1, E2, E3. cbn [option_map].
    change (parseInt (str "00")) with (Some 0).
    change (10 ^ Z.of_nat 4) with 10000 in B1.
    change (10 ^ Z.of_nat 2) with 100 in B2, B3.
    apply newDate_valid; try assumption; lia.
Qed.

(** Whatever one of the five patterns matches gives a valid date: the
    test [!isNaN(date.getTime())] never fails. *)
Lemma pattern_match_valid (tza : Z -> Z) (p : regex) (filename : list N)
  (caps : list (list N)) :
  boundedOffset tza -> In p patterns ->
  matchRe p filename = Some caps ->
  exists t, getTime (dateOfMatch tza caps) = Some t.
Proof.
  intros Htz Hin Hm.
  assert (Hp : capturesDigits (nodes p) = true /\
               (groupSizes (nodes p) = [4; 2; 2; 2; 2; 2]%nat \/
                groupSizes (nodes p) = [4; 2; 2]%nat)).
  { simpl in Hin.
    destruct Hin as [<- | [<- | [<- | [<- | [<- | []]]]]];
      (split; [reflexivity | (left; reflexivity) || (right; reflexivity)]). }
  destruct Hp as [Hc Hs].
  exact (dateOfMatch_valid tza _ caps Htz (matchRe_groups p filename caps Hc Hm) Hs).
Qed.

Lemma tryPatterns_first_match (tza : Z -> Z) (filename : list N)
  (pre : list regex) (p : regex) (post : list regex) (caps : list (list N)) :
  boundedOffset tza -> In p patterns ->
  (forall q, In q pre -> matchRe q filename = None) ->
  matchRe p filename = Some caps ->
  tryPatterns tza (pre ++ p :: post) filename = Some (dateOfMatch tza caps).
Proof.
  intros Htz Hin Hpre Hm. induction pre as [| q pre IH]; simpl.
  - rewrite Hm.
    destruct (pattern_match_valid tza p filename caps Htz Hin Hm) as [t Ht].
    rewrite Ht. reflexivity.
  - rewrite (Hpre q (or_introl eq_refl)). apply IH.
    intros q' Hq'. apply Hpre. right. exact Hq'.
Qed.

Lemma tryPatterns_none (tza : Z -> Z) (filename : list N) (ps : list regex) :
  boundedOffset tza -> (forall p, In p ps -> In p patterns) ->
  tryPatterns tza ps filename = None <->
  forall p, In p ps -> matchRe p filename = None.
Proof.
  intros Htz Hsub. induction ps as [| p ps IH]; simpl.
  - split; [intros _ p [] | reflexivity].
  - assert (Hsub' : forall q, In q ps -> In q patterns)
      by (intros q Hq; apply Hsub; right; exact Hq).
    destruct (matchRe p filename) as [caps |] eqn:Hm.
    + destruct (pattern_match_valid tza p filename caps Htz
                  (Hsub p (or_introl eq_refl)) Hm) as [t Ht].
      rewrite Ht. simpl. split; [discriminate |].
      intros H. specialize (H p (or_introl eq_refl)). congruence.
    + rewrite (IH Hsub'). split.
      * intros H q [<- | Hq]; [exact Hm | exact (H q Hq)].
      * intros H q Hq. apply H. right. exact Hq.
Qed.

(** [parseFilenameDate] returns [null] exactly when none of the five
    patterns matches; when one matches, the first that does decides, and
    its digits are never refused. *)
Lemma parseFilenameDate_null_iff_no_match (tza : Z -> Z) (filename : list N) :
  boundedOffset tza ->
  parseFilenameDate tza filename = None <->
  forall p, In p patterns -> matchRe p filename = None.
Proof.
  intros Htz. unfold parseFilenameDate.
  apply tryPatterns_none; [exact Htz | auto].
Qed.

End FilenameDateFacts.

Section FilenameDateClaim.
Import JsString Regex JsDate Filename.
Local Open Scope Z_scope.

(** C2, at the filename VID_20230230_120000.mp4 on a host in UTC.  The
    first pattern matches and captures 2023, 02, 30, 12, 00, 00; the
    result is not absent but the date 2 March 2023, 12:00:00
    (1677758400000 ms), the same as for VID_20230302_120000.mp4.  In the
    same way month 13 of 2023 comes out as January 2024. *)
Theorem parseFilenameDate_accepts_february_30 :
  matchRe (nth 0 patterns {| anchored := false; ignoreCase := false; nodes := [] |})
    (str "VID_20230230_120000.mp4")
  = Some (map str ["2023"; "02"; "30"; "12"; "00"; "00"]%string) /\
  parseFilenameDate (fun _ => 0) (str "VID_20230230_120000.mp4")
  = Some (mkDate (Some 1677758400000)) /\
  parseFilenameDate (fun _ => 0) (str "VID_20230302_120000.mp4")
  = Some (mkDate (Some 1677758400000)) /\
  parseFilenameDate (fun _ => 0) (str "VID_20231301_000000.mp4")
  = Some (mkDate (Some 1704067200000)) /\
  parseFilenameDate (fun _ => 0) (str "VID_20240101_000000.mp4")
  = Some (mkDate (Some 1704067200000)).
Proof. repeat split; vm_compute; reflexivity. Qed.

End FilenameDateClaim.

(** ** Stores reached by requests *)

Section StoreInvariant.
Import Logger Transcoder Model Server Session.

Lemma set_keys_In {V : Type} (k k' : string) (v : V) (m : list (string * V)) :
  In k' (map fst (JsMap.set k v m)) -> k' = k \/ In k' (map fst m).
Proof.
  induction m as [| [k0 v0] m IH]; simpl.
  - intros [<- | []]. left. reflexivity.
  - destruct (String.eqb_spec k k0) as [-> | Hne]; simpl.
    + intros [<- | H]; [right; left; reflexivity | right; right; exact H].
    + intros [<- | H]; [right; left; reflexivity |].
      destruct (IH H) as [-> | H']; [left; reflexivity | right; right; exact H'].
Qed.

Lemma set_keyed {V : Type} (key : V -> string) (k : string) (v : V)
  (m : list (string * V)) :
  key v = k -> keyed key m -> keyed key (JsMap.set k v m).
Proof.
  intros Hk [Hnd Hall]. revert Hnd Hall.
  induction m as [| [k0 v0] m IH]; simpl; intros Hnd Hall.
  - split.
    + constructor; [intros [] | constructor].
    + constructor; [exact Hk | constructor].
  - apply NoDup_cons_iff in Hnd. destruct Hnd as [Hnot Hnd'].
    apply Forall_cons_iff in Hall. destruct Hall as [Hk0 Hall'].
    simpl in Hk0.
    destruct (String.eqb_spec k k0) as [Heq | Hne].
    + split.
      * simpl. rewrite Heq. constructor; assumption.
      * constructor; [exact Hk | exact Hall'].
    + destruct (IH Hnd' Hall') as [Hnd2 Hall2]. split.
      * simpl. constructor; [| exact Hnd2].
        intros Hin. apply set_keys_In in Hin.
        destruct Hin as [Hin | Hin]; [congruence | exact (Hnot Hin)].
      * constructor; [exact Hk0 | exact Hall2].
Qed.

Lemma delete_keys_In {V : Type} (k k' : string) (m : list (string * V)) :
  In k' (map fst (JsMap.delete k m)) -> In k' (map fst m).
Proof.
  induction m as [| [k0 v0] m IH]; simpl; [tauto |].
  destruct (String.eqb k k0); simpl.
  - intros H. right. exact H.
  - intros [<- | H]; [left; reflexivity | right; exact (IH H)].
Qed.

Lemma delete_keyed {V : Type} (key : V -> string) (k : string)
  (m : list (string * V)) :
  keyed key m -> keyed key (JsMap.delete k m).
Proof.
  intros [Hnd Hall]. revert Hnd Hall.
  induction m as [| [k0 v0] m IH]; simpl; intros Hnd Hall.
  - split; constructor.
  - apply NoDup_cons_iff in Hnd. destruct Hnd as [Hnot Hnd'].
    apply Forall_cons_iff in Hall. destruct Hall as [Hk0 Hall'].
    destruct (String.eqb k k0).
    + split; assumption.
    + destruct (IH Hnd' Hall') as [Hnd2 Hall2]. split.
      * simpl. constructor; [| exact Hnd2].
        intros Hin. apply Hnot. exact (delete_keys_In _ _ _ Hin).
      * constructor; [exact Hk0 | exact Hall2].
Qed.

Lemma map_values_keyed {V : Type} (key : V -> string) (f : V -> V)
  (m : list (string * V)) :
  (forall v, key (f v) = key v) ->
  keyed key m ->
  keyed key (map (fun kv : string * V => (fst kv, f (snd kv))) m).
Proof.
  intros Hf [Hnd Hall]. split.
  - rewrite map_map. simpl. exact Hnd.
  - apply Forall_map. simpl.
    apply (Forall_impl _ (P := fun kv => key (snd kv) = fst kv)); [| exact Hall].
    intros [k v] H. simpl in *. rewrite Hf. exact H.
Qed.

Lemma get_In_pair {V : Type} (k : string) (v : V) (m : list (string * V)) :
  JsMap.get k m = Some v -> In (k, v) m.
Proof.
  induction m as [| [k0 v0] m IH]; simpl; [discriminate |].
  destruct (String.eqb_spec k k0) as [-> | Hne].
  - intros [= ->]. left. reflexivity.
  - intros H. right. exact (IH H).
Qed.

Lemma keyed_get {V : Type} (key : V -> string) (k : string) (v : V)
  (m : list (string * V)) :
  keyed key m -> JsMap.get k m = Some v -> key v = k.
Proof.
  intros [_ Hall] Hget. apply get_In_pair in Hget.
  rewrite Forall_forall in Hall. exact (Hall _ Hget).
Qed.

Lemma values_set_Forall {V : Type} (P : V -> Prop) (k : string) (v : V)
  (m : list (string * V)) :
  P v -> Forall P (JsMap.values m) -> Forall P (JsMap.values (JsMap.set k v m)).
Proof.
  intros Hv Hall. rewrite Forall_forall in *. intros x Hx.
  apply values_set_In in Hx. destruct Hx as [-> | Hx]; [exact Hv | exact (Hall x Hx)].
Qed.

Lemma values_delete_Forall {V : Type} (P : V -> Prop) (k : string)
  (m : list (string * V)) :
  Forall P (JsMap.values m) -> Forall P (JsMap.values (JsMap.delete k m)).
Proof.
  unfold JsMap.values. induction m as [| [k0 v0] m IH]; simpl; intros H.
  - constructor.
  - inversion H; subst. destruct (String.eqb k k0); simpl.
    + assumption.
    + constructor; [assumption | apply IH; assumption].
Qed.

Lemma orZeroF_not_nan (x : float) : PrimFloat.is_nan (orZeroF x) = false.
Proof.
  unfold orZeroF, truthy.
  destruct (PrimFloat.eqb x 0); simpl; [reflexivity |].
  destruct (PrimFloat.is_nan x) eqn:E; simpl; [reflexivity | exact E].
Qed.

Lemma newVideo_wellFormed tza videoId projectId now uploadedBy file metadata video :
  newVideo tza videoId projectId now uploadedBy file metadata = Some video ->
  id video = videoId /\ wellFormed video.
Proof.
  intros H.
  assert (Hd : PrimFloat.is_nan
                 (match metadata with
                  | Some m => orZeroF (m_duration m)
                  | None => 0%float
                  end) = false)
    by (destruct metadata; [apply orZeroF_not_nan | reflexivity]).
  unfold newVideo in H.
  destruct (Filename.parseFilenameDate tza (originalname file)) as [fd |];
    destruct (match metadata with Some m => creationTime m | None => None end)
      as [cd |];
    try (destruct (toISOString fd)); try (destruct (toISOString cd));
    try discriminate; injection H as <-;
    (split; [reflexivity |]);
    (split; simpl; [discriminate | exact Hd | reflexivity | reflexivity
                   | discriminate | intros m []]).
Qed.

Lemma withStatus_failed_wellFormed (video : Video) :
  wellFormed video -> wellFormed (withStatus video failed).
Proof.
  intros [H1 H2 H3 H4 H5 H6]. split; simpl; try assumption; discriminate.
Qed.

Lemma ready_wellFormed (video : Video) (videoId : string) :
  id video = videoId -> wellFormed video ->
  wellFormed (withArtifacts (withStatus video ready)
                ("/proxies/" ++ (videoId ++ ".mp4"))
                ("/thumbnails/" ++ (videoId ++ ".jpg"))).
Proof.
  intros Hid [H1 H2 H3 H4 H5 H6]. split; simpl; try assumption.
  - discriminate.
  - intros _. rewrite Hid. split; reflexivity.
Qed.

Lemma withMarks_wellFormed (video : Video) (ms : list Mark) :
  wellFormed video ->
  (forall m, In m ms -> video_id m = id video) ->
  wellFormed (withMarks video ms).
Proof.
  intros [H1 H2 H3 H4 H5 H6] Hms. split; simpl; assumption.
Qed.

Lemma get_wellFormed (st : LocalStore) (videoId : string) (video : Video) :
  Forall wellFormed (JsMap.values (videos st)) ->
  JsMap.get videoId (videos st) = Some video -> wellFormed video.
Proof.
  intros Hall Hget. rewrite Forall_forall in Hall.
  exact (Hall _ (get_In videoId video (videos st) Hget)).
Qed.

End StoreInvariant.

Section StoreInvariantSteps.
Import Logger Transcoder Model Server Session.

Lemma uploadVideo_consistent tza st videoId projectId now uploadedBy file metadata :
  consistent st ->
  consistent (fst (uploadVideo tza st videoId projectId now uploadedBy file metadata)).
Proof.
  intros [Hv [Hm Hw]]. unfold uploadVideo.
  destruct file as [f |]; [| exact (conj Hv (conj Hm Hw))].
  destruct (newVideo tza videoId projectId now uploadedBy f metadata)
    as [video |] eqn:E; [| exact (conj Hv (conj Hm Hw))].
  destruct (newVideo_wellFormed _ _ _ _ _ _ _ _ E) as [Hid Hwf].
  simpl. split; [| split].
  - apply set_keyed; assumption.
  - exact Hm.
  - apply values_set_Forall; assumption.
Qed.

Lemma markFailed_consistent st videoId :
  consistent st -> consistent (markFailed st videoId).
Proof.
  intros [Hv [Hm Hw]]. unfold markFailed.
  destruct (JsMap.get videoId (videos st)) as [video |] eqn:E;
    [| exact (conj Hv (conj Hm Hw))].
  simpl. split; [| split].
  - apply set_keyed; [| exact Hv]. simpl. exact (keyed_get id _ _ _ Hv E).
  - exact Hm.
  - apply values_set_Forall; [| exact Hw].
    apply withStatus_failed_wellFormed. exact (get_wellFormed st _ _ Hw E).
Qed.

Lemma markReady_consistent st videoId :
  consistent st ->
  consistent (markReady st videoId (videoId ++ ".mp4") (videoId ++ ".jpg")).
Proof.
  intros [Hv [Hm Hw]]. unfold markReady.
  destruct (JsMap.get videoId (videos st)) as [video |] eqn:E;
    [| exact (conj Hv (conj Hm Hw))].
  pose proof (keyed_get id _ _ _ Hv E) as Hid.
  simpl. split; [| split].
  - apply set_keyed; [| exact Hv]. simpl. exact Hid.
  - exact Hm.
  - apply values_set_Forall; [| exact Hw].
    apply ready_wellFormed; [exact Hid |]. exact (get_wellFormed st _ _ Hw E).
Qed.

Lemma generateProxyLocally_consistent proxyDir thumbnailDir st logs0 start
  videoId filePath projectId proxyEvents thumbEvents :
  consistent st ->
  consistent (store (generateProxyLocally proxyDir thumbnailDir st logs0 start
                       videoId filePath projectId proxyEvents thumbEvents)).
Proof.
  intros H. unfold generateProxyLocally.
  destruct (promise (generateProxy _ _ _ _ _)) as [[out | err] |]; simpl.
  - destruct (promise (generateThumbnail _ _ _ _)) as [[out' | err'] |]; simpl.
    + apply markReady_consistent. exact H.
    + apply markFailed_consistent. exact H.
    + exact H.
  - apply markFailed_consistent. exact H.
  - exact H.
Qed.

Lemma deleteVideo_consistent st files videoId :
  consistent st -> consistent (fst (fst (deleteVideo st files videoId))).
Proof.
  intros [Hv [Hm Hw]]. unfold deleteVideo.
  destruct (JsMap.get videoId (videos st)); [| exact (conj Hv (conj Hm Hw))].
  simpl. split; [| split].
  - apply delete_keyed. exact Hv.
  - exact Hm.
  - apply values_delete_Forall. exact Hw.
Qed.

Lemma addMark_consistent st markId now videoId i o :
  consistent st -> consistent (fst (addMark st markId now videoId i o)).
Proof.
  intros [Hv [Hm Hw]]. unfold addMark. simpl.
  split; [| split].
  - destruct (JsMap.get videoId (videos st)) as [video |] eqn:E; [| exact Hv].
    apply set_keyed; [| exact Hv]. simpl. exact (keyed_get id _ _ _ Hv E).
  - apply set_keyed; [reflexivity | exact Hm].
  - destruct (JsMap.get videoId (videos st)) as [video |] eqn:E; [| exact Hw].
    apply values_set_Forall; [| exact Hw].
    pose proof (get_wellFormed st _ _ Hw E) as Hwf.
    apply withMarks_wellFormed; [exact Hwf |].
    intros m Hin. apply in_app_or in Hin. destruct Hin as [Hin | [<- | []]].
    + exact (wf_marks video Hwf m Hin).
    + simpl. symmetry. exact (keyed_get id _ _ _ Hv E).
Qed.

Lemma map_values_Forall (f : Video -> Video) (m : list (string * Video)) :
  (forall v, wellFormed v -> wellFormed (f v)) ->
  Forall wellFormed (JsMap.values m) ->
  Forall wellFormed
    (JsMap.values (map (fun kv : string * Video => (fst kv, f (snd kv))) m)).
Proof.
  intros Hf Hall. unfold JsMap.values in *. rewrite map_map. simpl.
  rewrite Forall_map in *.
  apply (Forall_impl _ (P := fun kv => wellFormed (snd kv))); [| exact Hall].
  intros kv. apply Hf.
Qed.

Lemma deleteMark_consistent st markId :
  consistent st -> consistent (fst (deleteMark st markId)).
Proof.
  intros [Hv [Hm Hw]]. unfold deleteMark. simpl.
  split; [| split].
  - apply (map_values_keyed id
             (fun v => withMarks v
                         (filter (fun m => negb (String.eqb (mark_id m) markId))
                            (Model.marks v)))); [reflexivity | exact Hv].
  - apply delete_keyed. exact Hm.
  - apply (map_values_Forall
             (fun v => withMarks v
                         (filter (fun m => negb (String.eqb (mark_id m) markId))
                            (Model.marks v)))); [| exact Hw].
    intros v Hwf. apply withMarks_wellFormed; [exact Hwf |].
    intros m Hin. apply filter_In in Hin. exact (wf_marks v Hwf m (proj1 Hin)).
Qed.

Lemma getProject_consistent st projectId :
  consistent st -> consistent (fst (getProject st projectId)).
Proof.
  intros [Hv [Hm Hw]]. unfold getProject.
  destruct (JsMap.get projectId (projects st)); [| exact (conj Hv (conj Hm Hw))].
  simpl. split; [| split].
  - apply (map_values_keyed id
             (fun video => if String.eqb (project_id video) projectId
                           then withMarks video (marksOf st (id video))
                           else video)); [| exact Hv].
    intros v. destruct (String.eqb (project_id v) projectId); reflexivity.
  - exact Hm.
  - apply (map_values_Forall
             (fun video => if String.eqb (project_id video) projectId
                           then withMarks video (marksOf st (id video))
                           else video)); [| exact Hw].
    intros v Hwf. destruct (String.eqb (project_id v) projectId); [| exact Hwf].
    apply withMarks_wellFormed; [exact Hwf |].
    intros m Hin. unfold marksOf in Hin. apply filter_In in Hin.
    apply String.eqb_eq. exact (proj2 Hin).
Qed.

Lemma handle_consistent (st : LocalStore) (r : Request) :
  consistent st -> consistent (handle st r).
Proof.
  intros H. destruct r; simpl.
  - apply uploadVideo_consistent. exact H.
  - apply generateProxyLocally_consistent. exact H.
  - apply deleteVideo_consistent. exact H.
  - apply addMark_consistent. exact H.
  - apply deleteMark_consistent. exact H.
  - apply getProject_consistent. exact H.
Qed.

Lemma run_consistent (projects : list (string * Project))
  (requests : list Request) :
  consistent (run projects requests).
Proof.
  unfold run.
  assert (H0 : consistent {| projects := projects; videos := [];
                             Server.marks := [] |})
    by (repeat split; constructor).
  revert H0. generalize {| projects := projects; videos := []; Server.marks := [] |}.
  induction requests as [| r requests IH]; intros st H; simpl.
  - exact H.
  - apply IH. apply handle_consistent. exact H.
Qed.

End StoreInvariantSteps.

Section StoreInvariantResults.
Import Logger Transcoder Model Server Session MoreSamples.

Lemma keyed_In_get {V : Type} (key : V -> string) (k : string) (v : V)
  (m : list (string * V)) :
  keyed key m -> In (k, v) m -> JsMap.get k m = Some v.
Proof.
  intros [Hnd _]. induction m as [| [k0 v0] m IH]; simpl; [intros [] |].
  apply NoDup_cons_iff in Hnd. destruct Hnd as [Hnot Hnd'].
  intros [Heq | Hin].
  - injection Heq as -> ->. rewrite String.eqb_refl. reflexivity.
  - destruct (String.eqb_spec k k0) as [-> | Hne].
    + exfalso. apply Hnot. apply (in_map fst) in Hin. exact Hin.
    + exact (IH Hnd' Hin).
Qed.

Lemma keyed_value_get {V : Type} (key : V -> string) (v : V)
  (m : list (string * V)) :
  keyed key m -> In v (JsMap.values m) -> JsMap.get (key v) m = Some v.
Proof.
  intros Hk Hin. unfold JsMap.values in Hin. apply in_map_iff in Hin.
  destruct Hin as [[k v'] [Heq Hin]]. simpl in Heq. subst v'.
  destruct Hk as [Hnd Hall].
  assert (Hkey : key v = k)
    by (rewrite Forall_forall in Hall; exact (Hall _ Hin)).
  rewrite Hkey. apply (keyed_In_get key); [split; assumption | exact Hin].
Qed.

(** X1.  After any sequence of requests, every video in the store is the
    one that a lookup of its own id gives, and likewise every mark: no
    record sits under a foreign key and no id is stored twice. *)
Theorem stored_records_found_by_id :
  forall (projects : list (string * Project)) (requests : list Request),
    (forall v, In v (JsMap.values (videos (run projects requests))) ->
       JsMap.get (id v) (videos (run projects requests)) = Some v) /\
    (forall m, In m (JsMap.values (Server.marks (run projects requests))) ->
       JsMap.get (mark_id m) (Server.marks (run projects requests)) = Some m).
Proof.
  intros projects requests.
  destruct (run_consistent projects requests) as [Hv [Hm _]].
  split.
  - intros v. apply keyed_value_get. exact Hv.
  - intros m. apply keyed_value_get. exact Hm.
Qed.

Lemma stored_records_found_by_id_witness :
  In {| mark_id := "m1"; video_id := "v1"; in_point := 5;
        out_point := 10; created_at := "t1" |}
    (JsMap.values (Server.marks (run oneProject session))) /\
  JsMap.get "m1" (Server.marks (run oneProject session))
  = Some {| mark_id := "m1"; video_id := "v1"; in_point := 5;
            out_point := 10; created_at := "t1" |}.
Proof.
  assert (Hin : In {| mark_id := "m1"; video_id := "v1"; in_point := 5;
                      out_point := 10; created_at := "t1" |}
                  (JsMap.values (Server.marks (run oneProject session))))
    by (left; reflexivity).
  split; [exact Hin |].
  exact (proj2 (stored_records_found_by_id oneProject session) _ Hin).
Defined.

End StoreInvariantResults.

Section StoreNeverResults.
Import Logger Transcoder Model Server Session MoreSamples.

Lemma run_wellFormed (projects : list (string * Project))
  (requests : list Request) (videoId : string) (video : Video) :
  JsMap.get videoId (videos (run projects requests)) = Some video ->
  wellFormed video.
Proof.
  intros Hget. destruct (run_consistent projects requests) as [_ [_ Hw]].
  exact (get_wellFormed _ _ _ Hw Hget).
Qed.

(** X2.  No sequence of requests to the local-mode server leaves a video
    with status pending, with a duration that is NaN, excluded from
    export, or with an order index other than 0: the status only moves
    between processing, ready and failed, and nothing ever writes
    [included] or [order_index] after the upload. *)
Theorem stored_video_never_pending_nan_excluded_reordered :
  forall (projects : list (string * Project)) (requests : list Request)
         (videoId : string) (video : Video),
    JsMap.get videoId (videos (run projects requests)) = Some video ->
    processing_status video <> pending /\
    PrimFloat.is_nan (duration video) = false /\
    included video = true /\
    order_index video = 0%Z.
Proof.
  intros projects requests videoId video Hget.
  destruct (run_wellFormed _ _ _ _ Hget) as [H1 H2 H3 H4 _ _].
  repeat split; assumption.
Qed.

Lemma stored_video_never_pending_nan_excluded_reordered_witness :
  exists video,
    JsMap.get "v1" (videos (run oneProject session)) = Some video /\
    processing_status video <> pending /\
    PrimFloat.is_nan (duration video) = false /\
    included video = true /\
    order_index video = 0%Z.
Proof.
  eexists. split; [reflexivity |].
  exact (stored_video_never_pending_nan_excluded_reordered
           oneProject session "v1" _ eq_refl).
Defined.

(** X3.  After any sequence of requests, a video with status ready has
    both artifact locations set, to /proxies/<id>.mp4 and
    /thumbnails/<id>.jpg of its own id. *)
Theorem ready_video_has_its_artifacts :
  forall (projects : list (string * Project)) (requests : list Request)
         (videoId : string) (video : Video),
    JsMap.get videoId (videos (run projects requests)) = Some video ->
    processing_status video = ready ->
    proxy_url video = Some (proxyUrlOf videoId) /\
    thumbnail_url video = Some (thumbnailUrlOf videoId).
Proof.
  intros projects requests videoId video Hget Hready.
  destruct (run_consistent projects requests) as [Hv _].
  rewrite <- (keyed_get id _ _ _ Hv Hget).
  exact (wf_ready video (run_wellFormed _ _ _ _ Hget) Hready).
Qed.

Lemma ready_video_has_its_artifacts_witness :
  exists video,
    JsMap.get "v1" (videos (run oneProject session)) = Some video /\
    processing_status video = ready /\
    proxy_url video = Some "/proxies/v1.mp4" /\
    thumbnail_url video = Some "/thumbnails/v1.jpg".
Proof.
  eexists. split; [reflexivity |]. split; [reflexivity |].
  exact (ready_video_has_its_artifacts oneProject session "v1" _
           eq_refl eq_refl).
Defined.

(** X4.  After any sequence of requests, every mark in the [marks] array
    of a stored video names that video as its owner. *)
Theorem marks_array_holds_own_marks :
  forall (projects : list (string * Project)) (requests : list Request)
         (videoId : string) (video : Video) (m : Mark),
    JsMap.get videoId (videos (run projects requests)) = Some video ->
    In m (Model.marks video) ->
    video_id m = videoId.
Proof.
  intros projects requests videoId video m Hget Hin.
  destruct (run_consistent projects requests) as [Hv _].
  rewrite <- (keyed_get id _ _ _ Hv Hget).
  exact (wf_marks video (run_wellFormed _ _ _ _ Hget) m Hin).
Qed.

Lemma marks_array_holds_own_marks_witness :
  exists video m,
    JsMap.get "v1" (videos (run oneProject session)) = Some video /\
    In m (Model.marks video) /\
    video_id m = "v1".
Proof.
  eexists. eexists. split; [reflexivity |].
  assert (Hin : In {| mark_id := "m1"; video_id := "v1"; in_point := 5;
                      out_point := 10; created_at := "t1" |}
                  (Model.marks
                     (withMarks
                        (withArtifacts
                           (withStatus
                              (Samples.clip "v1" 0 processing [])
                              ready)
                           "/proxies/v1.mp4" "/thumbnails/v1.jpg")
                        [ {| mark_id := "m1"; video_id := "v1"; in_point := 5;
                             out_point := 10; created_at := "t1" |} ])))
    by (left; reflexivity).
  split; [exact Hin |].
  exact (marks_array_holds_own_marks oneProject session "v1" _ _ eq_refl Hin).
Defined.

End StoreNeverResults.

Section ListingResults.
Import Logger Transcoder Model Server Session MoreSamples.

Lemma handle_projects (st : LocalStore) (r : Request) :
  projects (handle st r) = projects st.
Proof.
  destruct r; simpl.
  - unfold uploadVideo. destruct file; [| reflexivity].
    destruct (newVideo _ _ _ _ _ _ _); reflexivity.
  - unfold generateProxyLocally, markReady, markFailed.
    destruct (promise (generateProxy _ _ _ _ _)) as [[? | ?] |]; simpl;
      try destruct (promise (generateThumbnail _ _ _ _)) as [[? | ?] |]; simpl;
      try destruct (JsMap.get videoId (videos st)); reflexivity.
  - unfold deleteVideo. destruct (JsMap.get videoId (videos st)); reflexivity.
  - reflexivity.
  - reflexivity.
  - unfold getProject. destruct (JsMap.get projectId (projects st)); reflexivity.
Qed.

Lemma run_projects (ps : list (string * Project)) (requests : list Request) :
  projects (run ps requests) = ps.
Proof.
  unfold run.
  change ps with (projects {| projects := ps; videos := []; Server.marks := [] |})
    at 2.
  generalize {| projects := ps; videos := []; Server.marks := [] |}.
  induction requests as [| r requests IH]; intros st; simpl.
  - reflexivity.
  - rewrite IH. apply handle_projects.
Qed.

Lemma sort_unordered (l : list Video) :
  Forall (fun v => order_index v = 0%Z) l ->
  JsArray.sort byOrderIndex l = l.
Proof.
  intros Hall. apply sort_of_sorted.
  induction Hall as [| v l Hv Hall IH]; constructor.
  - exact IH.
  - destruct Hall as [| w l Hw Hall]; constructor.
    unfold JsArray.notAfter, byOrderIndex. rewrite Hv, Hw. simpl. lia.
Qed.

(** What the listing of an existing project answers, for any store. *)
Lemma getProject_listed (st : LocalStore) (projectId : string) (project : Project) :
  JsMap.get projectId (projects st) = Some project ->
  snd (getProject st projectId)
  = Json (project,
          JsArray.sort byOrderIndex
            (map (fun v => withMarks v (marksOf st (id v)))
               (filter (fun v => String.eqb (project_id v) projectId)
                  (JsMap.values (videos st))))).
Proof.
  intros Hget. unfold getProject. rewrite Hget. cbv zeta. simpl snd.
  f_equal. f_equal. f_equal.
  unfold JsMap.values. rewrite map_map. simpl.
  induction (videos st) as [| [k v] m IH]; simpl; [reflexivity |].
  destruct (String.eqb (project_id v) projectId) eqn:E; simpl; rewrite E.
  - rewrite IH. reflexivity.
  - exact IH.
Qed.

(** X5.  After any sequence of requests, listing an existing project
    answers with the videos of that project in the order in which the
    store holds them (the order of upload: sorting by order index moves
    nothing), each carrying exactly the marks that the marks map holds for
    it, in the order of the map. *)
Theorem getProject_lists_in_upload_order :
  forall (projects : list (string * Project)) (requests : list Request)
         (projectId : string) (project : Project),
    JsMap.get projectId projects = Some project ->
    snd (getProject (run projects requests) projectId)
    = Json (project,
            map (fun v => withMarks v (marksOf (run projects requests) (id v)))
              (filter (fun v => String.eqb (project_id v) projectId)
                 (JsMap.values (videos (run projects requests))))).
Proof.
  intros ps requests projectId project Hget.
  rewrite (getProject_listed _ projectId project)
    by (rewrite run_projects; exact Hget).
  f_equal. f_equal.
  apply sort_unordered. apply Forall_forall. intros v Hin.
  apply in_map_iff in Hin. destruct Hin as [w [<- Hin]].
  apply filter_In in Hin. destruct Hin as [Hin _].
  destruct (run_consistent ps requests) as [_ [_ Hw]].
  rewrite Forall_forall in Hw. simpl. exact (wf_order w (Hw w Hin)).
Qed.

Lemma getProject_lists_in_upload_order_witness :
  JsMap.get "p1" oneProject
  = Some {| name := "trip"; invite_code := "ABCDEFGH" |} /\
  snd (getProject (run oneProject session) "p1")
  = Json ({| name := "trip"; invite_code := "ABCDEFGH" |},
          map (fun v => withMarks v (marksOf (run oneProject session) (id v)))
            (filter (fun v => String.eqb (project_id v) "p1")
               (JsMap.values (videos (run oneProject session))))).
Proof.
  split; [reflexivity |].
  exact (getProject_lists_in_upload_order oneProject session "p1" _ eq_refl).
Defined.

End ListingResults.

Section MarkIndex.
Import Logger Transcoder Model Server Session.

Lemma set_keys_keep {V : Type} (k k' : string) (v : V) (m : list (string * V)) :
  In k' (map fst m) -> In k' (map fst (JsMap.set k v m)).
Proof.
  induction m as [| [k0 v0] m IH]; simpl; [intros [] |].
  destruct (String.eqb_spec k k0) as [-> | Hne]; simpl.
  - tauto.
  - intros [H | H]; [left; exact H | right; exact (IH H)].
Qed.

Lemma set_keys_new {V : Type} (k : string) (v : V) (m : list (string * V)) :
  In k (map fst (JsMap.set k v m)).
Proof.
  induction m as [| [k0 v0] m IH]; simpl.
  - left. reflexivity.
  - destruct (String.eqb_spec k k0) as [-> | Hne]; simpl.
    + left. reflexivity.
    + right. exact IH.
Qed.

Lemma delete_keys_keep {V : Type} (k k' : string) (m : list (string * V)) :
  k' <> k -> In k' (map fst m) -> In k' (map fst (JsMap.delete k m)).
Proof.
  intros Hne. induction m as [| [k0 v0] m IH]; simpl; [intros [] |].
  destruct (String.eqb_spec k k0) as [-> | Hk]; simpl.
  - intros [H | H]; [congruence | exact H].
  - intros [H | H]; [left; exact H | right; exact (IH H)].
Qed.

Lemma values_delete_In {V : Type} (k : string) (x : V) (m : list (string * V)) :
  In x (JsMap.values (JsMap.delete k m)) -> In x (JsMap.values m).
Proof.
  unfold JsMap.values. induction m as [| [k0 v0] m IH]; simpl; [tauto |].
  destruct (String.eqb k k0); simpl.
  - intros H. right. exact H.
  - intros [H | H]; [left; exact H | right; exact (IH H)].
Qed.

Lemma values_map_In (f : Video -> Video) (x : Video) (m : list (string * Video)) :
  In x (JsMap.values (map (fun kv : string * Video => (fst kv, f (snd kv))) m)) ->
  exists v, In v (JsMap.values m) /\ x = f v.
Proof.
  unfold JsMap.values. rewrite map_map. simpl. intros H.
  apply in_map_iff in H. destruct H as [[k v] [Hx Hin]]. simpl in Hx.
  exists v. split; [| symmetry; exact Hx].
  apply in_map_iff. exists (k, v). split; [reflexivity | exact Hin].
Qed.

Lemma marksOf_keys (st : LocalStore) (videoId : string) (m : Mark) :
  keyed mark_id (Server.marks st) ->
  In m (marksOf st videoId) -> In (mark_id m) (map fst (Server.marks st)).
Proof.
  intros [_ Hall] Hin. unfold marksOf in Hin. apply filter_In in Hin.
  destruct Hin as [Hin _]. unfold JsMap.values in Hin.
  apply in_map_iff in Hin. destruct Hin as [[k m'] [Heq Hin]]. simpl in Heq.
  subst m'. rewrite Forall_forall in Hall.
  pose proof (Hall _ Hin) as Hk. simpl in Hk. rewrite Hk.
  apply in_map_iff. exists (k, m). split; [reflexivity | exact Hin].
Qed.

Lemma handle_indexed (st : LocalStore) (r : Request) :
  consistent st -> indexed st -> indexed (handle st r).
Proof.
  intros Hc Hi. unfold indexed in *. destruct r; simpl.
  - unfold uploadVideo. destruct file as [f |]; [| exact Hi].
    destruct (newVideo _ _ _ _ _ f _) as [video |] eqn:E; [| exact Hi].
    simpl. intros w m Hv Hm. apply values_set_In in Hv.
    destruct Hv as [-> | Hv]; [| exact (Hi w m Hv Hm)].
    destruct (newVideo_fresh _ _ _ _ _ _ _ _ E) as [_ [_ [_ [Hnil _]]]].
    rewrite Hnil in Hm. destruct Hm.
  - assert (Hfailed : forall w m,
              In w (JsMap.values (videos (markFailed st videoId))) ->
              In m (Model.marks w) -> In (mark_id m) (map fst (Server.marks st))).
    { unfold markFailed.
      destruct (JsMap.get videoId (videos st)) as [video |] eqn:E; [| exact Hi].
      simpl. intros w m Hw Hm. apply values_set_In in Hw.
      destruct Hw as [-> | Hw]; [| exact (Hi w m Hw Hm)].
      exact (Hi video m (get_In _ _ _ E) Hm). }
    assert (Hready : forall w m,
              In w (JsMap.values
                      (videos (markReady st videoId (videoId ++ ".mp4")
                                 (videoId ++ ".jpg")))) ->
              In m (Model.marks w) -> In (mark_id m) (map fst (Server.marks st))).
    { unfold markReady.
      destruct (JsMap.get videoId (videos st)) as [video |] eqn:E; [| exact Hi].
      simpl. intros w m Hw Hm. apply values_set_In in Hw.
      destruct Hw as [-> | Hw]; [| exact (Hi w m Hw Hm)].
      exact (Hi video m (get_In _ _ _ E) Hm). }
    assert (Hmf : Server.marks (markFailed st videoId) = Server.marks st)
      by (unfold markFailed; destruct (JsMap.get videoId (videos st)); reflexivity).
    assert (Hmr : Server.marks (markReady st videoId (videoId ++ ".mp4")
                                  (videoId ++ ".jpg")) = Server.marks st)
      by (unfold markReady; destruct (JsMap.get videoId (videos st)); reflexivity).
    unfold generateProxyLocally.
    destruct (promise (generateProxy _ _ _ _ _)) as [[out | err] |]; simpl.
    + destruct (promise (generateThumbnail _ _ _ _)) as [[out' | err'] |]; simpl.
      * rewrite Hmr. exact Hready.
      * rewrite Hmf. exact Hfailed.
      * exact Hi.
    + rewrite Hmf. exact Hfailed.
    + exact Hi.
  - unfold deleteVideo.
    destruct (JsMap.get videoId (videos st)) as [video |]; [| exact Hi].
    simpl. intros w m Hw Hm. exact (Hi w m (values_delete_In _ _ _ Hw) Hm).
  - unfold addMark. simpl. intros w m Hw Hm.
    destruct (JsMap.get videoId (videos st)) as [video |] eqn:E.
    + apply values_set_In in Hw. destruct Hw as [-> | Hw].
      * simpl in Hm. apply in_app_or in Hm. destruct Hm as [Hm | [<- | []]].
        -- apply set_keys_keep. exact (Hi video m (get_In _ _ _ E) Hm).
        -- apply set_keys_new.
      * apply set_keys_keep. exact (Hi w m Hw Hm).
    + apply set_keys_keep. exact (Hi w m Hw Hm).
  - unfold deleteMark. simpl. intros w m Hw Hm.
    apply (values_map_In
             (fun v => withMarks v
                         (filter (fun m => negb (String.eqb (mark_id m) markId))
                            (Model.marks v)))) in Hw.
    destruct Hw as [u [Hu ->]].
    simpl in Hm. apply filter_In in Hm. destruct Hm as [Hm Hne].
    apply negb_true_iff, String.eqb_neq in Hne.
    apply delete_keys_keep; [exact Hne |]. exact (Hi u m Hu Hm).
  - unfold getProject.
    destruct (JsMap.get projectId (projects st)) as [project |]; [| exact Hi].
    simpl. intros w m Hw Hm.
    apply (values_map_In
             (fun video => if String.eqb (project_id video) projectId
                           then withMarks video (marksOf st (id video))
                           else video)) in Hw.
    destruct Hw as [u [Hu ->]].
    destruct (String.eqb (project_id u) projectId); [| exact (Hi u m Hu Hm)].
    simpl in Hm. destruct Hc as [_ [Hk _]]. exact (marksOf_keys st _ m Hk Hm).
Qed.

Lemma run_indexed (projects : list (string * Project))
  (requests : list Request) :
  indexed (run projects requests).
Proof.
  unfold run.
  assert (H0 : consistent {| projects := projects; videos := [];
                             Server.marks := [] |})
    by (repeat split; constructor).
  assert (H1 : indexed {| projects := projects; videos := [];
                          Server.marks := [] |})
    by (intros v m []).
  revert H0 H1.
  generalize {| projects := projects; videos := []; Server.marks := [] |}.
  induction requests as [| r requests IH]; intros st H0 H1; simpl.
  - exact H1.
  - apply IH; [apply handle_consistent | apply handle_indexed]; assumption.
Qed.

End MarkIndex.

Section DeleteMarkResults.
Import Logger Transcoder Model Server Session MoreSamples.

Lemma get_None_keys {V : Type} (k : string) (m : list (string * V)) :
  JsMap.get k m = None <-> ~ In k (map fst m).
Proof.
  induction m as [| [k0 v0] m IH]; simpl.
  - split; [intros _ [] | reflexivity].
  - destruct (String.eqb_spec k k0) as [-> | Hne].
    + split; [discriminate | intros H; exfalso; apply H; left; reflexivity].
    + rewrite IH. split.
      * intros H [Heq | Hin]; [congruence | exact (H Hin)].
      * intros H Hin. apply H. right. exact Hin.
Qed.

Lemma get_delete_same {V : Type} (k : string) (m : list (string * V)) :
  NoDup (map fst m) -> JsMap.get k (JsMap.delete k m) = None.
Proof.
  induction m as [| [k0 v0] m IH]; simpl; intros Hnd; [reflexivity |].
  apply NoDup_cons_iff in Hnd. destruct Hnd as [Hnot Hnd].
  destruct (String.eqb_spec k k0) as [-> | Hne].
  - apply get_None_keys. exact Hnot.
  - simpl. destruct (String.eqb_spec k k0); [congruence | exact (IH Hnd)].
Qed.

Lemma delete_absent {V : Type} (k : string) (m : list (string * V)) :
  JsMap.get k m = None -> JsMap.delete k m = m.
Proof.
  induction m as [| [k0 v0] m IH]; simpl; [reflexivity |].
  destruct (String.eqb k k0); [discriminate |].
  intros H. rewrite (IH H). reflexivity.
Qed.

Lemma delete_set_fresh {V : Type} (k : string) (v : V) (m : list (string * V)) :
  JsMap.get k m = None -> JsMap.delete k (JsMap.set k v m) = m.
Proof.
  induction m as [| [k0 v0] m IH]; simpl.
  - rewrite String.eqb_refl. reflexivity.
  - destruct (String.eqb k k0) eqn:E; [discriminate |].
    intros H. simpl. rewrite E, (IH H). reflexivity.
Qed.

Lemma withMarks_same (v : Video) : withMarks v (Model.marks v) = v.
Proof. destruct v; reflexivity. Qed.

Lemma filter_all {A : Type} (p : A -> bool) (l : list A) :
  (forall x, In x l -> p x = true) -> filter p l = l.
Proof.
  induction l as [| x l IH]; simpl; intros H; [reflexivity |].
  rewrite (H x (or_introl eq_refl)), IH; [reflexivity |].
  intros y Hy. apply H. right. exact Hy.
Qed.

Lemma filter_twice {A : Type} (p : A -> bool) (l : list A) :
  filter p (filter p l) = filter p l.
Proof.
  apply filter_all. intros x Hx. apply filter_In in Hx. exact (proj2 Hx).
Qed.

(** X6.  After any sequence of requests, deleting a mark always answers
    success, whether the id exists or not; afterwards the id is in the
    marks map no more and in no video's [marks] array, every other mark
    of the map is as before, and deleting the same id again changes
    nothing. *)
Theorem deleteMark_removes_everywhere :
  forall (projects : list (string * Project)) (requests : list Request)
         (markId : string),
    snd (deleteMark (run projects requests) markId) = Json tt /\
    JsMap.get markId
      (Server.marks (fst (deleteMark (run projects requests) markId))) = None /\
    (forall v m,
        In v (JsMap.values
                (videos (fst (deleteMark (run projects requests) markId)))) ->
        In m (Model.marks v) -> mark_id m <> markId) /\
    (forall k, k <> markId ->
        JsMap.get k
          (Server.marks (fst (deleteMark (run projects requests) markId)))
        = JsMap.get k (Server.marks (run projects requests))) /\
    fst (deleteMark (fst (deleteMark (run projects requests) markId)) markId)
    = fst (deleteMark (run projects requests) markId).
Proof.
  intros ps requests markId.
  set (st := run ps requests).
  destruct (run_consistent ps requests) as [_ [[Hnd _] _]]. fold st in Hnd.
  split; [reflexivity |]. split; [| split; [| split]].
  - unfold deleteMark. simpl. apply get_delete_same. exact Hnd.
  - unfold deleteMark. simpl. intros v m Hv Hm.
    apply (values_map_In
             (fun v => withMarks v
                         (filter (fun m => negb (String.eqb (mark_id m) markId))
                            (Model.marks v)))) in Hv.
    destruct Hv as [u [_ ->]]. simpl in Hm. apply filter_In in Hm.
    apply String.eqb_neq. apply negb_true_iff. exact (proj2 Hm).
  - intros k Hne. unfold deleteMark. simpl.
    apply get_delete_other. congruence.
  - unfold deleteMark. simpl. f_equal.
    + rewrite map_map. apply map_ext. intros [k v]. simpl.
      rewrite filter_twice. reflexivity.
    + apply delete_absent. apply get_delete_same. exact Hnd.
Qed.

Lemma deleteMark_removes_everywhere_witness :
  JsMap.get "m1" (Server.marks (run oneProject session)) <> None /\
  JsMap.get "m1"
    (Server.marks (fst (deleteMark (run oneProject session) "m1"))) = None.
Proof.
  split; [discriminate |].
  exact (proj1 (proj2 (deleteMark_removes_everywhere oneProject session "m1"))).
Defined.

(** X7.  After any sequence of requests, adding a mark under an id that
    the marks map does not hold and then deleting that id gives back
    exactly the store as it was, whether or not the clip exists. *)
Theorem addMark_then_deleteMark_restores :
  forall (projects : list (string * Project)) (requests : list Request)
         (markId now videoId : string) (i o : float),
    JsMap.get markId (Server.marks (run projects requests)) = None ->
    fst (deleteMark
           (fst (addMark (run projects requests) markId now videoId i o))
           markId)
    = run projects requests.
Proof.
  intros ps requests markId now videoId i o Hfresh.
  set (st := run ps requests) in *.
  pose proof (run_indexed ps requests) as Hidx. fold st in Hidx.
  assert (Hnone : forall v, In v (JsMap.values (videos st)) ->
                    filter (fun m => negb (String.eqb (mark_id m) markId))
                      (Model.marks v) = Model.marks v).
  { intros v Hv. apply filter_all. intros m Hm.
    apply negb_true_iff, String.eqb_neq. intros Heq.
    apply get_None_keys in Hfresh. apply Hfresh.
    rewrite <- Heq. exact (Hidx v m Hv Hm). }
  set (g := fun v : Video =>
              withMarks v (filter (fun m => negb (String.eqb (mark_id m) markId))
                             (Model.marks v))).
  assert (Hg : forall v, In v (JsMap.values (videos st)) -> g v = v).
  { intros v Hv. unfold g. rewrite (Hnone v Hv). apply withMarks_same. }
  assert (Hmap : forall m : list (string * Video),
             (forall v, In v (JsMap.values m) -> g v = v) ->
             map (fun kv : string * Video => (fst kv, g (snd kv))) m = m).
  { intros m Hm. induction m as [| [k v] m IH]; simpl; [reflexivity |].
    rewrite (Hm v (or_introl eq_refl)), IH; [reflexivity |].
    intros w Hw. apply Hm. right. exact Hw. }
  assert (Hvideos :
            map (fun kv : string * Video => (fst kv, g (snd kv)))
              match JsMap.get videoId (videos st) with
              | Some video =>
                  JsMap.set videoId
                    (withMarks video
                       (Model.marks video ++
                        [{| mark_id := markId; video_id := videoId;
                            in_point := i; out_point := o; created_at := now |}]))
                    (videos st)
              | None => videos st
              end
            = videos st).
  { destruct (JsMap.get videoId (videos st)) as [video |] eqn:E;
      [| exact (Hmap _ Hg)].
    pose proof (get_In _ _ _ E) as Hin.
    assert (Hnew : g (withMarks video
                        (Model.marks video ++
                         [{| mark_id := markId; video_id := videoId;
                             in_point := i; out_point := o;
                             created_at := now |}])) = video).
    { unfold g.
      change (Model.marks (withMarks video ?a)) with a.
      change (withMarks (withMarks video ?a) ?b) with (withMarks video b).
      rewrite filter_app. simpl filter.
      rewrite String.eqb_refl. simpl. rewrite app_nil_r.
      rewrite (Hnone video Hin). apply withMarks_same. }
    revert E Hg. generalize (videos st) as m.
    induction m as [| [k v] m IH]; simpl; [discriminate |].
    intros E Hgm. destruct (String.eqb_spec videoId k) as [-> | Hne].
    - injection E as ->. simpl. rewrite Hnew.
      rewrite (Hmap m); [reflexivity |].
      intros w Hw. apply Hgm. right. exact Hw.
    - simpl. rewrite (Hgm v (or_introl eq_refl)).
      rewrite IH; [reflexivity | exact E |].
      intros w Hw. apply Hgm. right. exact Hw. }
  transitivity {| projects := Server.projects st; videos := videos st;
                  Server.marks := Server.marks st |};
    [| destruct st; reflexivity].
  unfold deleteMark, addMark. simpl. f_equal.
  - exact Hvideos.
  - apply delete_set_fresh. exact Hfresh.
Qed.

Lemma addMark_then_deleteMark_restores_witness :
  JsMap.get "m2" (Server.marks (run oneProject session)) = None /\
  fst (deleteMark
         (fst (addMark (run oneProject session) "m2" "t9" "v1" 1 2)) "m2")
  = run oneProject session.
Proof.
  split; [reflexivity |].
  exact (addMark_then_deleteMark_restores oneProject session
           "m2" "t9" "v1" 1%float 2%float eq_refl).
Defined.

End DeleteMarkResults.

Section PipelineOutcomes.
Import JsString Logger Transcoder Model Server Session MoreSamples.

Lemma generateProxy_resolves logs start inputPath outputPath events :
  firstSettling events = Some (CloseEvent (Some 0%Z)) ->
  promise (generateProxy logs start inputPath outputPath events)
  = Some (Resolve outputPath).
Proof.
  intros H. rewrite generateProxy_promise. unfold proxyOutcome.
  rewrite H. reflexivity.
Qed.

Lemma generateThumbnail_promise logs inputPath outputPath events :
  promise (generateThumbnail logs inputPath outputPath events)
  = match firstSettling events with
    | Some (ErrorEvent _) => Some (Reject "FFmpeg not found")
    | Some (CloseEvent code) =>
        if isZero code then Some (Resolve outputPath)
        else Some (Reject "Thumbnail generation failed")
    | _ => None
    end.
Proof. unfold generateThumbnail. apply thumbnail_fold_promise. reflexivity. Qed.

Lemma firstSettling_never_stderr events chunk :
  firstSettling events <> Some (StderrData chunk).
Proof.
  unfold firstSettling. destruct (find settles events) as [[t ev] |] eqn:E;
    [| discriminate].
  apply find_some in E. destruct E as [_ E]. unfold settles in E. simpl in *.
  destruct ev; [discriminate | discriminate | discriminate].
Qed.

(** X8.  When both ffmpeg runs of a clip end with exit code 0,
    [generateProxyLocally] ends normally having started both, and the
    clip's record is the old one with status ready and the two artifact
    locations /proxies/<id>.mp4 and /thumbnails/<id>.jpg. *)
Theorem processing_success_sets_ready :
  forall (proxyDir thumbnailDir : string) (st : LocalStore)
         (logs0 : list LogEntry) (start videoId filePath projectId : string)
         (proxyEvents thumbEvents : list TimedEvent) (video : Video),
    JsMap.get videoId (videos st) = Some video ->
    firstSettling proxyEvents = Some (CloseEvent (Some 0%Z)) ->
    firstSettling thumbEvents = Some (CloseEvent (Some 0%Z)) ->
    completion (generateProxyLocally proxyDir thumbnailDir st logs0 start
                  videoId filePath projectId proxyEvents thumbEvents)
    = Fulfilled /\
    spawned (generateProxyLocally proxyDir thumbnailDir st logs0 start
               videoId filePath projectId proxyEvents thumbEvents)
    = [pathJoin proxyDir (videoId ++ ".mp4");
       pathJoin thumbnailDir (videoId ++ ".jpg")] /\
    JsMap.get videoId
      (videos (store (generateProxyLocally proxyDir thumbnailDir st logs0 start
                        videoId filePath projectId proxyEvents thumbEvents)))
    = Some (withArtifacts (withStatus video ready)
              (proxyUrlOf videoId) (thumbnailUrlOf videoId)).
Proof.
  intros proxyDir thumbnailDir st logs0 start videoId filePath projectId
    proxyEvents thumbEvents video Hget Hp Ht.
  unfold generateProxyLocally.
  rewrite (generateProxy_resolves _ _ _ _ _ Hp).
  rewrite generateThumbnail_promise, Ht. simpl.
  split; [reflexivity |]. split; [reflexivity |].
  unfold markReady. rewrite Hget. simpl. apply get_set_same.
Qed.

Lemma processing_success_sets_ready_witness :
  exists video,
    JsMap.get "v1" (videos Samples.store20) = Some video /\
    JsMap.get "v1"
      (videos (store (generateProxyLocally "proxies" "thumbnails"
                        Samples.store20 [] "t0" "v1" "uploads/1-a.mp4" "p1"
                        [("t1", StderrData "frame=1");
                         ("t2", CloseEvent (Some 0%Z))]
                        [("t3", CloseEvent (Some 0%Z))])))
    = Some (withArtifacts (withStatus video ready)
              "/proxies/v1.mp4" "/thumbnails/v1.jpg").
Proof.
  eexists. split; [reflexivity |].
  exact (proj2 (proj2
    (processing_success_sets_ready "proxies" "thumbnails" Samples.store20 []
       "t0" "v1" "uploads/1-a.mp4" "p1"
       [("t1", StderrData "frame=1"); ("t2", CloseEvent (Some 0%Z))]
       [("t3", CloseEvent (Some 0%Z))] _ eq_refl eq_refl eq_refl))).
Defined.

(** X9.  When the proxy run ends with exit code 0 and the thumbnail run
    fails (launch failure or non-zero exit), [generateProxyLocally] still
    ends normally, and the clip's record is the old one with status
    failed: the proxy that was produced is not recorded on the clip. *)
Theorem thumbnail_failure_sets_failed :
  forall (proxyDir thumbnailDir : string) (st : LocalStore)
         (logs0 : list LogEntry) (start videoId filePath projectId : string)
         (proxyEvents thumbEvents : list TimedEvent) (video : Video)
         (f : Failure),
    JsMap.get videoId (videos st) = Some video ->
    firstSettling proxyEvents = Some (CloseEvent (Some 0%Z)) ->
    failureOf thumbEvents = Some f ->
    completion (generateProxyLocally proxyDir thumbnailDir st logs0 start
                  videoId filePath projectId proxyEvents thumbEvents)
    = Fulfilled /\
    JsMap.get videoId
      (videos (store (generateProxyLocally proxyDir thumbnailDir st logs0 start
                        videoId filePath projectId proxyEvents thumbEvents)))
    = Some (withStatus video failed) /\
    proxy_url (withStatus video failed) = proxy_url video /\
    thumbnail_url (withStatus video failed) = thumbnail_url video.
Proof.
  intros proxyDir thumbnailDir st logs0 start videoId filePath projectId
    proxyEvents thumbEvents video f Hget Hp Hf.
  unfold generateProxyLocally.
  rewrite (generateProxy_resolves _ _ _ _ _ Hp).
  rewrite generateThumbnail_promise.
  unfold failureOf in Hf.
  destruct (firstSettling thumbEvents) as [[chunk | m | code] |];
    try discriminate; simpl.
  - split; [reflexivity |]. split; [| split; reflexivity].
    apply markFailed_get. exact Hget.
  - destruct (isZero code); [discriminate |]. simpl.
    split; [reflexivity |]. split; [| split; reflexivity].
    apply markFailed_get. exact Hget.
Qed.

Lemma thumbnail_failure_sets_failed_witness :
  exists video,
    JsMap.get "v1" (videos Samples.store20) = Some video /\
    failureOf [("t3", ErrorEvent "spawn ffmpeg ENOENT")]
    = Some (LaunchFailure "spawn ffmpeg ENOENT") /\
    JsMap.get "v1"
      (videos (store (generateProxyLocally "proxies" "thumbnails"
                        Samples.store20 [] "t0" "v1" "uploads/1-a.mp4" "p1"
                        [("t2", CloseEvent (Some 0%Z))]
                        [("t3", ErrorEvent "spawn ffmpeg ENOENT")])))
    = Some (withStatus video failed).
Proof.
  eexists. split; [reflexivity |]. split; [reflexivity |].
  exact (proj1 (proj2
    (thumbnail_failure_sets_failed "proxies" "thumbnails" Samples.store20 []
       "t0" "v1" "uploads/1-a.mp4" "p1"
       [("t2", CloseEvent (Some 0%Z))]
       [("t3", ErrorEvent "spawn ffmpeg ENOENT")] _ _
       eq_refl eq_refl eq_refl))).
Defined.

(** X10.  When a child process never reports an error and never closes
    (the proxy run, or the thumbnail run after a successful proxy run),
    [generateProxyLocally] stays suspended and the store is not touched:
    there is no timeout, so the clip keeps the status it has. *)
Theorem unfinished_run_leaves_store :
  forall (proxyDir thumbnailDir : string) (st : LocalStore)
         (logs0 : list LogEntry) (start videoId filePath projectId : string)
         (proxyEvents thumbEvents : list TimedEvent),
    firstSettling proxyEvents = None \/
    (firstSettling proxyEvents = Some (CloseEvent (Some 0%Z)) /\
     firstSettling thumbEvents = None) ->
    completion (generateProxyLocally proxyDir thumbnailDir st logs0 start
                  videoId filePath projectId proxyEvents thumbEvents)
    = Suspended /\
    store (generateProxyLocally proxyDir thumbnailDir st logs0 start
             videoId filePath projectId proxyEvents thumbEvents)
    = st.
Proof.
  intros proxyDir thumbnailDir st logs0 start videoId filePath projectId
    proxyEvents thumbEvents [Hp | [Hp Ht]]; unfold generateProxyLocally.
  - rewrite generateProxy_promise. unfold proxyOutcome. rewrite Hp.
    split; reflexivity.
  - rewrite (generateProxy_resolves _ _ _ _ _ Hp).
    rewrite generateThumbnail_promise, Ht. split; reflexivity.
Qed.

Lemma unfinished_run_leaves_store_witness :
  firstSettling [("t1", StderrData "frame=1"); ("t2", StderrData "frame=2")]
  = None /\
  store (generateProxyLocally "proxies" "thumbnails" Samples.store20 [] "t0"
           "v1" "uploads/1-a.mp4" "p1"
           [("t1", StderrData "frame=1"); ("t2", StderrData "frame=2")] [])
  = Samples.store20.
Proof.
  split; [reflexivity |].
  exact (proj2
    (unfinished_run_leaves_store "proxies" "thumbnails" Samples.store20 []
       "t0" "v1" "uploads/1-a.mp4" "p1"
       [("t1", StderrData "frame=1"); ("t2", StderrData "frame=2")] []
       (or_introl eq_refl))).
Defined.

End PipelineOutcomes.

Section PipelineIsolation.
Import JsString Logger Transcoder Model Server Session MoreSamples.

Lemma set_keys_existing {V : Type} (k : string) (v v' : V)
  (m : list (string * V)) :
  JsMap.get k m = Some v -> map fst (JsMap.set k v' m) = map fst m.
Proof.
  induction m as [| [k0 v0] m IH]; simpl; [discriminate |].
  destruct (String.eqb_spec k k0) as [-> | Hne]; simpl.
  - reflexivity.
  - intros H. rewrite (IH H). reflexivity.
Qed.

Lemma markFailed_frame (st : LocalStore) (videoId other : string) :
  other <> videoId ->
  Server.marks (markFailed st videoId) = Server.marks st /\
  projects (markFailed st videoId) = projects st /\
  map fst (videos (markFailed st videoId)) = map fst (videos st) /\
  JsMap.get other (videos (markFailed st videoId)) = JsMap.get other (videos st).
Proof.
  intros Hne. unfold markFailed.
  destruct (JsMap.get videoId (videos st)) as [video |] eqn:E; simpl.
  - repeat split.
    + exact (set_keys_existing _ _ _ _ E).
    + apply get_set_other. congruence.
  - repeat split.
Qed.

Lemma markReady_frame (st : LocalStore) (videoId other a b : string) :
  other <> videoId ->
  Server.marks (markReady st videoId a b) = Server.marks st /\
  projects (markReady st videoId a b) = projects st /\
  map fst (videos (markReady st videoId a b)) = map fst (videos st) /\
  JsMap.get other (videos (markReady st videoId a b))
  = JsMap.get other (videos st).
Proof.
  intros Hne. unfold markReady.
  destruct (JsMap.get videoId (videos st)) as [video |] eqn:E; simpl.
  - repeat split.
    + exact (set_keys_existing _ _ _ _ E).
    + apply get_set_other. congruence.
  - repeat split.
Qed.

(** X11.  However the two ffmpeg runs of a clip go, the end of
    [generateProxyLocally] changes nothing but the record of that clip:
    marks and projects are as before, the store holds the same video ids
    in the same order (so a clip deleted in the meantime is not brought
    back), and every other clip's record is untouched. *)
Theorem processing_touches_only_its_clip :
  forall (proxyDir thumbnailDir : string) (st : LocalStore)
         (logs0 : list LogEntry) (start videoId filePath projectId : string)
         (proxyEvents thumbEvents : list TimedEvent) (other : string),
    other <> videoId ->
    Server.marks
      (store (generateProxyLocally proxyDir thumbnailDir st logs0 start
                videoId filePath projectId proxyEvents thumbEvents))
    = Server.marks st /\
    projects
      (store (generateProxyLocally proxyDir thumbnailDir st logs0 start
                videoId filePath projectId proxyEvents thumbEvents))
    = projects st /\
    map fst
      (videos (store (generateProxyLocally proxyDir thumbnailDir st logs0 start
                        videoId filePath projectId proxyEvents thumbEvents)))
    = map fst (videos st) /\
    JsMap.get other
      (videos (store (generateProxyLocally proxyDir thumbnailDir st logs0 start
                        videoId filePath projectId proxyEvents thumbEvents)))
    = JsMap.get other (videos st).
Proof.
  intros proxyDir thumbnailDir st logs0 start videoId filePath projectId
    proxyEvents thumbEvents other Hne.
  unfold generateProxyLocally.
  destruct (promise (generateProxy _ _ _ _ _)) as [[out | err] |]; simpl.
  - destruct (promise (generateThumbnail _ _ _ _)) as [[out' | err'] |]; simpl.
    + apply markReady_frame. exact Hne.
    + apply markFailed_frame. exact Hne.
    + repeat split.
  - apply markFailed_frame. exact Hne.
  - repeat split.
Qed.

Lemma processing_touches_only_its_clip_witness :
  "v1" <> "v2" /\
  JsMap.get "v1"
    (videos (store (generateProxyLocally "proxies" "thumbnails"
                      Samples.store20 [] "t0" "v2" "uploads/2-b.mp4" "p1"
                      [("t1", CloseEvent (Some 1%Z))] [])))
  = JsMap.get "v1" (videos Samples.store20) /\
  map fst
    (videos (store (generateProxyLocally "proxies" "thumbnails"
                      Samples.store20 [] "t0" "v2" "uploads/2-b.mp4" "p1"
                      [("t1", CloseEvent (Some 1%Z))] [])))
  = ["v1"].
Proof.
  assert (Hne : "v1" <> "v2") by discriminate.
  split; [exact Hne |].
  pose proof (processing_touches_only_its_clip "proxies" "thumbnails"
                Samples.store20 [] "t0" "v2" "uploads/2-b.mp4" "p1"
                [("t1", CloseEvent (Some 1%Z))] [] "v1" Hne)
    as [_ [_ [Hkeys Hget]]].
  split; [exact Hget | exact Hkeys].
Defined.

(** X12.  A run settles once: as soon as the events of the child process
    contain an 'error' or a 'close', further events (such as the 'close'
    that follows an 'error') do not change whether and with what
    [generateProxy] and [generateThumbnail] resolve or reject. *)
Theorem first_settlement_stays :
  forall (logs : list LogEntry) (start inputPath outputPath : string)
         (events more : list TimedEvent),
    firstSettling events <> None ->
    promise (generateProxy logs start inputPath outputPath (events ++ more))
    = promise (generateProxy logs start inputPath outputPath events) /\
    promise (generateThumbnail logs inputPath outputPath (events ++ more))
    = promise (generateThumbnail logs inputPath outputPath events) /\
    promise (generateProxy logs start inputPath outputPath events) <> None /\
    promise (generateThumbnail logs inputPath outputPath events) <> None.
Proof.
  intros logs start inputPath outputPath events more Hs.
  assert (Hp : promise (generateProxy logs start inputPath outputPath events)
               <> None).
  { rewrite generateProxy_promise. unfold proxyOutcome.
    destruct (firstSettling events) as [[chunk | m | code] |] eqn:E;
      try discriminate; try congruence.
    - exfalso. exact (firstSettling_never_stderr _ _ E).
    - destruct (isZero code); discriminate. }
  assert (Ht : promise (generateThumbnail logs inputPath outputPath events)
               <> None).
  { rewrite generateThumbnail_promise.
    destruct (firstSettling events) as [[chunk | m | code] |] eqn:E;
      try discriminate; try congruence.
    - exfalso. exact (firstSettling_never_stderr _ _ E).
    - destruct (isZero code); discriminate. }
  split; [| split; [| split; assumption]].
  - unfold generateProxy in *. rewrite fold_left_app.
    destruct (promise (fold_left (proxyStep outputPath) events _))
      as [p |] eqn:E; [| congruence].
    apply proxy_settled_stays. exact E.
  - unfold generateThumbnail in *. rewrite fold_left_app.
    destruct (promise (fold_left (thumbnailStep outputPath) events _))
      as [p |] eqn:E; [| congruence].
    apply thumbnail_settled_stays. exact E.
Qed.

Lemma first_settlement_stays_witness :
  firstSettling [("t1", ErrorEvent "spawn ffmpeg ENOENT")] <> None /\
  promise (generateProxy [] "t0" "in.mov" "out.mp4"
             ([("t1", ErrorEvent "spawn ffmpeg ENOENT")]
              ++ [("t2", CloseEvent (Some (-2)%Z))]))
  = Some (Reject "FFmpeg not found").
Proof.
  assert (Hs : firstSettling [("t1", ErrorEvent "spawn ffmpeg ENOENT")] <> None)
    by discriminate.
  split; [exact Hs |].
  exact (proj1 (first_settlement_stays [] "t0" "in.mov" "out.mp4"
                  [("t1", ErrorEvent "spawn ffmpeg ENOENT")]
                  [("t2", CloseEvent (Some (-2)%Z))] Hs)).
Defined.

End PipelineIsolation.

Section LastLines.
Import JsString Transcoder Lines.

Lemma splitLines_noBreak (s : string) :
  Forall (fun l => noBreak l = true) (splitLines s).
Proof.
  induction s as [| c s IH]; simpl.
  - constructor; [reflexivity | constructor].
  - destruct (Ascii.eqb c newline) eqn:E.
    + constructor; [reflexivity | exact IH].
    + destruct (splitLines s) as [| l ls].
      * constructor; [simpl; rewrite E; reflexivity | constructor].
      * inversion IH as [| ? ? Hl Hls]; subst.
        constructor; [simpl; rewrite E, Hl; reflexivity | exact Hls].
Qed.

Lemma splitLines_single (l : string) :
  noBreak l = true -> splitLines l = [l].
Proof.
  induction l as [| c l IH]; simpl; [reflexivity |].
  intros H. apply andb_true_iff in H. destruct H as [Hc Hl].
  apply negb_true_iff in Hc. rewrite Hc, (IH Hl). reflexivity.
Qed.

Lemma splitLines_line_break (l rest : string) :
  noBreak l = true ->
  splitLines (l ++ String newline rest) = l :: splitLines rest.
Proof.
  induction l as [| c l IH]; simpl.
  - intros _. reflexivity.
  - intros H. apply andb_true_iff in H. destruct H as [Hc Hl].
    apply negb_true_iff in Hc. rewrite Hc, (IH Hl). reflexivity.
Qed.

(** Joining lines and splitting again gives the lines back. *)
Lemma splitLines_joinLines (ls : list string) :
  ls <> [] -> Forall (fun l => noBreak l = true) ls ->
  splitLines (joinLines ls) = ls.
Proof.
  induction ls as [| l ls IH]; [congruence |].
  intros _ Hall. inversion Hall as [| ? ? Hl Hls]; subst.
  destruct ls as [| l' ls'].
  - simpl. apply splitLines_single. exact Hl.
  - change (joinLines (l :: l' :: ls'))
      with ((l ++ String newline (joinLines (l' :: ls')))%string).
    rewrite (splitLines_line_break _ _ Hl), IH; [reflexivity | discriminate | exact Hls].
Qed.

Lemma joinLines_app (ls1 ls2 : list string) :
  ls1 <> [] -> ls2 <> [] ->
  joinLines (ls1 ++ ls2)
  = (joinLines ls1 ++ String newline (joinLines ls2))%string.
Proof.
  induction ls1 as [| l ls1 IH]; [congruence |].
  intros _ H2. destruct ls1 as [| l' ls1'].
  - simpl. destruct ls2; [congruence | reflexivity].
  - change (joinLines ((l :: l' :: ls1') ++ ls2))
      with ((l ++ String newline (joinLines ((l' :: ls1') ++ ls2)))%string).
    rewrite IH by (discriminate || exact H2).
    change (joinLines (l :: l' :: ls1'))
      with ((l ++ String newline (joinLines (l' :: ls1')))%string).
    rewrite append_assoc. reflexivity.
Qed.

Lemma sliceLast_not_nil {A : Type} (n : nat) (xs : list A) :
  xs <> [] -> n <> O -> sliceLast n xs <> [].
Proof.
  intros Hx Hn H.
  pose proof (proj2 (sliceLast_suffix n xs)) as Hlen. rewrite H in Hlen.
  simpl in Hlen. destruct xs; [congruence | simpl in Hlen; lia].
Qed.

Lemma skipn_Forall {A : Type} (P : A -> Prop) (n : nat) (xs : list A) :
  Forall P xs -> Forall P (skipn n xs).
Proof.
  intros H. rewrite <- (firstn_skipn n xs) in H.
  apply Forall_app in H. exact (proj2 H).
Qed.

(** X13.  The text that [generateProxy] keeps of the diagnostic stream
    is made of exactly the last ten lines of the stream (all of them when
    there are fewer); it is an end piece of the stream, and the whole
    stream when the stream has at most ten lines. *)
Theorem lastLines_keeps_the_last_ten :
  forall stderr : string,
    splitLines (lastLines stderr) = sliceLast 10 (splitLines stderr) /\
    List.length (splitLines (lastLines stderr))
    = Nat.min 10 (List.length (splitLines stderr)) /\
    (exists before, stderr = (before ++ lastLines stderr)%string) /\
    ((List.length (splitLines stderr) <= 10)%nat -> lastLines stderr = stderr).
Proof.
  intros stderr.
  assert (Hsplit : splitLines (lastLines stderr)
                   = sliceLast 10 (splitLines stderr)).
  { unfold lastLines. apply splitLines_joinLines.
    - apply sliceLast_not_nil; [apply splitLines_not_nil | discriminate].
    - unfold sliceLast. apply skipn_Forall. apply splitLines_noBreak. }
  split; [exact Hsplit |]. split; [| split].
  - rewrite Hsplit. exact (proj2 (sliceLast_suffix 10 (splitLines stderr))).
  - pose proof (proj1 (sliceLast_suffix 10 (splitLines stderr))) as Hcut.
    pose proof (joinLines_splitLines stderr) as Hjoin.
    destruct (firstn (List.length (splitLines stderr) - 10) (splitLines stderr))
      as [| l ls] eqn:E.
    + exists "". unfold lastLines. simpl in Hcut. rewrite <- Hcut.
      symmetry. exact Hjoin.
    + exists ((joinLines (l :: ls)) ++ String newline "")%string.
      rewrite <- Hjoin at 1. rewrite Hcut at 1.
      rewrite joinLines_app;
        [| discriminate
         | apply sliceLast_not_nil; [apply splitLines_not_nil | discriminate]].
      unfold lastLines. rewrite append_assoc. reflexivity.
  - intros Hlen. unfold lastLines, sliceLast.
    replace (List.length (splitLines stderr) - 10)%nat with O by lia.
    simpl. apply joinLines_splitLines.
Qed.

Lemma lastLines_keeps_the_last_ten_witness :
  (List.length (splitLines ("a" ++ String newline "b")) <= 10)%nat /\
  lastLines ("a" ++ String newline "b") = ("a" ++ String newline "b")%string.
Proof.
  assert (H : (List.length (splitLines ("a" ++ String newline "b")) <= 10)%nat)
    by (simpl; lia).
  split; [exact H |].
  exact (proj2 (proj2 (proj2
    (lastLines_keeps_the_last_ten ("a" ++ String newline "b")))) H).
Defined.

End LastLines.

Section FilenameDateResults.
Import JsString Regex JsDate Filename Model Server MoreSamples.
Local Open Scope Z_scope.

(** X14.  On a host whose time zone offset is at most a day,
    [parseFilenameDate] returns null exactly when none of its five
    patterns matches the name; and when a pattern matches and none before
    it does, the result is the date built from that pattern's digits,
    which is always a valid date. *)
Theorem parseFilenameDate_first_matching_pattern :
  forall (tza : Z -> Z) (filename : list N),
    boundedOffset tza ->
    (parseFilenameDate tza filename = None <->
     forall p, In p patterns -> matchRe p filename = None) /\
    (forall pre p post caps,
        patterns = pre ++ p :: post ->
        (forall q, In q pre -> matchRe q filename = None) ->
        matchRe p filename = Some caps ->
        parseFilenameDate tza filename = Some (dateOfMatch tza caps) /\
        exists t, getTime (dateOfMatch tza caps) = Some t).
Proof.
  intros tza filename Htz. split.
  - apply parseFilenameDate_null_iff_no_match. exact Htz.
  - intros pre p post caps Heq Hpre Hm.
    assert (Hin : In p patterns)
      by (rewrite Heq; apply in_or_app; right; left; reflexivity).
    split.
    + unfold parseFilenameDate. rewrite Heq.
      apply tryPatterns_first_match; assumption.
    + exact (pattern_match_valid tza p filename caps Htz Hin Hm).
Qed.

Lemma utc_bounded : boundedOffset (fun _ => 0).
Proof. intros t. unfold msPerDay. simpl. lia. Qed.

Lemma parseFilenameDate_first_matching_pattern_witness :
  boundedOffset (fun _ => 0) /\
  matchRe (nth 2 patterns {| anchored := false; ignoreCase := false; nodes := [] |})
    (str "trip 2021-07-04 10-20-30.mp4")
  = Some (map str ["2021"; "07"; "04"; "10"; "20"; "30"]%string) /\
  parseFilenameDate (fun _ => 0) (str "trip 2021-07-04 10-20-30.mp4")
  = Some (mkDate (Some 1625394030000)).
Proof.
  split; [exact utc_bounded |]. split; [reflexivity |].
  assert (Hpre : forall q, In q (firstn 2 patterns) ->
                           matchRe q (str "trip 2021-07-04 10-20-30.mp4") = None)
    by (intros q [<- | [<- | []]]; reflexivity).
  exact (proj1 (proj2 (parseFilenameDate_first_matching_pattern
                         (fun _ => 0) (str "trip 2021-07-04 10-20-30.mp4")
                         utc_bounded)
                 (firstn 2 patterns)
                 (nth 2 patterns
                    {| anchored := false; ignoreCase := false; nodes := [] |})
                 (skipn 3 patterns)
                 (map str ["2021"; "07"; "04"; "10"; "20"; "30"]%string)
                 eq_refl Hpre eq_refl)).
Defined.

End FilenameDateResults.

Section SourceAndDate.
Import JsString Regex JsDate Filename Model Server Samples MoreSamples.
Local Open Scope N_scope.

Lemma capital_keeps_digits (c : N) : isDigit (Spec.capital c) = isDigit c.
Proof.
  unfold isDigit, Spec.capital.
  destruct (N.leb_spec 97 c), (N.leb_spec c 122); simpl; try reflexivity.
  destruct (N.leb_spec 48 (c - 32)), (N.leb_spec (c - 32) 57),
    (N.leb_spec 48 c), (N.leb_spec c 57); simpl; try reflexivity; lia.
Qed.

(** A character below 128 of a pattern with the flag [i] matches the
    characters that are the same letter. *)
Lemma Canonicalize_sameLetter (c x : N) :
  x < 128 ->
  (Canonicalize c =? Canonicalize x) = (Spec.capital c =? Spec.capital x).
Proof.
  intros Hx. rewrite (Canonicalize_ascii x Hx).
  pose proof (capital_below x Hx) as Hb.
  destruct (N.lt_ge_cases c 128) as [Hc | Hc].
  - rewrite (Canonicalize_ascii c Hc). reflexivity.
  - rewrite (capital_high c Hc). pose proof (Canonicalize_high c Hc) as Hh.
    rewrite (proj2 (N.eqb_neq c (Spec.capital x))) by lia.
    rewrite (proj2 (N.eqb_neq (Canonicalize c) (Spec.capital x))) by lia.
    reflexivity.
Qed.

Lemma atom_capital_ignoreCase (a : atom) (c : N) :
  Spec.upperAtom a = true ->
  atomMatches false a (Spec.capital c) = atomMatches true a c.
Proof.
  intros Hu. destruct a as [x | | cs]; simpl in *.
  - destruct (upperFixed_capital x Hu) as [Hlt Hcap].
    rewrite (Canonicalize_sameLetter c x Hlt), Hcap. reflexivity.
  - apply capital_keeps_digits.
  - rewrite forallb_forall in Hu.
    induction cs as [| x cs IH]; simpl; [reflexivity |].
    destruct (upperFixed_capital x (Hu x (or_introl eq_refl))) as [Hlt Hcap].
    rewrite (Canonicalize_sameLetter c x Hlt), Hcap.
    rewrite IH; [reflexivity |].
    intros y Hy. apply Hu. right. exact Hy.
Qed.

Lemma atomsMatch_capital_ignoreCase (atoms : list atom) (s : list N) :
  forallb Spec.upperAtom atoms = true ->
  atomsMatch false atoms (map Spec.capital s) = atomsMatch true atoms s.
Proof.
  revert s. induction atoms as [| a atoms IH]; intros s Hu; [reflexivity |].
  simpl in Hu. apply andb_true_iff in Hu. destruct Hu as [Ha Hu].
  destruct s as [| c s]; simpl; [reflexivity |].
  rewrite (atom_capital_ignoreCase a c Ha), (IH s Hu). reflexivity.
Qed.

Lemma search_finds_prefix_match (ic : bool) (ns : list node) (s : list N) :
  atomsMatch ic (atomsOf ns) s = true ->
  exists caps, search ic ns s = Some caps.
Proof.
  intros H. rewrite <- matchHere_atoms in H.
  destruct s as [| c s]; simpl;
    destruct (matchHere ic ns _) as [caps |]; try discriminate;
    exists caps; reflexivity.
Qed.

(** A name without a dotless i and an a with right half ring that passes
    an anchored test of [detectVideoSource] is matched by the
    case-insensitive pattern of [parseFilenameDate] that has the same
    atoms. *)
Lemma test_implies_match (re p : regex) (filename : list N) :
  anchored re = true -> ignoreCase re = false ->
  anchored p = false -> ignoreCase p = true ->
  atomsOf (nodes p) = atomsOf (nodes re) ->
  Spec.wellPlaced (atomsOf (nodes re)) = true ->
  Spec.plainName filename = true ->
  test re (toUpperCase filename) = true ->
  exists caps, matchRe p filename = Some caps.
Proof.
  intros Ha Hi Hpa Hpi Heq Hu Hs Ht.
  unfold test, matchRe in Ht. rewrite Ha, Hi in Ht.
  rewrite matchHere_atoms, (atomsMatch_toUpperCase _ _ Hu),
    (asRead_plain _ Hs),
    (atomsMatch_capital_ignoreCase _ _ (wellPlaced_upper _ Hu)) in Ht.
  unfold matchRe. rewrite Hpa, Hpi.
  apply search_finds_prefix_match. rewrite Heq. exact Ht.
Qed.

Lemma classified_has_date (tza : Z -> Z) (filename : list N) :
  boundedOffset tza ->
  Spec.plainName filename = true ->
  detectVideoSource filename = android \/
  detectVideoSource filename = whatsapp ->
  parseFilenameDate tza filename <> None.
Proof.
  intros Htz Hs Hsrc Hnone.
  rewrite (parseFilenameDate_null_iff_no_match tza filename Htz) in Hnone.
  unfold detectVideoSource in Hsrc.
  destruct (test reAndroid (toUpperCase filename)) eqn:E1.
  - destruct (test_implies_match reAndroid (nth 0 patterns reAndroid) filename)
      as [caps Hm]; try reflexivity; [exact Hs | exact E1 |].
    assert (H0 : matchRe (nth 0 patterns reAndroid) filename = None)
      by (apply Hnone; left; reflexivity).
    congruence.
  - destruct (test reIphone (toUpperCase filename));
      [destruct Hsrc; discriminate |].
    destruct (test reGopro (toUpperCase filename));
      [destruct Hsrc; discriminate |].
    destruct (test reDji (toUpperCase filename));
      [destruct Hsrc; discriminate |].
    destruct (test reWhatsapp (toUpperCase filename)) eqn:E5;
      [| destruct Hsrc; discriminate].
    destruct (test_implies_match reWhatsapp (nth 4 patterns reAndroid) filename)
      as [caps Hm]; try reflexivity; [exact Hs | exact E5 |].
    assert (H4 : matchRe (nth 4 patterns reAndroid) filename = None)
      by (apply Hnone; simpl; tauto).
    congruence.
Qed.

Lemma newVideo_source tza videoId projectId now uploadedBy file metadata video :
  newVideo tza videoId projectId now uploadedBy file metadata = Some video ->
  source video = detectVideoSource (originalname file) /\
  (filename_date video = None <->
   parseFilenameDate tza (originalname file) = None).
Proof.
  unfold newVideo. intros Hnew.
  destruct (parseFilenameDate tza (originalname file)) as [fd |];
    destruct (match metadata with Some m => creationTime m | None => None end)
      as [cd |];
    try (destruct (toISOString fd)); try (destruct (toISOString cd));
    try discriminate; injection Hnew as <-; simpl;
    (split; [reflexivity | split; intros; (reflexivity || discriminate)]).
Qed.

(** X15.  On a host whose time zone offset is at most a day, every video
    record that the upload handler builds with source android or whatsapp
    from a name without a dotless i (U+0131) and without an a with right
    half ring (U+1E9A) carries a filename date: the name that gave the
    category also gives a date.  With such a character the two part: the
    name
    [vıd-20230704-wa0001.mp4] is stored with source whatsapp and without a
    filename date, because [detectVideoSource] upper-cases the dotless i
    to I and the pattern of [parseFilenameDate], with its flag [i], does
    not take it for one. *)
Theorem android_and_whatsapp_clips_have_a_filename_date :
  (forall (tza : Z -> Z) (videoId projectId : string) (now : Z)
          (uploadedBy : option string) (file : UploadedFile)
          (metadata : option Metadata) (video : Video),
      boundedOffset tza ->
      Spec.plainName (originalname file) = true ->
      newVideo tza videoId projectId now uploadedBy file metadata = Some video ->
      source video = android \/ source video = whatsapp ->
      filename_date video <> None) /\
  (forall (tza : Z -> Z) (videoId projectId : string) (now : Z)
          (uploadedBy : option string) (metadata : option Metadata)
          (video : Video),
      newVideo tza videoId projectId now uploadedBy uploadedDotless metadata
      = Some video ->
      source video = whatsapp /\ filename_date video = None).
Proof.
  split.
  - intros tza videoId projectId now uploadedBy file metadata video
      Htz Hs Hnew Hsrc.
    destruct (newVideo_source _ _ _ _ _ _ _ _ Hnew) as [Hsource Hdate].
    rewrite Hsource in Hsrc.
    pose proof (classified_has_date tza (originalname file) Htz Hs Hsrc) as Hd.
    intros Hnone. apply Hd. apply Hdate. exact Hnone.
  - intros tza videoId projectId now uploadedBy metadata video Hnew.
    destruct (newVideo_source _ _ _ _ _ _ _ _ Hnew) as [Hsource Hdate].
    split.
    + rewrite Hsource. vm_compute. reflexivity.
    + apply Hdate. reflexivity.
Qed.

Lemma android_and_whatsapp_clips_have_a_filename_date_witness :
  (exists video,
      boundedOffset (fun _ => 0%Z) /\
      Spec.plainName (originalname uploaded) = true /\
      newVideo (fun _ => 0%Z) "v1" "p1" 1700000000000%Z None uploaded None
      = Some video /\
      source video = android /\
      filename_date video = Some 1672574400000%Z /\
      filename_date video <> None) /\
  (exists video,
      newVideo (fun _ => 0%Z) "v2" "p1" 1700000000000%Z None uploadedDotless None
      = Some video /\
      source video = whatsapp /\ filename_date video = None).
Proof.
  split.
  - eexists. split; [exact utc_bounded |]. split; [reflexivity |].
    split; [reflexivity |]. split; [reflexivity |]. split; [reflexivity |].
    exact (proj1 android_and_whatsapp_clips_have_a_filename_date (fun _ => 0%Z)
             "v1" "p1" 1700000000000%Z None uploaded None _
             utc_bounded eq_refl eq_refl (or_introl eq_refl)).
  - eexists. split; [reflexivity |].
    exact (proj2 android_and_whatsapp_clips_have_a_filename_date (fun _ => 0%Z)
             "v2" "p1" 1700000000000%Z None None _ eq_refl).
Defined.

End SourceAndDate.

Section ProjectResults.
Import JsString Server Projects.

Lemma eqb_refl (k : list N) : JsString.eqb k k = true.
Proof. apply eqb_eq. reflexivity. Qed.

Lemma eqb_neq (k k' : list N) : k <> k' -> JsString.eqb k' k = false.
Proof.
  intros Hne. destruct (JsString.eqb k' k) eqn:E; [| reflexivity].
  apply eqb_eq in E. congruence.
Qed.

Lemma projects_get_set_same (k : list N) (v : ProjectRow)
  (m : list (list N * ProjectRow)) :
  get k (set k v m) = Some v.
Proof.
  induction m as [| [k' v'] m IH]; simpl.
  - rewrite eqb_refl. reflexivity.
  - destruct (JsString.eqb k k') eqn:E; simpl.
    + rewrite eqb_refl. reflexivity.
    + rewrite E. exact IH.
Qed.

Lemma projects_get_set_other (k k' : list N) (v : ProjectRow)
  (m : list (list N * ProjectRow)) :
  k <> k' -> get k' (set k v m) = get k' m.
Proof.
  intros Hne. induction m as [| [k0 v0] m IH]; simpl.
  - rewrite (eqb_neq k k' Hne). reflexivity.
  - destruct (JsString.eqb k k0) eqn:E; simpl.
    + apply eqb_eq in E. subst k0. rewrite (eqb_neq k k' Hne). reflexivity.
    + destruct (JsString.eqb k' k0); [reflexivity | exact IH].
Qed.

(** X16.  A project that was just created is found under its id, and
    joining with its invite code, written in any mix of upper and lower
    case, answers with that project. *)
Theorem created_project_is_found_and_joined :
  forall (projects : list (list N * ProjectRow))
         (uuid nano : list N) (now name : string) (code : list N),
    toUpperCase code = toUpperCase nano ->
    snd (createProject projects uuid nano now name)
    = Json {| id := uuid; name := name; invite_code := toUpperCase nano;
              created_at := now; status := "active" |} /\
    get uuid (fst (createProject projects uuid nano now name))
    = Some {| id := uuid; name := name; invite_code := toUpperCase nano;
              created_at := now; status := "active" |} /\
    joinProject (fst (createProject projects uuid nano now name)) code
    = Json {| id := uuid; name := name; invite_code := toUpperCase nano;
              created_at := now; status := "active" |}.
Proof.
  intros projects uuid nano now name code Hcode.
  split; [reflexivity |]. split.
  - unfold createProject, generateInviteCode. cbn [fst id].
    destruct (JsString.eqb (toUpperCase nano) uuid) eqn:E.
    + apply eqb_eq in E. rewrite E. apply projects_get_set_same.
    + rewrite projects_get_set_other
        by (intros Heq; rewrite Heq, eqb_refl in E; discriminate).
      apply projects_get_set_same.
  - unfold joinProject, createProject, generateInviteCode. cbn [fst id].
    rewrite Hcode, projects_get_set_same. reflexivity.
Qed.

Lemma created_project_is_found_and_joined_witness :
  toUpperCase (str "k3x_9qzp") = toUpperCase (str "K3x_9QzP") /\
  joinProject (fst (createProject [] (str "id-1") (str "K3x_9QzP") "t" "trip"))
    (str "k3x_9qzp")
  = Json {| id := str "id-1"; name := "trip"; invite_code := str "K3X_9QZP";
            created_at := "t"; status := "active" |}.
Proof.
  split; [reflexivity |].
  exact (proj2 (proj2 (created_project_is_found_and_joined
                         [] (str "id-1") (str "K3x_9QzP") "t" "trip"
                         (str "k3x_9qzp") eq_refl))).
Defined.

(** X17.  Creating a project does not disturb the others: a code that
    led to a project before still leads to it afterwards, provided the new
    project's id and invite code differ from that code. *)
Theorem other_projects_stay_joinable :
  forall (projects : list (list N * ProjectRow))
         (uuid nano : list N) (now name : string) (code : list N)
         (q : ProjectRow),
    get (toUpperCase code) projects = Some q ->
    uuid <> toUpperCase code ->
    toUpperCase nano <> toUpperCase code ->
    joinProject projects code = Json q /\
    joinProject (fst (createProject projects uuid nano now name)) code = Json q.
Proof.
  intros projects uuid nano now name code q Hget Hid Hcode. split.
  - unfold joinProject. rewrite Hget. reflexivity.
  - unfold joinProject, createProject, generateInviteCode. cbn [fst id].
    rewrite projects_get_set_other by exact Hcode.
    rewrite projects_get_set_other by exact Hid.
    rewrite Hget. reflexivity.
Qed.

Lemma other_projects_stay_joinable_witness :
  joinProject
    (fst (createProject
            (fst (createProject [] (str "id-1") (str "K3x_9QzP") "t" "trip"))
            (str "id-2") (str "aaaaaaaa") "t" "party"))
    (str "k3x_9qzp")
  = Json {| id := str "id-1"; name := "trip"; invite_code := str "K3X_9QZP";
            created_at := "t"; status := "active" |}.
Proof.
  refine (proj2 (other_projects_stay_joinable
                   (fst (createProject [] (str "id-1") (str "K3x_9QzP") "t" "trip"))
                   (str "id-2") (str "aaaaaaaa") "t" "party" (str "k3x_9qzp")
                   _ eq_refl _ _));
    vm_compute; discriminate.
Defined.

End ProjectResults.

Section UploadFilterResults.
Import JsString Regex UploadFilter Samples.
Local Open Scope N_scope.

Lemma search_somewhere (ic : bool) (ns : list node) (s : list N) :
  (exists caps, search ic ns s = Some caps) <->
  exists before rest,
    s = before ++ rest /\ atomsMatch ic (atomsOf ns) rest = true.
Proof.
  induction s as [| c s IH].
  - split.
    + intros [caps H]. exists [], []. split; [reflexivity |].
      rewrite <- matchHere_atoms. simpl in H.
      destruct (matchHere ic ns []); [reflexivity | discriminate].
    + intros [before [rest [Heq H]]].
      destruct before; [| discriminate]. simpl in Heq. subst rest.
      rewrite <- matchHere_atoms in H. simpl.
      destruct (matchHere ic ns []) as [caps |]; [| discriminate].
      exists caps. reflexivity.
  - simpl search. split.
    + intros [caps H].
      destruct (matchHere ic ns (c :: s)) as [caps' |] eqn:E.
      * exists [], (c :: s). split; [reflexivity |].
        rewrite <- matchHere_atoms, E. reflexivity.
      * destruct (proj1 IH (ex_intro _ caps H)) as [before [rest [Heq Hm]]].
        exists (c :: before), rest. split; [| exact Hm].
        simpl. rewrite Heq. reflexivity.
    + intros [before [rest [Heq Hm]]].
      destruct (matchHere ic ns (c :: s)) as [caps' |] eqn:E;
        [exists caps'; reflexivity |].
      destruct before as [| b before].
      * simpl in Heq. subst rest. rewrite <- matchHere_atoms, E in Hm.
        discriminate.
      * simpl in Heq. injection Heq as _ Heq.
        apply IH. exists before, rest. split; assumption.
Qed.

Lemma lit_atoms (word : string) :
  atomsOf (lit word) = map Chr (str word).
Proof.
  unfold lit, atomsOf.
  induction (str word) as [| x xs IH]; simpl;
    [reflexivity | rewrite IH; reflexivity].
Qed.

Lemma word_at_start (word rest : list N) :
  Forall (fun x => x < 128) word ->
  atomsMatch true (map Chr word) rest = true <->
  exists found after,
    rest = found ++ after /\ Forall2 Spec.sameLetter found word.
Proof.
  intros Hw. revert rest. induction Hw as [| x word Hx Hw IH]; intros rest;
    simpl.
  - split; [| reflexivity].
    intros _. exists [], rest. split; [reflexivity | constructor].
  - destruct rest as [| c rest].
    + split; [discriminate |].
      intros [found [after [Heq Hup]]].
      destruct found; [inversion Hup | discriminate].
    + rewrite andb_true_iff, IH, (Canonicalize_sameLetter c x Hx), N.eqb_eq.
      split.
      * intros [Hc [found [after [Heq Hup]]]].
        exists (c :: found), after. split.
        -- simpl. rewrite Heq. reflexivity.
        -- constructor; assumption.
      * intros [found [after [Heq Hup]]].
        destruct found as [| f found]; [inversion Hup |].
        simpl in Heq. injection Heq as <- ->.
        inversion Hup; subst.
        split; [assumption |]. exists found, after.
        split; [reflexivity | assumption].
Qed.

Lemma allowedWords_ascii (word : string) :
  In word allowedWords -> Forall (fun x => x < 128) (str word).
Proof.
  intros Hin. simpl in Hin.
  repeat (destruct Hin as [<- | Hin];
          [repeat (constructor; try reflexivity) |]).
  destruct Hin.
Qed.

(** X18.  The upload filter accepts a file exactly when the extension of
    its name, lower-cased and without its first character, contains one of
    mp4, mov, avi, mkv, webm, m4v, 3gp somewhere, letters taken without
    regard to case: the test is for containment, not for equality. *)
Theorem fileFilter_accepts_by_containment :
  forall (extname toLowerCase : list N -> list N) (originalname : list N),
    fileFilter extname toLowerCase originalname = true <->
    exists word,
      In word allowedWords /\
      occursIn word (slice1 (toLowerCase (extname originalname))).
Proof.
  intros extname toLowerCase originalname. unfold fileFilter, allowedTypesTest.
  set (ext := slice1 (toLowerCase (extname originalname))).
  rewrite existsb_exists. split.
  - intros [word [Hin Hm]]. exists word. split; [exact Hin |].
    destruct (search true (lit word) ext) as [caps |] eqn:E; [| discriminate].
    destruct (proj1 (search_somewhere true (lit word) ext)
                (ex_intro _ caps E)) as [before [rest [Heq Hat]]].
    rewrite lit_atoms in Hat.
    apply (word_at_start _ _ (allowedWords_ascii word Hin)) in Hat.
    destruct Hat as [found [after [Hrest Hup]]].
    exists before, found, after. split; [| exact Hup].
    rewrite Heq, Hrest. reflexivity.
  - intros [word [Hin [before [found [after [Heq Hup]]]]]].
    exists word. split; [exact Hin |].
    destruct (proj2 (search_somewhere true (lit word) ext)) as [caps Hs].
    + exists before, (found ++ after). split; [exact Heq |].
      rewrite lit_atoms.
      apply (word_at_start _ _ (allowedWords_ascii word Hin)).
      exists found, after. split; [reflexivity | exact Hup].
    + rewrite Hs. reflexivity.
Qed.

Lemma fileFilter_accepts_by_containment_witness :
  fileFilter (fun _ => str ".MP4") lowerAscii (str "clip.MP4") = true /\
  fileFilter (fun _ => str ".removed") lowerAscii (str "notes.removed") = true /\
  fileFilter (fun _ => str ".txt") lowerAscii (str "notes.txt") = false /\
  fileFilter (fun _ => []) lowerAscii (str "clip") = false.
Proof.
  split; [| split; [| split; reflexivity]].
  - apply (fileFilter_accepts_by_containment
             (fun _ => str ".MP4") lowerAscii (str "clip.MP4")).
    exists "mp4"%string. split; [left; reflexivity |].
    exists [], (str "mp4"), []. split; [reflexivity |].
    repeat (constructor; try reflexivity).
  - apply (fileFilter_accepts_by_containment
             (fun _ => str ".removed") lowerAscii (str "notes.removed")).
    exists "mov"%string. split; [right; left; reflexivity |].
    exists (str "re"), (str "mov"), (str "ed"). split; [reflexivity |].
    repeat (constructor; try reflexivity).
Defined.

End UploadFilterResults.

Section ExportResults.
Import Model Server Exports.

(** X19.  In local mode an export is finished by the time the request
    that starts it is answered: whatever the store holds (the videos are
    collected and not used), asking for the export afterwards gives status
    ready with progress 100, and the other exports are as before. *)
Theorem local_export_is_ready_at_once :
  forall (exports : list (string * ExportData)) (st : LocalStore)
         (exportId now later projectId : string) (name : option string)
         (other : string),
    other <> exportId ->
    snd (startExport exports st exportId now later projectId name)
    = Json exportId /\
    getExport (fst (startExport exports st exportId now later projectId name))
      exportId
    = Json {| id := exportId; project_id := projectId; status := exportReady;
              progress := 100; created_at := now;
              completed_at := Some later |} /\
    getExport (fst (startExport exports st exportId now later projectId name))
      other
    = getExport exports other.
Proof.
  intros exports st exportId now later projectId name other Hne.
  unfold startExport, processExportLocally, getExport. simpl.
  rewrite get_set_same. simpl.
  split; [reflexivity |]. split.
  - rewrite get_set_same. reflexivity.
  - rewrite !get_set_other by congruence. reflexivity.
Qed.

Lemma local_export_is_ready_at_once_witness :
  "e0" <> "e1" /\
  getExport (fst (startExport [] Samples.store20 "e1" "t0" "t1" "p1" None)) "e1"
  = Json {| id := "e1"; project_id := "p1"; status := exportReady;
            progress := 100; created_at := "t0"; completed_at := Some "t1" |} /\
  getExport (fst (startExport [] Samples.store20 "e1" "t0" "t1" "p1" None)) "e0"
  = Status 404 "Export nenalezen".
Proof.
  assert (Hne : "e0" <> "e1") by discriminate.
  split; [exact Hne |].
  exact (proj2 (local_export_is_ready_at_once [] Samples.store20
                  "e1" "t0" "t1" "p1" None "e0" Hne)).
Defined.

End ExportResults.

Section NavigationResults.
Import Model Client Navigation MoreSamples.
Local Open Scope Z_scope.

Lemma playVideo_cases (app : App) (videoId : string) :
  playVideo app videoId = app \/
  (playVideo app videoId
   = {| videos := videos app; activeVideoId := Some videoId;
        currentInPoint := currentInPoint app |} /\
   exists v, In v (videos app) /\ id v = videoId /\ processing_status v = ready).
Proof.
  unfold playVideo.
  destruct (find (fun v => String.eqb (id v) videoId) (videos app))
    as [video |] eqn:E; [| left; reflexivity].
  apply find_some in E. destruct E as [Hin Hid]. apply String.eqb_eq in Hid.
  destruct (processing_status video) eqn:Es; simpl;
    try (left; reflexivity).
  right. split; [reflexivity |]. exists video. repeat split; assumption.
Qed.

Lemma playVideo_safe (app : App) (videoId : string) :
  videos (playVideo app videoId) = videos app /\
  currentInPoint (playVideo app videoId) = currentInPoint app /\
  (activeVideoId (playVideo app videoId) = activeVideoId app \/
   exists v, In v (videos app) /\ processing_status v = ready /\
             activeVideoId (playVideo app videoId) = Some (id v)).
Proof.
  destruct (playVideo_cases app videoId) as [-> | [-> [v [Hin [Hid Hs]]]]].
  - repeat split. left. reflexivity.
  - simpl. repeat split. right. exists v. rewrite Hid. repeat split; assumption.
Qed.

(** X20.  Moving to the next or to the previous clip never changes the
    list of clips or the staged in point, and the selection afterwards is
    either the one before or a clip of the list whose status is ready: an
    unprocessed or failed clip is never selected. *)
Theorem selection_moves_to_ready_clips_only :
  forall app : App,
    (videos (selectNextVideo app) = videos app /\
     currentInPoint (selectNextVideo app) = currentInPoint app /\
     (activeVideoId (selectNextVideo app) = activeVideoId app \/
      exists v, In v (videos app) /\ processing_status v = ready /\
                activeVideoId (selectNextVideo app) = Some (id v))) /\
    (videos (selectPreviousVideo app) = videos app /\
     currentInPoint (selectPreviousVideo app) = currentInPoint app /\
     (activeVideoId (selectPreviousVideo app) = activeVideoId app \/
      exists v, In v (videos app) /\ processing_status v = ready /\
                activeVideoId (selectPreviousVideo app) = Some (id v))).
Proof.
  intros app. split.
  - unfold selectNextVideo.
    destruct (_ <? _); [| repeat split; left; reflexivity].
    destruct (nth_error _ _); [apply playVideo_safe |].
    repeat split. left. reflexivity.
  - unfold selectPreviousVideo.
    destruct (_ >? _); [| repeat split; left; reflexivity].
    destruct (nth_error _ _); [apply playVideo_safe |].
    repeat split. left. reflexivity.
Qed.

Lemma findIndex_ext {A : Type} (p q : A -> bool) (xs : list A) :
  (forall x, In x xs -> p x = q x) -> findIndex p xs = findIndex q xs.
Proof.
  induction xs as [| x xs IH]; intros H; [reflexivity |].
  simpl. rewrite (H x) by (left; reflexivity).
  rewrite IH by (intros y Hy; apply H; right; exact Hy). reflexivity.
Qed.

Lemma findIndex_at (xs : list Video) :
  forall (i : nat) (a : Video),
    NoDup (map id xs) ->
    nth_error xs i = Some a ->
    findIndex (fun v => String.eqb (id v) (id a)) xs = Z.of_nat i.
Proof.
  induction xs as [| x xs IH]; intros i a Hnd Hi.
  - destruct i; discriminate.
  - simpl in Hnd. apply NoDup_cons_iff in Hnd. destruct Hnd as [Hx Hnd].
    destruct i as [| i]; simpl in Hi.
    + injection Hi as ->. simpl. rewrite String.eqb_refl. reflexivity.
    + assert (Hne : String.eqb (id x) (id a) = false).
      { apply String.eqb_neq. intros Heq. apply Hx. rewrite Heq.
        apply in_map. eapply nth_error_In. exact Hi. }
      cbn [findIndex]. rewrite Hne. rewrite (IH i a Hnd Hi).
      destruct (Z.ltb_spec (Z.of_nat i) 0); lia.
Qed.

Lemma find_by_id (xs : list Video) (b : Video) :
  NoDup (map id xs) -> In b xs ->
  find (fun v => String.eqb (id v) (id b)) xs = Some b.
Proof.
  induction xs as [| x xs IH]; intros Hnd Hin; [destruct Hin |].
  simpl in Hnd. apply NoDup_cons_iff in Hnd. destruct Hnd as [Hx Hnd].
  simpl. destruct Hin as [-> | Hin].
  - rewrite String.eqb_refl. reflexivity.
  - assert (Hne : String.eqb (id x) (id b) = false).
    { apply String.eqb_neq. intros Heq. apply Hx. rewrite Heq.
      apply in_map. exact Hin. }
    rewrite Hne. apply IH; assumption.
Qed.

Lemma NoDup_processed (xs : list Video) :
  NoDup (map id xs) -> NoDup (map id (processed xs)).
Proof.
  unfold processed. induction xs as [| x xs IH]; intros Hnd; [exact Hnd |].
  simpl in Hnd. apply NoDup_cons_iff in Hnd. destruct Hnd as [Hx Hnd].
  simpl. destruct (statusEqb (processing_status x) ready).
  - simpl. apply NoDup_cons; [| apply IH; exact Hnd].
    intros Hin. apply Hx. apply in_map_iff in Hin.
    destruct Hin as [y [Hy Hin]]. apply filter_In in Hin.
    apply in_map_iff. exists y. split; [exact Hy | apply Hin].
  - apply IH. exact Hnd.
Qed.

Lemma processed_In (xs : list Video) (v : Video) :
  In v (processed xs) -> In v xs /\ processing_status v = ready.
Proof.
  unfold processed. intros H. apply filter_In in H. destruct H as [Hin Hs].
  split; [exact Hin |]. destruct (processing_status v); try discriminate.
  reflexivity.
Qed.

Lemma playVideo_ready (app : App) (b : Video) :
  NoDup (map id (videos app)) ->
  In b (processed (videos app)) ->
  playVideo app (id b)
  = {| videos := videos app; activeVideoId := Some (id b);
       currentInPoint := currentInPoint app |}.
Proof.
  intros Hnd Hin. apply processed_In in Hin. destruct Hin as [Hin Hs].
  unfold playVideo. rewrite (find_by_id _ _ Hnd Hin). rewrite Hs. reflexivity.
Qed.

Lemma currentReadyIndex_at (app : App) (i : nat) (a : Video) :
  NoDup (map id (videos app)) ->
  nth_error (processed (videos app)) i = Some a ->
  activeVideoId app = Some (id a) ->
  findIndex (isActive app) (processed (videos app)) = Z.of_nat i.
Proof.
  intros Hnd Hi Hact.
  rewrite (findIndex_ext (isActive app) (fun v => String.eqb (id v) (id a))).
  - apply findIndex_at; [apply NoDup_processed; exact Hnd | exact Hi].
  - intros x _. unfold isActive. rewrite Hact. reflexivity.
Qed.

(** X21.  When no two clips of the list share an id and the selected clip
    is the i-th of the ready ones, with a ready clip after it, "next"
    selects that following ready clip (skipping whatever unprocessed clips
    lie between them), and "previous" right after it gives back the state
    "next" started from. *)
Theorem selectNext_then_selectPrevious_returns :
  forall (app : App) (i : nat) (a b : Video),
    NoDup (map id (videos app)) ->
    nth_error (processed (videos app)) i = Some a ->
    nth_error (processed (videos app)) (S i) = Some b ->
    activeVideoId app = Some (id a) ->
    selectNextVideo app
    = {| videos := videos app; activeVideoId := Some (id b);
         currentInPoint := currentInPoint app |} /\
    selectPreviousVideo (selectNextVideo app) = app.
Proof.
  intros app i a b Hnd Ha Hb Hact.
  assert (Hnext : selectNextVideo app
                  = {| videos := videos app; activeVideoId := Some (id b);
                       currentInPoint := currentInPoint app |}).
  { unfold selectNextVideo. cbv zeta.
    rewrite (currentReadyIndex_at app i a Hnd Ha Hact).
    assert (Hlen : (S i < List.length (processed (videos app)))%nat).
    { apply nth_error_Some. rewrite Hb. discriminate. }
    destruct (Z.ltb_spec (Z.of_nat i)
                (Z.of_nat (List.length (processed (videos app))) - 1));
      [| lia].
    replace (Z.to_nat (Z.of_nat i + 1)) with (S i) by lia.
    rewrite Hb. apply playVideo_ready; [exact Hnd |].
    eapply nth_error_In. exact Hb. }
  split; [exact Hnext |].
  rewrite Hnext.
  set (app' := {| videos := videos app; activeVideoId := Some (id b);
                  currentInPoint := currentInPoint app |}).
  assert (Hv : videos app' = videos app) by reflexivity.
  unfold selectPreviousVideo. cbv zeta.
  rewrite (currentReadyIndex_at app' (S i) b);
    [| rewrite Hv; exact Hnd | rewrite Hv; exact Hb | reflexivity].
  destruct (Z.gtb_spec (Z.of_nat (S i)) 0); [| lia].
  replace (Z.to_nat (Z.of_nat (S i) - 1)) with i by lia.
  rewrite Hv, Ha. rewrite (playVideo_ready app' a).
  - subst app'. cbn [videos currentInPoint]. rewrite <- Hact.
    destruct app; reflexivity.
  - rewrite Hv. exact Hnd.
  - rewrite Hv. eapply nth_error_In. exact Ha.
Qed.

Lemma selectNext_then_selectPrevious_returns_witness :
  activeVideoId (selectNextVideo threeClips) = Some "c" /\
  selectPreviousVideo (selectNextVideo threeClips) = threeClips.
Proof.
  assert (Hnd : NoDup (map id (videos threeClips))).
  { repeat (apply NoDup_cons; [simpl; intuition discriminate |]).
    apply NoDup_nil. }
  pose proof (selectNext_then_selectPrevious_returns threeClips 0
                (clipNamed "a" ready) (clipNamed "c" ready)
                Hnd eq_refl eq_refl eq_refl) as [H1 H2].
  split; [rewrite H1; reflexivity | exact H2].
Defined.

(** X22.  The staged in point is not tied to the clip it was taken on:
    after an in point was set, selecting another ready clip keeps it, and
    an out point behind it then posts a mark for the newly selected clip
    with the in point of the clip before. *)
Theorem staged_in_point_follows_the_selection :
  forall (app : App) (video : Video) (videoId : string) (i t : float),
    find (fun v => String.eqb (id v) videoId) (videos app) = Some video ->
    processing_status video = ready ->
    videoId <> "" ->
    currentInPoint app = Some i ->
    PrimFloat.leb t i = false ->
    setOutPoint (playVideo app videoId) t = PostMark videoId i t.
Proof.
  intros app video videoId i t Hfind Hs Hne Hi Hlt.
  unfold playVideo. rewrite Hfind, Hs. simpl.
  unfold setOutPoint. simpl.
  apply String.eqb_neq in Hne. rewrite Hne, Hi, Hlt. reflexivity.
Qed.

Lemma staged_in_point_follows_the_selection_witness :
  setOutPoint
    (playVideo {| videos := videos threeClips; activeVideoId := Some "a";
                  currentInPoint := Some 5%float |} "c") 9%float
  = PostMark "c" 5%float 9%float.
Proof.
  apply (staged_in_point_follows_the_selection
           {| videos := videos threeClips; activeVideoId := Some "a";
              currentInPoint := Some 5%float |}
           (clipNamed "c" ready) "c" 5%float 9%float);
    [reflexivity | reflexivity | discriminate | reflexivity | reflexivity].
Defined.

End NavigationResults.
